(** * pg-users-admin: the service layer and its report shaping

    A shallow embedding of the JavaScript services of the PostgreSQL
    user manager (userService, roleService, permissionService), of the
    report summary in displayUtils and of the password generator in
    passwordUtils, followed by the properties proved about them.

    Every service function is an [async] function that sends statements
    through [db.query] and either returns a value or throws.  Here such a
    function is a computation in the monad [M]: it threads a [World] (the
    statements sent so far and the lines written with [console.error])
    and ends in [Ok v] or [Throw e].  The database behind [db.query] is a
    parameter, the [Driver]. *)

From Stdlib Require Import Ascii QArith Qround.
From stdpp Require Import gmap strings list sorting pretty.

Local Open Scope string_scope.
Local Open Scope list_scope.

(** ** JavaScript values *)

(** The values that flow through the services: what a row of the [pg]
    driver holds in a column, and [undefined] for an absent property.
    [VObj] is any other object (a [Date] for a timestamp column), kept
    with the text its string conversion gives. *)
Inductive Val : Type :=
  | VUndefined
  | VNull
  | VBool (b : bool)
  | VNum (n : Z)
  | VStr (s : string)
  | VObj (shown : string).

Global Instance Val_eq_dec : EqDecision Val.
Proof. solve_decision. Defined.

(** A row of [result.rows]: an object from column name to value. *)
Abbreviation Row := (gmap string Val).

(** [o.k] on a row: the own property, else [undefined]. *)
Definition prop (o : Row) (k : string) : Val := default VUndefined (o !! k).

(** [${v}] inside a template literal. *)
Definition toStr (v : Val) : string :=
  match v with
  | VUndefined => "undefined"
  | VNull => "null"
  | VBool true => "true"
  | VBool false => "false"
  | VNum n => pretty n
  | VStr s => s
  | VObj shown => shown
  end.

(** Truthiness, as [!v], [v ? a : b] and [v && w] test it. *)
Definition truthy (v : Val) : bool :=
  match v with
  | VUndefined | VNull => false
  | VBool b => b
  | VNum n => negb (n =? 0)%Z
  | VStr s => negb (String.eqb s EmptyString)
  | VObj _ => true
  end.

(** [a || b] on values. *)
Definition js_or (a b : Val) : Val := if truthy a then a else b.

(** [xs.join(sep)] on an array of strings. *)
Definition join (sep : string) (xs : list string) : string := String.concat sep xs.

Definition nl : string := String (Ascii.ascii_of_nat 10) EmptyString.

(** The lines of a multi-line template literal, put back together. *)
Definition unlines (ls : list string) : string := String.concat nl ls.

(** ** Errors, statements and the [db.query] monad *)

(** A thrown [Error]; the code reads only its [message]. *)
Record Error : Type := { err_message : string }.

Inductive outcome (A : Type) : Type :=
  | Ok (a : A)
  | Throw (e : Error).
Arguments Ok {A} a.
Arguments Throw {A} e.

(** One call [db.query(text, values)]; a call without values has [[]]. *)
Record Query : Type := { text : string; values : list Val }.

Global Instance Query_eq_dec : EqDecision Query.
Proof. solve_decision. Defined.

(** What a run has done so far: the statements sent to the database, in
    order, and the lines printed by [console.error]. *)
Record World : Type := { issued : list Query; console : list string }.

(** The database as the services see it: given the statements already
    sent and the next one, the rows it answers or the error it raises. *)
Definition Driver : Type := list Query → Query → outcome (list Row).

Definition M (A : Type) : Type := World → World * outcome A.

Definition ret {A} (a : A) : M A := λ w, (w, Ok a).

Definition bind {A B} (m : M A) (k : A → M B) : M B :=
  λ w, match m w with
       | (w', Ok a) => k a w'
       | (w', Throw e) => (w', Throw e)
       end.

Definition throw {A} (e : Error) : M A := λ w, (w, Throw e).

(** [try { body } catch (err) { handler }] *)
Definition try_catch {A} (body : M A) (handler : Error → M A) : M A :=
  λ w, match body w with
       | (w', Throw e) => handler e w'
       | r => r
       end.

(** [console.error(label, err.message)]: the two arguments on one line. *)
Definition console_error (label : string) (err : Error) : M unit :=
  λ w, ({| issued := issued w;
           console := console w ++ [label +:+ " " +:+ err_message err] |}, Ok tt).

Declare Scope js_scope.
Delimit Scope js_scope with js.
Notation "'let*' x := m 'in' k" := (bind m (λ x, k))
  (at level 10, x name, m at level 99, k at level 200, only parsing) : js_scope.
Notation "'await' m ';;' k" := (bind m (λ _, k))
  (at level 10, m at level 99, k at level 200, only parsing) : js_scope.
Local Open Scope js_scope.

(** [for (const x of xs) { acc = body(acc, x) }], the loop-carried array
    ([messages]) passed along. *)
Fixpoint for_of {A S} (xs : list A) (body : S → A → M S) (acc : S) : M S :=
  match xs with
  | [] => ret acc
  | x :: rest => let* acc' := body acc x in for_of rest body acc'
  end.

(** The catch block every service function ends with:
    [console.error(label, err.message); throw err;] *)
Definition log_and_rethrow {A} (label : string) (err : Error) : M A :=
  await console_error label err ;; throw err.

(** The result object [{ success, message }] of a mutating operation. *)
Record Result : Type := { success : bool; message : string }.

(** [name.startsWith('pg_') || name.startsWith('rds_')] *)
Definition reserved (name : string) : bool :=
  String.prefix "pg_" name || String.prefix "rds_" name.

(** ** services/db.js, userService.js, roleService.js *)

Section Services.

(** The connection pool behind [db.query]. *)
Variable driver : Driver.

(** [db.query(text, values)]: the statement is sent, and the driver
    answers with rows or rejects it. *)
Definition db_query (text : string) (values : list Val) : M (list Row) :=
  λ w,
    let q := {| text := text; values := values |} in
    ({| issued := issued w ++ [q]; console := console w |}, driver (issued w) q).

(** *** userService.js *)

Definition listUsersSelect : string :=
  unlines
    [ "SELECT rolname as username, rolsuper as is_superuser, ";
      "       rolcreaterole as can_create_role, rolcanlogin as can_login ";
      "       FROM pg_roles ";
      "       WHERE rolcanlogin = true" ].

Definition listUsers (includeSystemUsers : bool) : M (list Row) :=
  try_catch
    (let query := listUsersSelect in
     let query :=
       if negb includeSystemUsers
       then query +:+ " AND rolname NOT LIKE 'pg\_%' AND rolname NOT LIKE 'rds\_%'"
       else query in
     let query := query +:+ " ORDER BY rolname;" in
     let* result := db_query query [] in
     ret result)
    (log_and_rethrow "Error listing users:").

Definition createUser (username password : string) : M Result :=
  try_catch
    (if String.prefix "pg_" username || String.prefix "rds_" username then
       ret {| success := false;
              message := "Error: Cannot create user with reserved prefix (pg_ or rds_). These are reserved for system use." |}
     else
       await db_query ("CREATE ROLE " +:+ username +:+ " WITH LOGIN PASSWORD '" +:+ password +:+ "';") [] ;;
       ret {| success := true; message := "User " +:+ username +:+ " created successfully" |})
    (log_and_rethrow "Error creating user:").

Definition updateUserPassword (username newPassword : string) : M Result :=
  try_catch
    (if String.prefix "pg_" username || String.prefix "rds_" username then
       ret {| success := false;
              message := "Error: Cannot modify system user " +:+ username +:+ ". System users are protected." |}
     else
       await db_query ("ALTER ROLE " +:+ username +:+ " WITH PASSWORD '" +:+ newPassword +:+ "';") [] ;;
       ret {| success := true; message := "Password for " +:+ username +:+ " updated successfully" |})
    (log_and_rethrow "Error updating user password:").

Definition deleteUser (username : string) : M Result :=
  try_catch
    (if String.prefix "pg_" username || String.prefix "rds_" username then
       ret {| success := false;
              message := "Error: Cannot delete system user " +:+ username +:+ ". System users are protected." |}
     else
       await db_query ("DROP ROLE " +:+ username +:+ ";") [] ;;
       ret {| success := true; message := "User " +:+ username +:+ " deleted successfully" |})
    (log_and_rethrow "Error deleting user:").

(** *** roleService.js *)

Definition createRole (rolename : string) : M Result :=
  try_catch
    (if String.prefix "pg_" rolename || String.prefix "rds_" rolename then
       ret {| success := false;
              message := "Error: Cannot create role with reserved prefix (pg_ or rds_). These are reserved for system use." |}
     else
       await db_query ("CREATE ROLE " +:+ rolename +:+ " NOLOGIN;") [] ;;
       ret {| success := true; message := "Role " +:+ rolename +:+ " created successfully" |})
    (log_and_rethrow "Error creating role:").

Definition deleteRole (rolename : string) : M Result :=
  try_catch
    (if String.prefix "pg_" rolename || String.prefix "rds_" rolename then
       ret {| success := false;
              message := "Error: Cannot delete system role " +:+ rolename +:+ ". System roles are protected." |}
     else
       await db_query ("DROP ROLE " +:+ rolename +:+ ";") [] ;;
       ret {| success := true; message := "Role " +:+ rolename +:+ " deleted successfully" |})
    (log_and_rethrow "Error deleting role:").

Definition assignUserToRole (username rolename : string) : M Result :=
  try_catch
    (await db_query ("GRANT " +:+ rolename +:+ " TO " +:+ username +:+ ";") [] ;;
     ret {| success := true;
            message := "User " +:+ username +:+ " assigned to role " +:+ rolename +:+ " successfully" |})
    (log_and_rethrow "Error assigning user to role:").

Definition removeUserFromRole (username rolename : string) : M Result :=
  try_catch
    (await db_query ("REVOKE " +:+ rolename +:+ " FROM " +:+ username +:+ ";") [] ;;
     ret {| success := true;
            message := "User " +:+ username +:+ " removed from role " +:+ rolename +:+ " successfully" |})
    (log_and_rethrow "Error removing user from role:").

(** *** permissionService.js *)

Definition grantReadPermissionsMulti (rolename database : string) (schemas : list string)
  : M Result :=
  try_catch
    (await db_query ("GRANT CONNECT ON DATABASE " +:+ database +:+ " TO " +:+ rolename +:+ ";") [] ;;
     let messages : list string := [] in
     let* messages :=
       for_of schemas (λ messages schema,
         await db_query ("GRANT USAGE ON SCHEMA " +:+ schema +:+ " TO " +:+ rolename +:+ ";") [] ;;
         await db_query ("GRANT SELECT ON ALL TABLES IN SCHEMA " +:+ schema +:+ " TO " +:+ rolename +:+ ";") [] ;;
         await db_query ("ALTER DEFAULT PRIVILEGES IN SCHEMA " +:+ schema +:+ " GRANT SELECT ON TABLES TO " +:+ rolename +:+ ";") [] ;;
         ret (messages ++ [schema])) messages in
     ret {| success := true;
            message := "Read permissions granted to " +:+ rolename +:+ " on " +:+ database
                       +:+ " schemas: " +:+ join ", " messages |})
    (log_and_rethrow "Error granting read permissions to multiple schemas:").

Definition grantWritePermissionsMulti (rolename database : string) (schemas : list string)
  : M Result :=
  try_catch
    (await grantReadPermissionsMulti rolename database schemas ;;
     let messages : list string := [] in
     let* messages :=
       for_of schemas (λ messages schema,
         await db_query ("GRANT INSERT, UPDATE, DELETE ON ALL TABLES IN SCHEMA " +:+ schema +:+ " TO " +:+ rolename +:+ ";") [] ;;
         await db_query ("ALTER DEFAULT PRIVILEGES IN SCHEMA " +:+ schema +:+ " GRANT SELECT, INSERT, UPDATE, DELETE ON TABLES TO " +:+ rolename +:+ ";") [] ;;
         await db_query ("GRANT USAGE ON ALL SEQUENCES IN SCHEMA " +:+ schema +:+ " TO " +:+ rolename +:+ ";") [] ;;
         await db_query ("ALTER DEFAULT PRIVILEGES IN SCHEMA " +:+ schema +:+ " GRANT USAGE ON SEQUENCES TO " +:+ rolename +:+ ";") [] ;;
         ret (messages ++ [schema])) messages in
     ret {| success := true;
            message := "Write permissions granted to " +:+ rolename +:+ " on " +:+ database
                       +:+ " schemas: " +:+ join ", " messages |})
    (log_and_rethrow "Error granting write permissions to multiple schemas:").

Definition grantReadPermissions (rolename database schema : string) : M Result :=
  try_catch
    (await db_query ("GRANT CONNECT ON DATABASE " +:+ database +:+ " TO " +:+ rolename +:+ ";") [] ;;
     await db_query ("GRANT USAGE ON SCHEMA " +:+ schema +:+ " TO " +:+ rolename +:+ ";") [] ;;
     await db_query ("GRANT SELECT ON ALL TABLES IN SCHEMA " +:+ schema +:+ " TO " +:+ rolename +:+ ";") [] ;;
     await db_query ("ALTER DEFAULT PRIVILEGES IN SCHEMA " +:+ schema +:+ " GRANT SELECT ON TABLES TO " +:+ rolename +:+ ";") [] ;;
     ret {| success := true;
            message := "Read permissions granted to " +:+ rolename +:+ " on " +:+ database +:+ "." +:+ schema |})
    (log_and_rethrow "Error granting read permissions:").

Definition grantWritePermissions (rolename database schema : string) : M Result :=
  try_catch
    (await grantReadPermissions rolename database schema ;;
     await db_query ("GRANT INSERT, UPDATE, DELETE ON ALL TABLES IN SCHEMA " +:+ schema +:+ " TO " +:+ rolename +:+ ";") [] ;;
     await db_query ("ALTER DEFAULT PRIVILEGES IN SCHEMA " +:+ schema +:+ " GRANT SELECT, INSERT, UPDATE, DELETE ON TABLES TO " +:+ rolename +:+ ";") [] ;;
     await db_query ("GRANT USAGE ON ALL SEQUENCES IN SCHEMA " +:+ schema +:+ " TO " +:+ rolename +:+ ";") [] ;;
     await db_query ("ALTER DEFAULT PRIVILEGES IN SCHEMA " +:+ schema +:+ " GRANT USAGE ON SEQUENCES TO " +:+ rolename +:+ ";") [] ;;
     ret {| success := true;
            message := "Write permissions granted to " +:+ rolename +:+ " on " +:+ database +:+ "." +:+ schema |})
    (log_and_rethrow "Error granting write permissions:").

Definition revokeAllPermissionsMulti (rolename database : string) (schemas : list string)
  : M Result :=
  try_catch
    (let messages : list string := [] in
     let* messages :=
       for_of schemas (λ messages schema,
         await db_query ("REVOKE ALL PRIVILEGES ON ALL TABLES IN SCHEMA " +:+ schema +:+ " FROM " +:+ rolename +:+ ";") [] ;;
         await db_query ("REVOKE ALL PRIVILEGES ON ALL SEQUENCES IN SCHEMA " +:+ schema +:+ " FROM " +:+ rolename +:+ ";") [] ;;
         await db_query ("REVOKE ALL PRIVILEGES ON SCHEMA " +:+ schema +:+ " FROM " +:+ rolename +:+ ";") [] ;;
         await db_query ("ALTER DEFAULT PRIVILEGES IN SCHEMA " +:+ schema +:+ " REVOKE ALL PRIVILEGES ON TABLES FROM " +:+ rolename +:+ ";") [] ;;
         await db_query ("ALTER DEFAULT PRIVILEGES IN SCHEMA " +:+ schema +:+ " REVOKE ALL PRIVILEGES ON SEQUENCES FROM " +:+ rolename +:+ ";") [] ;;
         ret (messages ++ [schema])) messages in
     await db_query ("REVOKE ALL PRIVILEGES ON DATABASE " +:+ database +:+ " FROM " +:+ rolename +:+ ";") [] ;;
     ret {| success := true;
            message := "All permissions revoked from " +:+ rolename +:+ " on " +:+ database
                       +:+ " schemas: " +:+ join ", " messages |})
    (log_and_rethrow "Error revoking permissions from multiple schemas:").

Definition revokeAllPermissions (rolename database schema : string) : M Result :=
  try_catch
    (await db_query ("REVOKE ALL PRIVILEGES ON ALL TABLES IN SCHEMA " +:+ schema +:+ " FROM " +:+ rolename +:+ ";") [] ;;
     await db_query ("REVOKE ALL PRIVILEGES ON ALL SEQUENCES IN SCHEMA " +:+ schema +:+ " FROM " +:+ rolename +:+ ";") [] ;;
     await db_query ("REVOKE ALL PRIVILEGES ON SCHEMA " +:+ schema +:+ " FROM " +:+ rolename +:+ ";") [] ;;
     await db_query ("REVOKE ALL PRIVILEGES ON DATABASE " +:+ database +:+ " FROM " +:+ rolename +:+ ";") [] ;;
     await db_query ("ALTER DEFAULT PRIVILEGES IN SCHEMA " +:+ schema +:+ " REVOKE ALL PRIVILEGES ON TABLES FROM " +:+ rolename +:+ ";") [] ;;
     await db_query ("ALTER DEFAULT PRIVILEGES IN SCHEMA " +:+ schema +:+ " REVOKE ALL PRIVILEGES ON SEQUENCES FROM " +:+ rolename +:+ ";") [] ;;
     ret {| success := true;
            message := "All permissions revoked from " +:+ rolename +:+ " on " +:+ database +:+ "." +:+ schema |})
    (log_and_rethrow "Error revoking permissions:").

(** The report object [permissions] of [listPermissions]. *)
Record Permissions : Type := {
  roleDetails : Row;
  tablePermissions : list Row;
  schemaPermissions : list Row;
  databasePermissions : list Row;
  columnPermissions : list Row;
  functionPermissions : list Row;
  defaultPrivileges : list Row;
  memberOf : list Row;
  description : Val
}.

Definition roleInfoSql : string :=
  unlines
    [ EmptyString;
      "      SELECT ";
      "        rolname,";
      "        rolsuper,";
      "        rolinherit,";
      "        rolcreaterole,";
      "        rolcreatedb,";
      "        rolcanlogin,";
      "        rolreplication,";
      "        rolconnlimit,";
      "        rolvaliduntil";
      "      FROM pg_roles";
      "      WHERE rolname = $1;";
      "    " ].

Definition tablePermsSql : string :=
  unlines
    [ EmptyString;
      "      SELECT table_catalog, table_schema, table_name, privilege_type";
      "      FROM information_schema.table_privileges";
      "      WHERE grantee = $1";
      "      ORDER BY table_schema, table_name, privilege_type;";
      "    " ].

Definition memberOfSql : string :=
  unlines
    [ EmptyString;
      "      SELECT r.rolname AS parent_role";
      "      FROM pg_roles m";
      "      JOIN pg_auth_members ON pg_auth_members.member = m.oid";
      "      JOIN pg_roles r ON pg_auth_members.roleid = r.oid";
      "      WHERE m.rolname = $1;";
      "    " ].

Definition columnPermsSql : string :=
  unlines
    [ EmptyString;
      "      SELECT table_catalog, table_schema, table_name, column_name, privilege_type";
      "      FROM information_schema.column_privileges";
      "      WHERE grantee = $1";
      "      ORDER BY table_schema, table_name, column_name, privilege_type;";
      "    " ].

Definition schemaPermsSql : string :=
  unlines
    [ EmptyString;
      "      SELECT ";
      "        n.nspname AS schema_name,";
      "        CASE";
      "          WHEN has_schema_privilege($1, n.oid, 'CREATE') THEN 'CREATE'";
      "          ELSE NULL";
      "        END AS create_privilege,";
      "        CASE";
      "          WHEN has_schema_privilege($1, n.oid, 'USAGE') THEN 'USAGE'";
      "          ELSE NULL";
      "        END AS usage_privilege";
      "      FROM pg_namespace n";
      "      WHERE n.nspname NOT IN ('pg_catalog', 'information_schema')";
      "        AND (has_schema_privilege($1, n.oid, 'CREATE') OR has_schema_privilege($1, n.oid, 'USAGE'))";
      "      ORDER BY n.nspname;";
      "    " ].

Definition dbPermsSql : string :=
  unlines
    [ EmptyString;
      "      SELECT ";
      "        datname AS database_name,";
      "        CASE";
      "          WHEN has_database_privilege($1, oid, 'CONNECT') THEN 'CONNECT'";
      "          ELSE NULL";
      "        END AS connect_privilege,";
      "        CASE";
      "          WHEN has_database_privilege($1, oid, 'CREATE') THEN 'CREATE'";
      "          ELSE NULL";
      "        END AS create_privilege,";
      "        CASE";
      "          WHEN has_database_privilege($1, oid, 'TEMP') THEN 'TEMP'";
      "          ELSE NULL";
      "        END AS temp_privilege";
      "      FROM pg_database";
      "      WHERE (has_database_privilege($1, oid, 'CONNECT') OR ";
      "             has_database_privilege($1, oid, 'CREATE') OR";
      "             has_database_privilege($1, oid, 'TEMP'))";
      "      ORDER BY datname;";
      "    " ].

(** [permissions.field = rows;] for the fields the function assigns. *)
Definition set_tablePermissions (rows : list Row) (p : Permissions) : Permissions :=
  {| roleDetails := roleDetails p; tablePermissions := rows;
     schemaPermissions := schemaPermissions p; databasePermissions := databasePermissions p;
     columnPermissions := columnPermissions p; functionPermissions := functionPermissions p;
     defaultPrivileges := defaultPrivileges p; memberOf := memberOf p;
     description := description p |}.

Definition set_memberOf (rows : list Row) (p : Permissions) : Permissions :=
  {| roleDetails := roleDetails p; tablePermissions := tablePermissions p;
     schemaPermissions := schemaPermissions p; databasePermissions := databasePermissions p;
     columnPermissions := columnPermissions p; functionPermissions := functionPermissions p;
     defaultPrivileges := defaultPrivileges p; memberOf := rows;
     description := description p |}.

Definition set_columnPermissions (rows : list Row) (p : Permissions) : Permissions :=
  {| roleDetails := roleDetails p; tablePermissions := tablePermissions p;
     schemaPermissions := schemaPermissions p; databasePermissions := databasePermissions p;
     columnPermissions := rows; functionPermissions := functionPermissions p;
     defaultPrivileges := defaultPrivileges p; memberOf := memberOf p;
     description := description p |}.

Definition set_schemaPermissions (rows : list Row) (p : Permissions) : Permissions :=
  {| roleDetails := roleDetails p; tablePermissions := tablePermissions p;
     schemaPermissions := rows; databasePermissions := databasePermissions p;
     columnPermissions := columnPermissions p; functionPermissions := functionPermissions p;
     defaultPrivileges := defaultPrivileges p; memberOf := memberOf p;
     description := description p |}.

Definition set_databasePermissions (rows : list Row) (p : Permissions) : Permissions :=
  {| roleDetails := roleDetails p; tablePermissions := tablePermissions p;
     schemaPermissions := schemaPermissions p; databasePermissions := rows;
     columnPermissions := columnPermissions p; functionPermissions := functionPermissions p;
     defaultPrivileges := defaultPrivileges p; memberOf := memberOf p;
     description := description p |}.

(** [listPermissions]: six catalog queries, one after the other, each
    filling one field of the report.  The function-privilege query of
    the source is commented out, so it is not here either. *)
Definition listPermissions (rolename : string) : M Permissions :=
  try_catch
    (let* roleInfo := db_query roleInfoSql [VStr rolename] in
     let permissions :=
       {| roleDetails := match roleInfo with r :: _ => r | [] => ∅ end;
          tablePermissions := [];
          schemaPermissions := [];
          databasePermissions := [];
          columnPermissions := [];
          functionPermissions := [];
          defaultPrivileges := [];
          memberOf := [];
          description := VNull |} in
     let* tablePerms := db_query tablePermsSql [VStr rolename] in
     let permissions := set_tablePermissions tablePerms permissions in
     let* memberOf := db_query memberOfSql [VStr rolename] in
     let permissions := set_memberOf memberOf permissions in
     let* columnPerms := db_query columnPermsSql [VStr rolename] in
     let permissions := set_columnPermissions columnPerms permissions in
     let* schemaPerms := db_query schemaPermsSql [VStr rolename] in
     let permissions := set_schemaPermissions schemaPerms permissions in
     let* dbPerms := db_query dbPermsSql [VStr rolename] in
     let permissions := set_databasePermissions dbPerms permissions in
     ret permissions)
    (log_and_rethrow "Error listing detailed permissions:").

End Services.

(** The lines the [list-permissions] command prints for [--help]
    (commands/permissionCommands.js). *)
Definition listPermissionsHelp : list string :=
  [ nl +:+ "Displays detailed information about permissions granted to a role:";
    "  - Basic role attributes";
    "  - Table permissions (SELECT, INSERT, UPDATE, DELETE, etc.)";
    "  - Column-level permissions";
    "  - Schema permissions (USAGE, CREATE)";
    "  - Database permissions (CONNECT, CREATE, TEMP)";
    "  - Function permissions (for system roles)";
    "  - Role memberships";
    "  - Special notes for system roles";
    nl +:+ "You will be prompted to:";
    "  - Select a role from a list of existing roles";
    nl +:+ "Example:";
    "  $ pg-user-manager list-permissions" ].

(** ** utils/displayUtils.js: the values behind the report display *)

(** What [displayQuickSummary] computes before it prints: the three
    flags of the summary row and the two statistics. *)
Record Summary : Type := {
  hasReadPermissions : bool;
  hasWritePermissions : bool;
  hasAdminPermissions : Val;
  totalTables : nat;
  totalColumns : nat
}.

(** [displayQuickSummary(permissions)].  The report always has its
    array fields and its [roleDetails] object, which are truthy, so each
    [x && e] is [e].  Printing is left out; the computed values are
    returned. *)
Definition displayQuickSummary (permissions : Permissions) : Summary :=
  {| hasReadPermissions :=
       existsb (λ p, bool_decide (prop p "privilege_type" = VStr "SELECT"))
               (tablePermissions permissions);
     hasWritePermissions :=
       existsb (λ p, bool_decide
                       (prop p "privilege_type" ∈ [VStr "INSERT"; VStr "UPDATE"; VStr "DELETE"]))
               (tablePermissions permissions);
     hasAdminPermissions :=
       js_or (js_or (prop (roleDetails permissions) "rolsuper")
                    (prop (roleDetails permissions) "rolcreatedb"))
             (prop (roleDetails permissions) "rolcreaterole");
     totalTables :=
       size (list_to_set
               (map (λ p, toStr (prop p "table_schema") +:+ "." +:+ toStr (prop p "table_name"))
                    (tablePermissions permissions)) : gset string);
     totalColumns :=
       size (list_to_set
               (map (λ p, toStr (prop p "table_schema") +:+ "." +:+ toStr (prop p "table_name")
                          +:+ "." +:+ toStr (prop p "column_name"))
                    (columnPermissions permissions)) : gset string) |}.

(** The property names an object literal [{}] inherits from
    [Object.prototype]; reading one of them gives a truthy value. *)
Definition objectPrototype : list string :=
  [ "constructor"; "hasOwnProperty"; "isPrototypeOf"; "propertyIsEnumerable";
    "toLocaleString"; "toString"; "valueOf"; "__defineGetter__"; "__defineSetter__";
    "__lookupGetter__"; "__lookupSetter__"; "__proto__" ].

(** What [obj[key]] finds in an object literal used as a map. *)
Inductive Slot (A : Type) : Type :=
  | Own (a : A)
  | Inherited
  | Absent.
Arguments Own {A} a.
Arguments Inherited {A}.
Arguments Absent {A}.

Definition slot {A} (obj : gmap string A) (key : string) : Slot A :=
  match obj !! key with
  | Some a => Own a
  | None => if bool_decide (key ∈ objectPrototype) then Inherited else Absent
  end.

(** Calling [.push] on something that is not an array. *)
Definition notAFunction : Error := {| err_message := "push is not a function" |}.

(** [rows.forEach(step)] where [step] updates one object and may throw. *)
Fixpoint forEach {A S} (rows : list A) (step : S → A → outcome S) (acc : S) : outcome S :=
  match rows with
  | [] => Ok acc
  | r :: rest =>
      match step acc r with
      | Ok acc' => forEach rest step acc'
      | Throw e => Throw e
      end
  end.

(** The grouping loop of [displayTablePermissions]:
    [if (!byTable[key]) byTable[key] = []; byTable[key].push(privilege)]. *)
Definition tablePermsByTable (tablePermissions : list Row) : outcome (gmap string (list Val)) :=
  forEach tablePermissions
    (λ tablePermsByTable perm,
       let tableKey := toStr (prop perm "table_schema") +:+ "." +:+ toStr (prop perm "table_name") in
       let tablePermsByTable :=
         match slot tablePermsByTable tableKey with
         | Absent => <[tableKey := []]> tablePermsByTable
         | _ => tablePermsByTable
         end in
       match slot tablePermsByTable tableKey with
       | Own privileges =>
           Ok (<[tableKey := privileges ++ [prop perm "privilege_type"]]> tablePermsByTable)
       | _ => Throw notAFunction
       end)
    ∅.

(** The grouping loop of [displayColumnPermissions]: by table key, then
    by column name.  A table key holds a dot and no inherited property
    name does, so the first lookup never finds an inherited property;
    the case is closed with the same error as the others. *)
Definition permsByTable (columnPermissions : list Row)
  : outcome (gmap string (gmap string (list Val))) :=
  forEach columnPermissions
    (λ permsByTable perm,
       let tableKey := toStr (prop perm "table_schema") +:+ "." +:+ toStr (prop perm "table_name") in
       let permsByTable :=
         match slot permsByTable tableKey with
         | Absent => <[tableKey := ∅]> permsByTable
         | _ => permsByTable
         end in
       let columnName := toStr (prop perm "column_name") in
       match slot permsByTable tableKey with
       | Own columns =>
           let columns :=
             match slot columns columnName with
             | Absent => <[columnName := []]> columns
             | _ => columns
             end in
           match slot columns columnName with
           | Own privileges =>
               Ok (<[tableKey := <[columnName := privileges ++ [prop perm "privilege_type"]]> columns]>
                     permsByTable)
           | _ => Throw notAFunction
           end
       | _ => Throw notAFunction
       end)
    ∅.

(** ** utils/passwordUtils.js *)

Definition lowercase : string := "abcdefghijklmnopqrstuvwxyz".
Definition uppercase : string := "ABCDEFGHIJKLMNOPQRSTUVWXYZ".
Definition numbers : string := "0123456789".
Definition special : string := "!@#$%^&*()_+-=[]{}|;:,.<>?".

(** [s.charAt(i)]: the character as a string, empty out of range. *)
Definition charAt (s : string) (i : nat) : string :=
  match String.get i s with
  | Some c => String c EmptyString
  | None => EmptyString
  end.

(** [[a[i], a[j]] = [a[j], a[i]]].  The shuffle only swaps inside the
    array ([j <= i < a.length]); outside it the array is left alone. *)
Definition swap (a : list ascii) (i j : nat) : list ascii :=
  match a !! j, a !! i with
  | Some aj, Some ai => <[j := ai]> (<[i := aj]> a)
  | _, _ => a
  end.

Section PasswordUtils.

(** The successive results of [Math.random()]; the [k]-th call gives
    [random k], a number of the interval [0, 1). *)
Variable random : nat → Q.

(** [Math.floor(Math.random() * n)] at call number [k]. *)
Definition randomIndex (k n : nat) : nat :=
  Z.to_nat (Qfloor (random k * inject_Z (Z.of_nat n))).

(** [for (let i = 0; i < remainingLength; i++) password += chars.charAt(...)] *)
Fixpoint fill (chars : string) (remaining : nat) (password : string) (k : nat)
  : string * nat :=
  match remaining with
  | O => (password, k)
  | S remaining' =>
      fill chars remaining'
           (password +:+ charAt chars (randomIndex k (String.length chars))) (S k)
  end.

(** [for (let i = n - 1; i > 0; i--) { j = floor(random() * (i + 1)); swap }] *)
Fixpoint shuffle (i : nat) (passwordArray : list ascii) (k : nat) : list ascii * nat :=
  match i with
  | O => (passwordArray, k)
  | S i' =>
      let j := randomIndex k (i + 1) in
      shuffle i' (swap passwordArray i j) (S k)
  end.

(** [generateSecurePassword(length, includeSpecial, includeNumbers,
    includeUppercase)], started when [k] random numbers have been
    drawn; it also returns how many have been drawn at the end.  The
    requested length is an integer. *)
Definition generateSecurePassword
    (length : Z) (includeSpecial includeNumbers includeUppercase : bool) (k : nat)
  : string * nat :=
  let chars := lowercase in
  let chars := if includeUppercase then chars +:+ uppercase else chars in
  let chars := if includeNumbers then chars +:+ numbers else chars in
  let chars := if includeSpecial then chars +:+ special else chars in
  let password := EmptyString in
  let '(password, k) :=
    if includeUppercase
    then (password +:+ charAt uppercase (randomIndex k (String.length uppercase)), S k)
    else (password, k) in
  let '(password, k) :=
    if includeNumbers
    then (password +:+ charAt numbers (randomIndex k (String.length numbers)), S k)
    else (password, k) in
  let '(password, k) :=
    if includeSpecial
    then (password +:+ charAt special (randomIndex k (String.length special)), S k)
    else (password, k) in
  let remainingLength := (length - Z.of_nat (String.length password))%Z in
  let '(password, k) := fill chars (Z.to_nat remainingLength) password k in
  let passwordArray := String.list_ascii_of_string password in
  let '(passwordArray, k) := shuffle (List.length passwordArray - 1) passwordArray k in
  (String.string_of_list_ascii passwordArray, k).

End PasswordUtils.

(** Character classes of a generated password. *)
Definition isUppercase (c : ascii) : bool :=
  (65 <=? nat_of_ascii c)%nat && (nat_of_ascii c <=? 90)%nat.
Definition isDigit (c : ascii) : bool :=
  (48 <=? nat_of_ascii c)%nat && (nat_of_ascii c <=? 57)%nat.
Definition isSpecial (c : ascii) : bool :=
  bool_decide (c ∈ String.list_ascii_of_string special).

(** ** The database behind the catalog readers

    [listUsers], [listRoles] and [listSchemas] hand a SELECT over a
    catalog table to PostgreSQL and return the rows, so what they
    return is decided by the server.  [Pg] is the server's side.  It
    knows nothing of the services: it reads the text of the statement
    it is sent (the select list with its aliases, the table, the
    conditions of the WHERE clause, the ORDER BY) and answers from the
    catalog. *)
Module Pg.

(** A role of [pg_roles], with the columns the statements read. *)
Record Role : Type := {
  rolname : string;
  rolsuper : bool;
  rolcreaterole : bool;
  rolcanlogin : bool
}.

(** The state of the database: the role catalog, and the names of the
    schemas in [pg_namespace]. *)
Record Database : Type := {
  pg_roles : list Role;
  pg_namespace : list string
}.

(** A table: the names of its columns, and its tuples as objects from
    column name to value. *)
Record Table : Type := { columns : list string; tuples : list Row }.

Definition roleTuple (r : Role) : Row :=
  {[ "rolname" := VStr (rolname r);
     "rolsuper" := VBool (rolsuper r);
     "rolcreaterole" := VBool (rolcreaterole r);
     "rolcanlogin" := VBool (rolcanlogin r) ]}.

Definition namespaceTuple (nspname : string) : Row := {[ "nspname" := VStr nspname ]}.

Definition relation (db : Database) (name : string) : option Table :=
  if String.eqb name "pg_roles" then
    Some {| columns := ["rolname"; "rolsuper"; "rolcreaterole"; "rolcanlogin"];
            tuples := map roleTuple (pg_roles db) |}
  else if String.eqb name "pg_namespace" then
    Some {| columns := ["nspname"]; tuples := map namespaceTuple (pg_namespace db) |}
  else None.

(** [s LIKE pattern]: [%] stands for any run of characters, [_] for
    any one character, and a backslash makes the next pattern
    character literal.  (A pattern that ends in a lone backslash is an
    error in PostgreSQL; it matches nothing here.) *)
Fixpoint like (pattern s : list ascii) {struct pattern} : bool :=
  match pattern with
  | [] => match s with [] => true | _ :: _ => false end
  | c :: pattern' =>
      if Ascii.eqb c "%" then
        (fix any (s : list ascii) : bool :=
           like pattern' s || match s with [] => false | _ :: s' => any s' end) s
      else if Ascii.eqb c "_" then
        match s with [] => false | _ :: s' => like pattern' s' end
      else if Ascii.eqb c "\" then
        match pattern' with
        | [] => false
        | e :: pattern'' =>
            match s with [] => false | x :: s' => Ascii.eqb x e && like pattern'' s' end
        end
      else
        match s with [] => false | x :: s' => Ascii.eqb x c && like pattern' s' end
  end.

(** *** Reading the statement *)

Inductive Token : Type :=
  | Word (w : string)
  | Literal (s : string)
  | Comma
  | Equals
  | Differs
  | Semicolon.

Definition isSpace (c : ascii) : bool :=
  let n := nat_of_ascii c in
  (n =? 32)%nat || (n =? 9)%nat || (n =? 10)%nat || (n =? 13)%nat.

(** The characters of a keyword or of a name. *)
Definition isWordChar (c : ascii) : bool :=
  let n := nat_of_ascii c in
  ((97 <=? n)%nat && (n <=? 122)%nat) || ((65 <=? n)%nat && (n <=? 90)%nat)
  || ((48 <=? n)%nat && (n <=? 57)%nat) || Ascii.eqb c "_" || Ascii.eqb c "$"
  || Ascii.eqb c ".".

(** Where the reader is: between tokens, inside a word, inside a
    quoted literal, just after a quote that either ends the literal or
    is the first of a doubled quote, or after an exclamation mark.
    The characters read so far are kept last first. *)
Inductive Lexing : Type :=
  | Between
  | InWord (read : list ascii)
  | InLiteral (read : list ascii)
  | AfterQuote (read : list ascii)
  | AfterBang.

Definition spell (read : list ascii) : string := String.string_of_list_ascii (rev read).

(** The token that ends where the statement ends. *)
Definition flush (state : Lexing) (rest : option (list Token)) : option (list Token) :=
  match state with
  | Between => rest
  | InWord read => cons (Word (spell read)) <$> rest
  | AfterQuote read => cons (Literal (spell read)) <$> rest
  | InLiteral _ | AfterBang => None
  end.

Fixpoint lex (state : Lexing) (s : list ascii) : option (list Token) :=
  match s with
  | [] => flush state (Some [])
  | c :: s' =>
      let start := λ _ : unit,
        if isSpace c then lex Between s'
        else if isWordChar c then lex (InWord [c]) s'
        else if Ascii.eqb c "'" then lex (InLiteral []) s'
        else if Ascii.eqb c "," then cons Comma <$> lex Between s'
        else if Ascii.eqb c "=" then cons Equals <$> lex Between s'
        else if Ascii.eqb c ";" then cons Semicolon <$> lex Between s'
        else if Ascii.eqb c "!" then lex AfterBang s'
        else None in
      match state with
      | Between => start tt
      | InWord read =>
          if isWordChar c then lex (InWord (c :: read)) s'
          else flush state (start tt)
      | InLiteral read =>
          if Ascii.eqb c "'" then lex (AfterQuote read) s'
          else lex (InLiteral (c :: read)) s'
      | AfterQuote read =>
          if Ascii.eqb c "'" then lex (InLiteral (c :: read)) s'
          else flush state (start tt)
      | AfterBang =>
          if Ascii.eqb c "=" then cons Differs <$> lex Between s' else None
      end
  end.

Definition upcaseChar (c : ascii) : ascii :=
  let n := nat_of_ascii c in
  if (97 <=? n)%nat && (n <=? 122)%nat then ascii_of_nat (n - 32) else c.

Definition downcaseChar (c : ascii) : ascii :=
  let n := nat_of_ascii c in
  if (65 <=? n)%nat && (n <=? 90)%nat then ascii_of_nat (n + 32) else c.

Fixpoint mapChars (f : ascii → ascii) (s : string) : string :=
  match s with
  | EmptyString => EmptyString
  | String c s' => String (f c) (mapChars f s')
  end.

(** Keywords are read in either case. *)
Definition keyword (k : string) (t : Token) : bool :=
  match t with
  | Word w => String.eqb (mapChars upcaseChar w) k
  | _ => false
  end.

(** A name that is not quoted is folded to lower case. *)
Definition name (w : string) : string := mapChars downcaseChar w.

(** [column = value] and [column != value] on a boolean or a text,
    and [column LIKE pattern], [column NOT LIKE pattern]. *)
Inductive Condition : Type :=
  | Compare (column : string) (negated : bool) (value : Val)
  | Matches (column : string) (negated : bool) (pattern : string).

(** [SELECT column as alias, ... FROM table WHERE condition AND ...
    ORDER BY column] *)
Record Select : Type := {
  select_list : list (string * string);
  from : string;
  where_clause : list Condition;
  order_by : option (string * bool)
}.

(** The tokens before the first one that [stop] holds of, and the
    tokens from that one on. *)
Fixpoint until (stop : Token → bool) (toks : list Token) : list Token * list Token :=
  match toks with
  | [] => ([], [])
  | t :: toks' =>
      if stop t then ([], toks)
      else let '(before, rest) := until stop toks' in (t :: before, rest)
  end.

(** The runs of tokens between separators. *)
Fixpoint splitOn (separator : Token → bool) (toks : list Token) : list (list Token) :=
  match toks with
  | [] => [[]]
  | t :: toks' =>
      if separator t then [] :: splitOn separator toks'
      else match splitOn separator toks' with
           | run :: runs => (t :: run) :: runs
           | [] => [[t]]
           end
  end.

Definition isComma (t : Token) : bool := match t with Comma => true | _ => false end.
Definition isSemicolon (t : Token) : bool := match t with Semicolon => true | _ => false end.

(** One entry of the select list: the column and the name it is given. *)
Definition item (toks : list Token) : option (string * string) :=
  match toks with
  | [Word column] => Some (name column, name column)
  | [Word column; Word alias] => Some (name column, name alias)
  | [Word column; as_; Word alias] =>
      if keyword "AS" as_ then Some (name column, name alias) else None
  | _ => None
  end.

Definition boolean (w : string) : option Val :=
  if String.eqb (mapChars upcaseChar w) "TRUE" then Some (VBool true)
  else if String.eqb (mapChars upcaseChar w) "FALSE" then Some (VBool false)
  else None.

Definition condition (toks : list Token) : option Condition :=
  match toks with
  | [Word column; Equals; Word w] => Compare (name column) false <$> boolean w
  | [Word column; Differs; Word w] => Compare (name column) true <$> boolean w
  | [Word column; Equals; Literal s] => Some (Compare (name column) false (VStr s))
  | [Word column; Differs; Literal s] => Some (Compare (name column) true (VStr s))
  | [Word column; like_; Literal pattern] =>
      if keyword "LIKE" like_ then Some (Matches (name column) false pattern) else None
  | [Word column; not_; like_; Literal pattern] =>
      if keyword "NOT" not_ && keyword "LIKE" like_
      then Some (Matches (name column) true pattern)
      else None
  | _ => None
  end.

(** [ORDER BY column], [ORDER BY column ASC], [ORDER BY column DESC];
    the flag says descending. *)
Definition ordering (toks : list Token) : option (option (string * bool)) :=
  match toks with
  | [] => Some None
  | [order; by_; Word column] =>
      if keyword "ORDER" order && keyword "BY" by_
      then Some (Some (name column, false)) else None
  | [order; by_; Word column; direction] =>
      if keyword "ORDER" order && keyword "BY" by_ then
        if keyword "ASC" direction then Some (Some (name column, false))
        else if keyword "DESC" direction then Some (Some (name column, true))
        else None
      else None
  | _ => None
  end.

Definition parse (toks : list Token) : option Select :=
  match toks with
  | select :: toks =>
      if keyword "SELECT" select then
        let '(selectList, toks) := until (keyword "FROM") toks in
        match toks with
        | _ :: Word table :: toks =>
            let '(conditions, toks) :=
              match toks with
              | where_ :: toks' =>
                  if keyword "WHERE" where_ then
                    let '(conditions, rest) :=
                      until (λ t, keyword "ORDER" t || isSemicolon t) toks' in
                    (splitOn (keyword "AND") conditions, rest)
                  else ([], toks)
              | [] => ([], [])
              end in
            let '(order, toks) := until isSemicolon toks in
            match toks with
            | [] | [Semicolon] =>
                items ← mapM item (splitOn isComma selectList);
                conditions ← mapM condition conditions;
                order ← ordering order;
                Some {| select_list := items; from := name table;
                        where_clause := conditions; order_by := order |}
            | _ => None
            end
        | _ => None
        end
      else None
  | [] => None
  end.

(** *** Answering it *)

Definition holds (c : Condition) (tuple : Row) : bool :=
  match c with
  | Compare column negated value =>
      xorb negated (bool_decide (prop tuple column = value))
  | Matches column negated pattern =>
      xorb negated (like (String.list_ascii_of_string pattern)
                         (String.list_ascii_of_string (toStr (prop tuple column))))
  end.

(** The row object of a tuple: each entry of the select list under its
    name, a later entry taking the place of an earlier one of the same
    name. *)
Definition project (items : list (string * string)) (tuple : Row) : Row :=
  foldl (λ row '(column, alias), <[alias := prop tuple column]> row) ∅ items.

(** The order of [ORDER BY column]: the values compared as texts, byte
    by byte (the [name] type compares bytes). *)
Definition inOrder (column : string) (descending : bool) (a b : Row) : Prop :=
  if descending
  then String.le (toStr (prop b column)) (toStr (prop a column))
  else String.le (toStr (prop a column)) (toStr (prop b column)).

Global Instance inOrder_dec column descending a b : Decision (inOrder column descending a b).
Proof. unfold inOrder. destruct descending; apply _. Defined.

(** The columns a statement names. *)
Definition mentioned (s : Select) : list string :=
  map fst (select_list s)
  ++ map (λ c, match c with Compare column _ _ | Matches column _ _ => column end)
         (where_clause s)
  ++ match order_by s with Some (column, _) => [column] | None => [] end.

Definition syntaxError : Error := {| err_message := "syntax error" |}.
Definition undefinedTable : Error := {| err_message := "relation does not exist" |}.
Definition undefinedColumn : Error := {| err_message := "column does not exist" |}.

Definition run (db : Database) (s : Select) : outcome (list Row) :=
  match relation db (from s) with
  | None => Throw undefinedTable
  | Some table =>
      if forallb (λ column, bool_decide (column ∈ columns table)) (mentioned s) then
        let kept := List.filter (λ tuple, forallb (λ c, holds c tuple) (where_clause s))
                                (tuples table) in
        let sorted :=
          match order_by s with
          | Some (column, descending) => merge_sort (inOrder column descending) kept
          | None => kept
          end in
        Ok (map (project (select_list s)) sorted)
      else Throw undefinedColumn
  end.

(** The statement as read from its text. *)
Definition read (sql : string) : option Select :=
  lex Between (String.list_ascii_of_string sql) ≫= parse.

(** The server's answer to a statement, over a given database. *)
Definition driver (db : Database) : Driver :=
  λ _ q,
    match read (text q) with
    | Some s => run db s
    | None => Throw syntaxError
    end.

(** *** The rows of the readers *)

(** A role as a row of [listUsers]. *)
Definition userRow (r : Role) : Row :=
  {[ "username" := VStr (rolname r);
     "is_superuser" := VBool (rolsuper r);
     "can_create_role" := VBool (rolcreaterole r);
     "can_login" := VBool (rolcanlogin r) ]}.

(** A role as a row of [listRoles]. *)
Definition roleRow (r : Role) : Row :=
  {[ "rolename" := VStr (rolname r);
     "is_superuser" := VBool (rolsuper r);
     "can_create_role" := VBool (rolcreaterole r);
     "can_login" := VBool (rolcanlogin r) ]}.

Definition byName (a b : Role) : Prop := String.le (rolname a) (rolname b).

Global Instance byName_dec a b : Decision (byName a b).
Proof. unfold byName. apply _. Defined.

End Pg.

(** * Vocabulary of the properties *)

(** A statement sent without values. *)
Definition stmt (text : string) : Query := {| text := text; values := [] |}.

(** The statements a computation sends when it starts in world [w]. *)
Definition sent {A} (m : M A) (w : World) : list Query :=
  drop (length (issued w)) (issued (m w).1).

(** A database that accepts every statement. *)
Definition accepts_all (driver : Driver) : Prop :=
  ∀ log q, ∃ rows, driver log q = Ok rows.

(** Sending the statements of [plan] in order from the log [log], up to
    and including the first one the driver rejects: the log at the end,
    and the error if there was one. *)
Fixpoint run_plan (driver : Driver) (plan log : list Query) : list Query * option Error :=
  match plan with
  | [] => (log, None)
  | q :: rest =>
      match driver log q with
      | Ok _ => run_plan driver rest (log ++ [q])
      | Throw e => (log ++ [q], Some e)
      end
  end.

(** [m] sends the statements of [plan], stops at the first rejection
    with the driver's error, and otherwise returns [v]. *)
Definition behaves {A} (driver : Driver) (m : M A) (plan : list Query) (v : A) : Prop :=
  ∀ w, issued (m w).1 = (run_plan driver plan (issued w)).1
       ∧ (m w).2 = match (run_plan driver plan (issued w)).2 with
                   | None => Ok v
                   | Some e => Throw e
                   end.

(** The statements of the grant/revoke engine, by phase. *)
Definition connectStatement (rolename database : string) : Query :=
  stmt ("GRANT CONNECT ON DATABASE " +:+ database +:+ " TO " +:+ rolename +:+ ";").

Definition schemaReadStatements (rolename schema : string) : list Query :=
  [ stmt ("GRANT USAGE ON SCHEMA " +:+ schema +:+ " TO " +:+ rolename +:+ ";");
    stmt ("GRANT SELECT ON ALL TABLES IN SCHEMA " +:+ schema +:+ " TO " +:+ rolename +:+ ";");
    stmt ("ALTER DEFAULT PRIVILEGES IN SCHEMA " +:+ schema +:+ " GRANT SELECT ON TABLES TO " +:+ rolename +:+ ";") ].

Definition schemaWriteStatements (rolename schema : string) : list Query :=
  [ stmt ("GRANT INSERT, UPDATE, DELETE ON ALL TABLES IN SCHEMA " +:+ schema +:+ " TO " +:+ rolename +:+ ";");
    stmt ("ALTER DEFAULT PRIVILEGES IN SCHEMA " +:+ schema +:+ " GRANT SELECT, INSERT, UPDATE, DELETE ON TABLES TO " +:+ rolename +:+ ";");
    stmt ("GRANT USAGE ON ALL SEQUENCES IN SCHEMA " +:+ schema +:+ " TO " +:+ rolename +:+ ";");
    stmt ("ALTER DEFAULT PRIVILEGES IN SCHEMA " +:+ schema +:+ " GRANT USAGE ON SEQUENCES TO " +:+ rolename +:+ ";") ].

Definition revokeDatabaseStatement (rolename database : string) : Query :=
  stmt ("REVOKE ALL PRIVILEGES ON DATABASE " +:+ database +:+ " FROM " +:+ rolename +:+ ";").

Definition schemaRevokeObjects (rolename schema : string) : list Query :=
  [ stmt ("REVOKE ALL PRIVILEGES ON ALL TABLES IN SCHEMA " +:+ schema +:+ " FROM " +:+ rolename +:+ ";");
    stmt ("REVOKE ALL PRIVILEGES ON ALL SEQUENCES IN SCHEMA " +:+ schema +:+ " FROM " +:+ rolename +:+ ";");
    stmt ("REVOKE ALL PRIVILEGES ON SCHEMA " +:+ schema +:+ " FROM " +:+ rolename +:+ ";") ].

Definition schemaRevokeDefaults (rolename schema : string) : list Query :=
  [ stmt ("ALTER DEFAULT PRIVILEGES IN SCHEMA " +:+ schema +:+ " REVOKE ALL PRIVILEGES ON TABLES FROM " +:+ rolename +:+ ";");
    stmt ("ALTER DEFAULT PRIVILEGES IN SCHEMA " +:+ schema +:+ " REVOKE ALL PRIVILEGES ON SEQUENCES FROM " +:+ rolename +:+ ";") ].

(** The read phase and the write phase of a multi-schema grant. *)
Definition readPhase (rolename database : string) (schemas : list string) : list Query :=
  connectStatement rolename database :: concat (map (schemaReadStatements rolename) schemas).

Definition writePhase (rolename : string) (schemas : list string) : list Query :=
  concat (map (schemaWriteStatements rolename) schemas).

(** The mutating operations of the three services, as one type. *)
Inductive Operation : Type :=
  | CreateUser (username password : string)
  | UpdateUserPassword (username newPassword : string)
  | DeleteUser (username : string)
  | CreateRole (rolename : string)
  | DeleteRole (rolename : string)
  | AssignUserToRole (username rolename : string)
  | RemoveUserFromRole (username rolename : string)
  | GrantRead (rolename database schema : string)
  | GrantWrite (rolename database schema : string)
  | RevokeAll (rolename database schema : string)
  | GrantReadMulti (rolename database : string) (schemas : list string)
  | GrantWriteMulti (rolename database : string) (schemas : list string)
  | RevokeAllMulti (rolename database : string) (schemas : list string).

Definition perform (driver : Driver) (op : Operation) : M Result :=
  match op with
  | CreateUser username password => createUser driver username password
  | UpdateUserPassword username newPassword => updateUserPassword driver username newPassword
  | DeleteUser username => deleteUser driver username
  | CreateRole rolename => createRole driver rolename
  | DeleteRole rolename => deleteRole driver rolename
  | AssignUserToRole username rolename => assignUserToRole driver username rolename
  | RemoveUserFromRole username rolename => removeUserFromRole driver username rolename
  | GrantRead rolename database schema => grantReadPermissions driver rolename database schema
  | GrantWrite rolename database schema => grantWritePermissions driver rolename database schema
  | RevokeAll rolename database schema => revokeAllPermissions driver rolename database schema
  | GrantReadMulti rolename database schemas =>
      grantReadPermissionsMulti driver rolename database schemas
  | GrantWriteMulti rolename database schemas =>
      grantWritePermissionsMulti driver rolename database schemas
  | RevokeAllMulti rolename database schemas =>
      revokeAllPermissionsMulti driver rolename database schemas
  end.

(** The users and roles an operation acts on. *)
Definition targets (op : Operation) : list string :=
  match op with
  | CreateUser username _ | UpdateUserPassword username _ | DeleteUser username => [username]
  | CreateRole rolename | DeleteRole rolename => [rolename]
  | AssignUserToRole username rolename | RemoveUserFromRole username rolename =>
      [username; rolename]
  | GrantRead rolename _ _ | GrantWrite rolename _ _ | RevokeAll rolename _ _
  | GrantReadMulti rolename _ _ | GrantWriteMulti rolename _ _ | RevokeAllMulti rolename _ _ =>
      [rolename]
  end.

(** The operations whose source starts with the reserved-prefix test. *)
Definition guarded (op : Operation) : bool :=
  match op with
  | CreateUser _ _ | UpdateUserPassword _ _ | DeleteUser _ | CreateRole _ | DeleteRole _ => true
  | _ => false
  end.

(** An operation turned down: a failure result, and the world (the
    statements sent, the console) as it was. *)
Definition rejected (driver : Driver) (op : Operation) (w : World) : Prop :=
  ∃ result, perform driver op w = (w, Ok result) ∧ success result = false.

(** The six catalog queries of [listPermissions], in the order sent. *)
Definition reportQueries (rolename : string) : list Query :=
  map (λ sql, {| text := sql; values := [VStr rolename] |})
      [ roleInfoSql; tablePermsSql; memberOfSql; columnPermsSql; schemaPermsSql; dbPermsSql ].

(** Keys and privilege lists of the report shaping. *)
Definition tableKey (p : Row) : string :=
  toStr (prop p "table_schema") +:+ "." +:+ toStr (prop p "table_name").

Definition columnKey (p : Row) : string :=
  toStr (prop p "table_schema") +:+ "." +:+ toStr (prop p "table_name")
    +:+ "." +:+ toStr (prop p "column_name").

Definition privilege (p : Row) : Val := prop p "privilege_type".

(** The privilege kinds of the rows that [select] picks, in row order
    and with repetitions. *)
Definition privilegesOf (select : Row → bool) (rows : list Row) : list Val :=
  map privilege (List.filter select rows).

Definition group {A} (l : list A) : option (list A) :=
  match l with [] => None | _ :: _ => Some l end.

Definition onTable (k : string) (p : Row) : bool := String.eqb (tableKey p) k.

Definition onColumn (k c : string) (p : Row) : bool :=
  String.eqb (tableKey p) k && String.eqb (toStr (prop p "column_name")) c.

(** Concrete drivers and worlds for the examples. *)
Definition acceptAll : Driver := λ _ _, Ok [].

Definition rejectInsert : Driver :=
  λ _ q, if String.prefix "GRANT INSERT" (text q)
         then Throw {| err_message := "permission denied" |}
         else Ok [].

Definition emptyWorld : World := {| issued := []; console := [] |}.

Definition rejectColumns : Driver :=
  λ _ q, if String.eqb (text q) columnPermsSql
         then Throw {| err_message := "permission denied for column_privileges" |}
         else Ok [].

(** Two rows of [table_privileges] for one table and one privilege, as
    the view gives them when two grantors granted it. *)
Definition duplicateGrant : list Row :=
  [ {[ "table_schema" := VStr "public"; "table_name" := VStr "orders";
       "privilege_type" := VStr "SELECT" ]};
    {[ "table_schema" := VStr "public"; "table_name" := VStr "orders";
       "privilege_type" := VStr "SELECT" ]} ].

Definition sampleReport : Permissions :=
  {| roleDetails := {[ "rolname" := VStr "app_read_only"; "rolsuper" := VBool false;
                       "rolcreaterole" := VBool false; "rolcreatedb" := VBool false ]};
     tablePermissions := duplicateGrant;
     schemaPermissions := [];
     databasePermissions := [];
     columnPermissions :=
       [ {[ "table_schema" := VStr "public"; "table_name" := VStr "orders";
            "column_name" := VStr "total"; "privilege_type" := VStr "SELECT" ]} ];
     functionPermissions := [];
     defaultPrivileges := [];
     memberOf := [];
     description := VNull |}.

(** A column grant on a column called [constructor], a name every
    object literal inherits. *)
Definition inheritedColumnGrant : list Row :=
  [ {[ "table_schema" := VStr "public"; "table_name" := VStr "orders";
       "column_name" := VStr "constructor"; "privilege_type" := VStr "SELECT" ]} ].

(** Whether a string holds a dot. *)
Definition hasDot (s : string) : bool :=
  existsb (Ascii.eqb ".") (String.list_ascii_of_string s).

(** A random source that always answers one half. *)
Definition halfRandom : nat → Q := λ _, 1 # 2.

(** A small role catalog: two ordinary users, two reserved login roles,
    a user whose name only looks reserved, and a role without login. *)
Definition sampleRoles : list Pg.Role :=
  [ {| Pg.rolname := "zed"; Pg.rolsuper := false; Pg.rolcreaterole := false;
       Pg.rolcanlogin := true |};
    {| Pg.rolname := "pg_monitor"; Pg.rolsuper := false; Pg.rolcreaterole := false;
       Pg.rolcanlogin := true |};
    {| Pg.rolname := "rds_admin"; Pg.rolsuper := true; Pg.rolcreaterole := true;
       Pg.rolcanlogin := true |};
    {| Pg.rolname := "pgx"; Pg.rolsuper := false; Pg.rolcreaterole := false;
       Pg.rolcanlogin := true |};
    {| Pg.rolname := "app_read_only"; Pg.rolsuper := false; Pg.rolcreaterole := false;
       Pg.rolcanlogin := false |};
    {| Pg.rolname := "bob"; Pg.rolsuper := false; Pg.rolcreaterole := false;
       Pg.rolcanlogin := true |} ].

(** The [username] column of a result. *)
Definition usernames (rows : outcome (list Row)) : list Val :=
  match rows with
  | Ok rows => map (λ row, prop row "username") rows
  | Throw _ => []
  end.

(** * Vocabulary of the further properties *)

(** The statements an operation sends when the database accepts each of
    them, in order; none when the reserved-prefix test turns the
    operation down. *)
Definition statements (op : Operation) : list Query :=
  match op with
  | CreateUser username password =>
      if reserved username then []
      else [stmt ("CREATE ROLE " +:+ username +:+ " WITH LOGIN PASSWORD '" +:+ password +:+ "';")]
  | UpdateUserPassword username newPassword =>
      if reserved username then []
      else [stmt ("ALTER ROLE " +:+ username +:+ " WITH PASSWORD '" +:+ newPassword +:+ "';")]
  | DeleteUser username =>
      if reserved username then [] else [stmt ("DROP ROLE " +:+ username +:+ ";")]
  | CreateRole rolename =>
      if reserved rolename then [] else [stmt ("CREATE ROLE " +:+ rolename +:+ " NOLOGIN;")]
  | DeleteRole rolename =>
      if reserved rolename then [] else [stmt ("DROP ROLE " +:+ rolename +:+ ";")]
  | AssignUserToRole username rolename =>
      [stmt ("GRANT " +:+ rolename +:+ " TO " +:+ username +:+ ";")]
  | RemoveUserFromRole username rolename =>
      [stmt ("REVOKE " +:+ rolename +:+ " FROM " +:+ username +:+ ";")]
  | GrantRead rolename database schema =>
      connectStatement rolename database :: schemaReadStatements rolename schema
  | GrantWrite rolename database schema =>
      (connectStatement rolename database :: schemaReadStatements rolename schema)
        ++ schemaWriteStatements rolename schema
  | RevokeAll rolename database schema =>
      schemaRevokeObjects rolename schema
        ++ revokeDatabaseStatement rolename database :: schemaRevokeDefaults rolename schema
  | GrantReadMulti rolename database schemas => readPhase rolename database schemas
  | GrantWriteMulti rolename database schemas =>
      readPhase rolename database schemas ++ writePhase rolename schemas
  | RevokeAllMulti rolename database schemas =>
      concat (map (λ s, schemaRevokeObjects rolename s ++ schemaRevokeDefaults rolename s)
                  schemas)
        ++ [revokeDatabaseStatement rolename database]
  end.

(** Whether the reserved-prefix test of an operation fires. *)
Definition turnedDown (op : Operation) : bool :=
  guarded op && existsb reserved (targets op).

(** A line of [console.error] written by a catch block for error [e]. *)
Definition logLine (e : Error) (line : string) : Prop :=
  ∃ label, line = label +:+ " " +:+ err_message e.

(** Calling a single-schema operation once per schema, in list order. *)
Fixpoint eachSchema (single : string → M Result) (schemas : list string) : M unit :=
  match schemas with
  | [] => ret tt
  | schema :: rest => await single schema ;; eachSchema single rest
  end.

(** The driver's answer to the [i]-th query of a plan that starts on the
    log [log], the earlier ones having been sent. *)
Definition answerAt (driver : Driver) (log plan : list Query) (i : nat)
  : option (outcome (list Row)) :=
  match plan !! i with
  | Some q => Some (driver (log ++ take i plan) q)
  | None => None
  end.

(** A database that rejects the ALTER DEFAULT PRIVILEGES statements. *)
Definition rejectDefaults : Driver :=
  λ _ q, if String.prefix "ALTER DEFAULT" (text q)
         then Throw {| err_message := "must be owner" |}
         else Ok [].

(** A database that rejects the GRANT CONNECT statement. *)
Definition rejectConnect : Driver :=
  λ _ q, if String.prefix "GRANT CONNECT" (text q)
         then Throw {| err_message := "database does not exist" |}
         else Ok [].

(** [m] prints nothing with [console.error] when it returns, and only
    catch-block lines for the error [e] when it throws [e]. *)
Definition reports {A} (m : M A) : Prop :=
  ∀ w, match (m w).2 with
       | Ok _ => console (m w).1 = console w
       | Throw e => ∃ lines, console (m w).1 = console w ++ lines ∧ Forall (logLine e) lines
       end.

(** [m] never writes with [console.error]. *)
Definition silent {A} (m : M A) : Prop := ∀ w, console (m w).1 = console w.

(** The number of character classes a password must hold one of. *)
Definition requiredCharacters (includeSpecial includeNumbers includeUppercase : bool) : nat :=
  (if includeUppercase then 1 else 0) + (if includeNumbers then 1 else 0)
  + (if includeSpecial then 1 else 0).

(** The characters that end a quoted literal in SQL or in a CSV field,
    and the backslash. *)
Definition quoteCharacters : list ascii :=
  [ Ascii.ascii_of_nat 39; Ascii.ascii_of_nat 34; Ascii.ascii_of_nat 92 ].

(** * More of the services *)

Section CatalogReaders.

(** The connection pool behind [db.query]. *)
Variable driver : Driver.

(** *** roleService.js: [listRoles], [listUserRoles] *)

Definition listRolesSelect : string :=
  unlines
    [ EmptyString;
      "      SELECT rolname as rolename, rolsuper as is_superuser, ";
      "       rolcreaterole as can_create_role, rolcanlogin as can_login ";
      "       FROM pg_roles ";
      "       WHERE rolcanlogin = false" ].

Definition listRoles (includeSystemRoles : bool) : M (list Row) :=
  try_catch
    (let query := listRolesSelect in
     let query :=
       if negb includeSystemRoles
       then query +:+ " AND rolname NOT LIKE 'pg\_%' AND rolname NOT LIKE 'rds\_%'"
       else query in
     let query := query +:+ " ORDER BY rolname;" in
     let* result := db_query driver query [] in
     ret result)
    (log_and_rethrow "Error listing roles:").

Definition listUserRolesSql : string :=
  unlines
    [ "SELECT r.rolname as rolename,";
      "              r.rolsuper as is_superuser,";
      "              r.rolcreaterole as can_create_role";
      "       FROM pg_roles r";
      "       JOIN pg_auth_members m ON m.roleid = r.oid";
      "       JOIN pg_roles u ON m.member = u.oid";
      "       WHERE u.rolname = $1";
      "       ORDER BY r.rolname;" ].

Definition listUserRoles (username : string) : M (list Row) :=
  try_catch
    (let* result := db_query driver listUserRolesSql [VStr username] in
     ret result)
    (log_and_rethrow "Error listing user roles:").

(** *** permissionService.js: [listSchemas] *)

Definition listSchemasSql : string :=
  unlines
    [ EmptyString;
      "      SELECT nspname as schema_name";
      "      FROM pg_namespace";
      "      WHERE nspname NOT LIKE 'pg\_%' AND nspname != 'information_schema'";
      "      ORDER BY nspname;";
      "    " ].

Definition listAllSchemasSql : string :=
  unlines
    [ EmptyString;
      "        SELECT nspname as schema_name";
      "        FROM pg_namespace";
      "        ORDER BY nspname;";
      "      " ].

(** [result.rows.map(row => row.schema_name)] *)
Definition listSchemas (includeSystemSchemas : bool) : M (list Val) :=
  try_catch
    (let query := listSchemasSql in
     let query := if includeSystemSchemas then listAllSchemasSql else query in
     let* result := db_query driver query [] in
     ret (map (λ row, prop row "schema_name") result))
    (log_and_rethrow "Error listing schemas:").

End CatalogReaders.

(** A database for the examples. *)
Definition sampleDatabase : Pg.Database :=
  {| Pg.pg_roles := sampleRoles;
     Pg.pg_namespace :=
       ["public"; "pg_catalog"; "information_schema"; "sales"; "pg_toast"; "pgx"] |}.

(** * More of utils/displayUtils.js *)

(** [v.toString()]: a TypeError on [undefined] and [null]. *)
Definition cannotRead (v : Val) : Error :=
  {| err_message := "Cannot read properties of " +:+ toStr v +:+ " (reading 'toString')" |}.

Definition toString (v : Val) : outcome string :=
  match v with
  | VUndefined | VNull => Throw (cannotRead v)
  | _ => Ok (toStr v)
  end.

(** [Object.keys(obj).sort()]: the own keys, in the order of the default
    sort (by code unit, which for these byte strings is [String.le]).
    The keys are distinct, so the order they are listed in before the
    sort does not matter. *)
Definition sortedKeys {A} (obj : gmap string A) : list string :=
  merge_sort String.le (elements (dom obj)).

Section Display.

(** [chalk.<style>...(text)]: the colouring of the terminal library,
    with the chain of styles as a list. *)
Variable chalk : list string → string → string.

Definition formatBooleanValue (value : Val) : string :=
  if truthy value
  then chalk ["green"; "bold"] "✓ Yes"
  else chalk ["red"; "bold"] "✗ No".

(** [displayRoleDetails(roleDetails)]: the rows pushed to the table, in
    order.  The header line and the rendering of the table are left
    out. *)
Definition displayRoleDetails (roleDetails : Row) : outcome (list (list string)) :=
  let table :=
    [ [chalk ["white"] "Name";
       chalk ["green"; "bold"] (toStr (js_or (prop roleDetails "rolname") (VStr "N/A")))];
      [chalk ["white"] "Superuser"; formatBooleanValue (prop roleDetails "rolsuper")];
      [chalk ["white"] "Create Roles"; formatBooleanValue (prop roleDetails "rolcreaterole")];
      [chalk ["white"] "Create Database"; formatBooleanValue (prop roleDetails "rolcreatedb")];
      [chalk ["white"] "Can Login"; formatBooleanValue (prop roleDetails "rolcanlogin")];
      [chalk ["white"] "Inherit"; formatBooleanValue (prop roleDetails "rolinherit")] ] in
  let table :=
    if truthy (prop roleDetails "rolreplication")
    then table ++ [["Replication"; formatBooleanValue (prop roleDetails "rolreplication")]]
    else table in
  let table :=
    if bool_decide (prop roleDetails "rolconnlimit" ≠ VNum (-1))
    then match toString (prop roleDetails "rolconnlimit") with
         | Ok limit => Ok (table ++ [["Connection Limit"; chalk ["blue"] limit]])
         | Throw e => Throw e
         end
    else Ok table in
  match table with
  | Ok table =>
      Ok (if truthy (prop roleDetails "rolvaliduntil")
          then table ++ [["Valid Until";
                          chalk ["blue"] (toStr (prop roleDetails "rolvaliduntil"))]]
          else table)
  | Throw e => Throw e
  end.

End Display.

(** One row of the table of [displayTablePermissions], before colouring
    and joining: the table key, the icons, the privileges. *)
Record TableRow : Type := {
  row_key : string;
  row_icons : list string;
  row_privileges : list Val
}.

(** [displayTablePermissions(tablePermissions)]: the rows pushed to the
    table, one per key of the grouping, in sorted key order; none when
    there are no grants (the function prints [None] and returns). *)
Definition displayTablePermissions (tablePermissions : list Row) : outcome (list TableRow) :=
  if (length tablePermissions =? 0)%nat then Ok []
  else
    match tablePermsByTable tablePermissions with
    | Ok byTable =>
        Ok (map (λ tableKey,
                   let perms := default [] (byTable !! tableKey) in
                   let permIcons :=
                     (if bool_decide (VStr "SELECT" ∈ perms) then ["🔍"] else [])
                     ++ (if bool_decide (VStr "INSERT" ∈ perms) then ["➕"] else [])
                     ++ (if bool_decide (VStr "UPDATE" ∈ perms) then ["✏️"] else [])
                     ++ (if bool_decide (VStr "DELETE" ∈ perms) then ["🗑️"] else []) in
                   {| row_key := tableKey; row_icons := permIcons; row_privileges := perms |})
                (sortedKeys byTable))
    | Throw e => Throw e
    end.

(** A role row as [pg_roles] gives it: no connection limit, no expiry. *)
Definition sampleRoleDetails : Row :=
  {[ "rolname" := VStr "app_read_only"; "rolsuper" := VBool false;
     "rolinherit" := VBool true; "rolcreaterole" := VBool false;
     "rolcreatedb" := VBool false; "rolcanlogin" := VBool false;
     "rolreplication" := VBool false; "rolconnlimit" := VNum (-1);
     "rolvaliduntil" := VNull ]}.

(** Colouring that leaves the text as it is. *)
Definition plainChalk : list string → string → string := λ _ text, text.

(** Table grants on two tables, out of key order. *)
Definition tableGrants : list Row :=
  [ {[ "table_schema" := VStr "public"; "table_name" := VStr "users";
       "privilege_type" := VStr "SELECT" ]};
    {[ "table_schema" := VStr "public"; "table_name" := VStr "orders";
       "privilege_type" := VStr "SELECT" ]};
    {[ "table_schema" := VStr "public"; "table_name" := VStr "orders";
       "privilege_type" := VStr "INSERT" ]} ].


(** * The delete commands

    The actions of [delete-user] (commands/userCommands.js) and of
    [delete-role] (commands/roleCommands.js).  A command runs on top of
    the services: besides the statements sent and the lines of
    [console.error] it prints with [console.log], it opens a connection
    with [pool.connect] and it asks the user with [inquirer.prompt]. *)

(** What a command has done: the world of the services, and the lines
    printed with [console.log]. *)
Record Terminal : Type := { world : World; printed : list string }.

Definition Action (A : Type) : Type := Terminal → Terminal * outcome A.

Definition act_ret {A} (a : A) : Action A := λ t, (t, Ok a).

Definition act_bind {A B} (m : Action A) (k : A → Action B) : Action B :=
  λ t, match m t with
       | (t', Ok a) => k a t'
       | (t', Throw e) => (t', Throw e)
       end.

(** [try { body } catch (err) { handler }] in a command. *)
Definition act_try_catch {A} (body : Action A) (handler : Error → Action A) : Action A :=
  λ t, match body t with
       | (t', Throw e) => handler e t'
       | r => r
       end.

(** [await service(...)]: the service runs on the world of the terminal. *)
Definition call {A} (m : M A) : Action A :=
  λ t, ({| world := (m (world t)).1; printed := printed t |}, (m (world t)).2).

(** [console.log(line)] *)
Definition console_log (line : string) : Action unit :=
  λ t, ({| world := world t; printed := printed t ++ [line] |}, Ok tt).

Declare Scope cmd_scope.
Delimit Scope cmd_scope with cmd.
Notation "'let*' x := m 'in' k" := (act_bind m (λ x, k))
  (at level 10, x name, m at level 99, k at level 200, only parsing) : cmd_scope.
Notation "'await' m ';;' k" := (act_bind m (λ _, k))
  (at level 10, m at level 99, k at level 200, only parsing) : cmd_scope.

(** The answers to the two questions of a delete command: the name
    picked from the list and the confirmation. *)
Record DeleteAnswers : Type := { answer_name : string; answer_confirm : bool }.

Section Commands.

(** The connection pool behind [db.query]. *)
Variable driver : Driver.

(** [pool.connect()]: a client, or the error of the refused connection. *)
Variable pool_connect : outcome unit.

(** How [console.error] shows an error object. *)
Variable inspect : Error → string.

(** [inquirer.prompt] with a list question over [choices] and a confirm
    question: what the user answers on the terminal as it stands, or the
    error the prompt rejects with. *)
Variable inquirer_prompt : Terminal → list Val → outcome DeleteAnswers.

(** [db.testConnection]; the catch block prints the error object, not
    its message.  [client.release()] gives the client back to the pool
    and shows in nothing that is looked at here. *)
Definition testConnection : Action bool :=
  act_try_catch
    (await (λ t, (t, pool_connect)) ;;
     await console_log "Successfully connected to PostgreSQL" ;;
     act_ret true)%cmd
    (λ err,
       await call (λ w, ({| issued := issued w;
                            console := console w
                                         ++ ["Database connection error: " +:+ inspect err] |},
                         Ok tt)) ;;
       act_ret false)%cmd.

(** The action of [delete-user]. *)
Definition deleteUserAction : Action unit :=
  act_try_catch
    (let* connected := testConnection in
     if connected then
       let* users := call (listUsers driver false) in
       let usernames := map (λ user, prop user "username") users in
       let* answers := (λ t, (t, inquirer_prompt t usernames)) in
       if answer_confirm answers then
         let* result := call (deleteUser driver (answer_name answers)) in
         console_log (message result)
       else
         console_log "Delete operation cancelled"
     else act_ret tt)%cmd
    (λ err, call (console_error "Error:" err)).

(** The action of [delete-role]. *)
Definition deleteRoleAction : Action unit :=
  act_try_catch
    (let* connected := testConnection in
     if connected then
       let* roles := call (listRoles driver false) in
       let rolenames := map (λ role, prop role "rolename") roles in
       let* answers := (λ t, (t, inquirer_prompt t rolenames)) in
       if answer_confirm answers then
         let* result := call (deleteRole driver (answer_name answers)) in
         console_log (message result)
       else
         console_log "Delete operation cancelled"
     else act_ret tt)%cmd
    (λ err, call (console_error "Error:" err)).

End Commands.

(** The statement of [listUsers()] and of [listRoles()], system names
    left out. *)
Definition listUsersStatement : Query :=
  stmt ((listUsersSelect +:+ " AND rolname NOT LIKE 'pg\_%' AND rolname NOT LIKE 'rds\_%'")
          +:+ " ORDER BY rolname;").

Definition listRolesStatement : Query :=
  stmt ((listRolesSelect +:+ " AND rolname NOT LIKE 'pg\_%' AND rolname NOT LIKE 'rds\_%'")
          +:+ " ORDER BY rolname;").

(** A user who picks [name] and confirms, whatever is offered. *)
Definition confirms (name : string) : Terminal → list Val → outcome DeleteAnswers :=
  λ _ _, Ok {| answer_name := name; answer_confirm := true |}.

(** A user who picks [name] and then declines. *)
Definition declines (name : string) : Terminal → list Val → outcome DeleteAnswers :=
  λ _ _, Ok {| answer_name := name; answer_confirm := false |}.

Definition freshTerminal : Terminal := {| world := emptyWorld; printed := [] |}.

(** A database that rejects DROP ROLE. *)
Definition rejectDrop : Driver :=
  λ _ q, if String.prefix "DROP ROLE" (text q)
         then Throw {| err_message := "role is in use" |}
         else Ok [].

(** * [generateSecurePassword] on any number

    The length reaches [generateSecurePassword] as a JavaScript number,
    and the prompt of [create-user] lets through any number from 8 on,
    fractions included.  Here the length is any finite number. *)

(** The rounds of [for (let i = 0; i < bound; i++)]: the loop runs for
    [i = 0, 1, ...] as long as [i < bound]. *)
Definition rounds (bound : Q) : nat := Z.to_nat (Qceiling bound).

Module JsNumber.

Section PasswordUtils.

Variable random : nat → Q.

(** [generateSecurePassword] as in [passwordUtils.js], the length a
    number. *)
Definition generateSecurePassword
    (length : Q) (includeSpecial includeNumbers includeUppercase : bool) (k : nat)
  : string * nat :=
  let chars := lowercase in
  let chars := if includeUppercase then chars +:+ uppercase else chars in
  let chars := if includeNumbers then chars +:+ numbers else chars in
  let chars := if includeSpecial then chars +:+ special else chars in
  let password := EmptyString in
  let '(password, k) :=
    if includeUppercase
    then (password +:+ charAt uppercase (randomIndex random k (String.length uppercase)), S k)
    else (password, k) in
  let '(password, k) :=
    if includeNumbers
    then (password +:+ charAt numbers (randomIndex random k (String.length numbers)), S k)
    else (password, k) in
  let '(password, k) :=
    if includeSpecial
    then (password +:+ charAt special (randomIndex random k (String.length special)), S k)
    else (password, k) in
  let remainingLength := (length - inject_Z (Z.of_nat (String.length password)))%Q in
  let '(password, k) := fill random chars (rounds remainingLength) password k in
  let passwordArray := String.list_ascii_of_string password in
  let '(passwordArray, k) :=
    shuffle random (List.length passwordArray - 1) passwordArray k in
  (String.string_of_list_ascii passwordArray, k).

End PasswordUtils.

End JsNumber.
(** * Lemmas on the monad and on plans *)


Section Behaviour.

Variable driver : Driver.

Lemma run_plan_app (p1 p2 log : list Query) :
  run_plan driver (p1 ++ p2) log =
    match run_plan driver p1 log with
    | (log', None) => run_plan driver p2 log'
    | (log', Some e) => (log', Some e)
    end.
Proof.
  revert log. induction p1 as [|q p1 IH]; intros log; simpl; [done|].
  destruct (driver log q); [apply IH | done].
Qed.

(** The log only grows, and by a part of the plan. *)
Lemma run_plan_log (plan log : list Query) :
  ∃ done_, (run_plan driver plan log).1 = log ++ done_ ∧ done_ `prefix_of` plan
           ∧ ((run_plan driver plan log).2 = None → done_ = plan).
Proof.
  revert log. induction plan as [|q plan IH]; intros log; simpl.
  - exists []. rewrite app_nil_r. done.
  - destruct (driver log q) as [rows|e]; simpl.
    + destruct (IH (log ++ [q])) as (d & Hd & Hp & Hn).
      exists (q :: d). rewrite Hd, <- app_assoc. split; [done|].
      split; [by apply prefix_cons|]. intros H. by rewrite Hn.
    + exists [q]. split; [done|]. split; [|done].
      apply prefix_cons, prefix_nil.
Qed.

Lemma run_plan_accepts (plan log : list Query) :
  accepts_all driver → run_plan driver plan log = (log ++ plan, None).
Proof.
  intros Hok. revert log. induction plan as [|q plan IH]; intros log; simpl.
  - by rewrite app_nil_r.
  - destruct (Hok log q) as [rows ->]. rewrite IH, <- app_assoc. done.
Qed.

Lemma behaves_ret {A} (v : A) : behaves driver (ret v) [] v.
Proof. intros w. done. Qed.

Lemma behaves_bind {A B} (m : M A) (k : A → M B) p1 p2 a b :
  behaves driver m p1 a → behaves driver (k a) p2 b →
  behaves driver (bind m k) (p1 ++ p2) b.
Proof.
  intros Hm Hk w. destruct (Hm w) as [H1 H2]. unfold bind.
  rewrite run_plan_app.
  destruct (m w) as [w' o]; simpl in *.
  destruct (run_plan driver p1 (issued w)) as [log' [e|]]; simpl in *; subst.
  - done.
  - destruct (Hk w') as [H3 H4]. by rewrite H3, H4.
Qed.

Lemma behaves_query {A} (sql : string) (k : M A) plan v :
  behaves driver k plan v →
  behaves driver (bind (db_query driver sql []) (λ _, k)) (stmt sql :: plan) v.
Proof.
  intros Hk w. unfold bind, db_query, stmt. simpl.
  destruct (driver (issued w) _) as [rows|e]; simpl; [|done].
  apply (Hk {| issued := _; console := _ |}).
Qed.

Lemma behaves_try_catch {A} (m : M A) label plan v :
  behaves driver m plan v →
  behaves driver (try_catch m (log_and_rethrow label)) plan v.
Proof.
  intros Hm w. destruct (Hm w) as [H1 H2]. unfold try_catch.
  destruct (m w) as [w' [a|e]]; simpl in *; done.
Qed.

Lemma behaves_for_of {A} (body : list A → A → M (list A)) (planOf : A → list Query) xs :
  (∀ acc x, behaves driver (body acc x) (planOf x) (acc ++ [x])) →
  ∀ acc, behaves driver (for_of xs body acc) (concat (map planOf xs)) (acc ++ xs).
Proof.
  intros Hbody. induction xs as [|x xs IH]; intros acc; simpl.
  - rewrite app_nil_r. apply behaves_ret.
  - eapply behaves_bind; [apply Hbody|].
    replace (acc ++ x :: xs) with ((acc ++ [x]) ++ xs) by by rewrite <- app_assoc.
    apply IH.
Qed.

(** What [behaves] says about the statements sent. *)
Lemma behaves_sent {A} (m : M A) plan v w :
  behaves driver m plan v →
  ∃ done_, sent m w = done_ ∧ done_ `prefix_of` plan
           ∧ (∀ r, (m w).2 = Ok r → done_ = plan).
Proof.
  intros Hm. destruct (Hm w) as [H1 H2].
  destruct (run_plan_log plan (issued w)) as (d & Hd & Hp & Hn).
  exists d. unfold sent. rewrite H1, Hd, drop_app_length. split; [done|]. split; [done|].
  intros r Hr. apply Hn. rewrite Hr in H2.
  by destruct ((run_plan driver plan (issued w)).2).
Qed.

Lemma behaves_sent_accepts {A} (m : M A) plan v w :
  accepts_all driver → behaves driver m plan v →
  sent m w = plan ∧ (m w).2 = Ok v.
Proof.
  intros Hok Hm. destruct (Hm w) as [H1 H2].
  rewrite run_plan_accepts in H1, H2 by done. simpl in *.
  unfold sent. by rewrite H1, drop_app_length.
Qed.

End Behaviour.

(** Walks through a function body that is a row of [db.query] calls. *)
Ltac step_queries :=
  repeat first [ apply behaves_try_catch
               | apply behaves_query
               | apply behaves_ret ].

(** * The statement sequences of the grant/revoke engine *)

Section Plans.

Variable driver : Driver.

Lemma grantReadPermissions_behaves rolename database schema :
  behaves driver (grantReadPermissions driver rolename database schema)
    (connectStatement rolename database :: schemaReadStatements rolename schema)
    {| success := true;
       message := "Read permissions granted to " +:+ rolename +:+ " on " +:+ database
                  +:+ "." +:+ schema |}.
Proof. unfold grantReadPermissions. step_queries. Qed.

Lemma grantWritePermissions_behaves rolename database schema :
  behaves driver (grantWritePermissions driver rolename database schema)
    ((connectStatement rolename database :: schemaReadStatements rolename schema)
       ++ schemaWriteStatements rolename schema)
    {| success := true;
       message := "Write permissions granted to " +:+ rolename +:+ " on " +:+ database
                  +:+ "." +:+ schema |}.
Proof.
  unfold grantWritePermissions. apply behaves_try_catch.
  eapply behaves_bind; [apply grantReadPermissions_behaves|].
  step_queries.
Qed.

Lemma revokeAllPermissions_behaves rolename database schema :
  behaves driver (revokeAllPermissions driver rolename database schema)
    (schemaRevokeObjects rolename schema
       ++ revokeDatabaseStatement rolename database :: schemaRevokeDefaults rolename schema)
    {| success := true;
       message := "All permissions revoked from " +:+ rolename +:+ " on " +:+ database
                  +:+ "." +:+ schema |}.
Proof. unfold revokeAllPermissions. step_queries. Qed.

Lemma grantReadPermissionsMulti_behaves rolename database schemas :
  behaves driver (grantReadPermissionsMulti driver rolename database schemas)
    (readPhase rolename database schemas)
    {| success := true;
       message := "Read permissions granted to " +:+ rolename +:+ " on " +:+ database
                  +:+ " schemas: " +:+ join ", " schemas |}.
Proof.
  unfold grantReadPermissionsMulti, readPhase. apply behaves_try_catch.
  apply behaves_query.
  rewrite <- (app_nil_r (concat _)).
  eapply behaves_bind.
  - apply (behaves_for_of driver _ (schemaReadStatements rolename)).
    intros acc x. step_queries.
  - apply behaves_ret.
Qed.

Lemma grantWritePermissionsMulti_behaves rolename database schemas :
  behaves driver (grantWritePermissionsMulti driver rolename database schemas)
    (readPhase rolename database schemas ++ writePhase rolename schemas)
    {| success := true;
       message := "Write permissions granted to " +:+ rolename +:+ " on " +:+ database
                  +:+ " schemas: " +:+ join ", " schemas |}.
Proof.
  unfold grantWritePermissionsMulti, writePhase. apply behaves_try_catch.
  eapply behaves_bind; [apply grantReadPermissionsMulti_behaves|].
  rewrite <- (app_nil_r (concat _)).
  eapply behaves_bind.
  - apply (behaves_for_of driver _ (schemaWriteStatements rolename)).
    intros acc x. step_queries.
  - apply behaves_ret.
Qed.

Lemma revokeAllPermissionsMulti_behaves rolename database schemas :
  behaves driver (revokeAllPermissionsMulti driver rolename database schemas)
    (concat (map (λ s, schemaRevokeObjects rolename s ++ schemaRevokeDefaults rolename s)
                 schemas)
       ++ [revokeDatabaseStatement rolename database])
    {| success := true;
       message := "All permissions revoked from " +:+ rolename +:+ " on " +:+ database
                  +:+ " schemas: " +:+ join ", " schemas |}.
Proof.
  unfold revokeAllPermissionsMulti. apply behaves_try_catch.
  eapply behaves_bind.
  - apply (behaves_for_of driver _
             (λ s, schemaRevokeObjects rolename s ++ schemaRevokeDefaults rolename s)).
    intros acc x. step_queries.
  - step_queries.
Qed.

End Plans.

(** * Read grants, write grants and their multi-schema variants *)

Lemma prefix_of_app_split {A} (d a b : list A) :
  d `prefix_of` a ++ b →
  ∃ d1 d2, d = d1 ++ d2 ∧ d1 `prefix_of` a ∧ d2 `prefix_of` b ∧ (d2 ≠ [] → d1 = a).
Proof.
  revert d. induction a as [|x a IH]; intros d Hd; simpl in *.
  - exists [], d. done.
  - destruct d as [|y d].
    + exists [], []. split; [done|]. split; [apply prefix_nil|]. split; [apply prefix_nil|done].
    + apply prefix_cons_inv_1 in Hd as Hxy. apply prefix_cons_inv_2 in Hd. subst y.
      destruct (IH d Hd) as (d1 & d2 & -> & H1 & H2 & H3).
      exists (x :: d1), d2. split; [done|]. split; [by apply prefix_cons|].
      split; [done|]. intros Hne. by rewrite H3.
Qed.

Lemma behaves_completed {A} driver (m : M A) plan v w r :
  behaves driver m plan v → (m w).2 = Ok r →
  run_plan driver plan (issued w) = (issued w ++ plan, None).
Proof.
  intros Hm Hr. destruct (Hm w) as [_ H2].
  destruct (run_plan_log driver plan (issued w)) as (d & Hd & _ & Hn).
  destruct (run_plan driver plan (issued w)) as [log' [e|]] eqn:E; simpl in *.
  - congruence.
  - by rewrite Hd, Hn.
Qed.

(** C3.  For every database, role, database name and schema, the
    statements sent by [grantReadPermissions] are a prefix of the
    statements sent by [grantWritePermissions] from the same start: the
    write grant sends the read grant's statements first, in the same
    order, and only then its own.  This holds whether or not the
    database rejects a statement on the way. *)
Theorem grantWrite_extends_grantRead driver rolename database schema w :
  sent (grantReadPermissions driver rolename database schema) w
    `prefix_of` sent (grantWritePermissions driver rolename database schema) w.
Proof.
  unfold sent.
  destruct (grantReadPermissions_behaves driver rolename database schema w) as [Hr _].
  destruct (grantWritePermissions_behaves driver rolename database schema w) as [Hw _].
  rewrite Hr, Hw, run_plan_app. clear Hr Hw.
  set (plan := connectStatement rolename database :: schemaReadStatements rolename schema).
  destruct (run_plan_log driver plan (issued w)) as (d & Hd & _ & _).
  destruct (run_plan driver plan (issued w)) as [log' [e|]]; cbn [fst] in *; [done|].
  destruct (run_plan_log driver (schemaWriteStatements rolename schema) log')
    as (d' & Hd' & _ & _).
  rewrite Hd', Hd, <- app_assoc, !drop_app_length. by exists d'.
Qed.

Example grantWrite_statements :
  map text (sent (grantWritePermissions acceptAll "app_rw" "mydb" "public") emptyWorld)
  = [ "GRANT CONNECT ON DATABASE mydb TO app_rw;";
      "GRANT USAGE ON SCHEMA public TO app_rw;";
      "GRANT SELECT ON ALL TABLES IN SCHEMA public TO app_rw;";
      "ALTER DEFAULT PRIVILEGES IN SCHEMA public GRANT SELECT ON TABLES TO app_rw;";
      "GRANT INSERT, UPDATE, DELETE ON ALL TABLES IN SCHEMA public TO app_rw;";
      "ALTER DEFAULT PRIVILEGES IN SCHEMA public GRANT SELECT, INSERT, UPDATE, DELETE ON TABLES TO app_rw;";
      "GRANT USAGE ON ALL SEQUENCES IN SCHEMA public TO app_rw;";
      "ALTER DEFAULT PRIVILEGES IN SCHEMA public GRANT USAGE ON SEQUENCES TO app_rw;" ].
Proof. reflexivity. Qed.

Lemma connect_not_read rolename database schema :
  connectStatement rolename database ∉ schemaReadStatements rolename schema.
Proof.
  unfold connectStatement, schemaReadStatements, stmt. rewrite !not_elem_of_cons.
  split_and!; try apply not_elem_of_nil; intros H; simpl in H; discriminate H.
Qed.

Lemma connect_not_write rolename database schema :
  connectStatement rolename database ∉ schemaWriteStatements rolename schema.
Proof.
  unfold connectStatement, schemaWriteStatements, stmt. rewrite !not_elem_of_cons.
  split_and!; try apply not_elem_of_nil; intros H; simpl in H; discriminate H.
Qed.

Lemma count_occ_absent (l : list Query) q : q ∉ l → count_occ Query_eq_dec l q = 0.
Proof. intros H. apply count_occ_not_In. by rewrite <- list_elem_of_In. Qed.

Lemma count_occ_concat_absent {A} (f : A → list Query) xs q :
  (∀ x, q ∉ f x) → count_occ Query_eq_dec (concat (map f xs)) q = 0.
Proof.
  intros H. induction xs as [|x xs IH]; simpl; [done|].
  by rewrite count_occ_app, count_occ_absent, IH.
Qed.

(** C2.  Against a database that accepts every statement, and for two
    schemas [s1], [s2]: each multi-schema operation sends the same set
    of statements as two single-schema calls in a row (on [s1], then on
    [s2]); the GRANT CONNECT statement occurs exactly once in what the
    multi-schema read and write grants send, and twice in what the two
    single-schema calls send. *)
Theorem multi_schema_same_statements driver rolename database s1 s2 w :
  accepts_all driver →
  let connect := connectStatement rolename database in
  let readMulti := sent (grantReadPermissionsMulti driver rolename database [s1; s2]) w in
  let readTwice :=
    sent (await grantReadPermissions driver rolename database s1 ;;
          grantReadPermissions driver rolename database s2) w in
  let writeMulti := sent (grantWritePermissionsMulti driver rolename database [s1; s2]) w in
  let writeTwice :=
    sent (await grantWritePermissions driver rolename database s1 ;;
          grantWritePermissions driver rolename database s2) w in
  let revokeMulti := sent (revokeAllPermissionsMulti driver rolename database [s1; s2]) w in
  let revokeTwice :=
    sent (await revokeAllPermissions driver rolename database s1 ;;
          revokeAllPermissions driver rolename database s2) w in
  (∀ q, q ∈ readMulti ↔ q ∈ readTwice)
  ∧ count_occ Query_eq_dec readMulti connect = 1
  ∧ count_occ Query_eq_dec readTwice connect = 2
  ∧ (∀ q, q ∈ writeMulti ↔ q ∈ writeTwice)
  ∧ count_occ Query_eq_dec writeMulti connect = 1
  ∧ count_occ Query_eq_dec writeTwice connect = 2
  ∧ (∀ q, q ∈ revokeMulti ↔ q ∈ revokeTwice).
Proof.
  intros Hok connect readMulti readTwice writeMulti writeTwice revokeMulti revokeTwice.
  pose proof (connect_not_read rolename database) as Hr.
  pose proof (connect_not_write rolename database) as Hw.
  assert (readMulti = readPhase rolename database [s1; s2]) as ->.
  { eapply behaves_sent_accepts; [done|]. apply grantReadPermissionsMulti_behaves. }
  assert (readTwice = (connect :: schemaReadStatements rolename s1)
                        ++ (connect :: schemaReadStatements rolename s2)) as ->.
  { eapply behaves_sent_accepts; [done|].
    eapply behaves_bind; apply grantReadPermissions_behaves. }
  assert (writeMulti = readPhase rolename database [s1; s2] ++ writePhase rolename [s1; s2])
    as ->.
  { eapply behaves_sent_accepts; [done|]. apply grantWritePermissionsMulti_behaves. }
  assert (writeTwice =
            ((connect :: schemaReadStatements rolename s1) ++ schemaWriteStatements rolename s1)
              ++ ((connect :: schemaReadStatements rolename s2)
                    ++ schemaWriteStatements rolename s2)) as ->.
  { eapply behaves_sent_accepts; [done|].
    eapply behaves_bind; apply grantWritePermissions_behaves. }
  assert (revokeMulti =
            concat (map (λ s, schemaRevokeObjects rolename s ++ schemaRevokeDefaults rolename s)
                        [s1; s2])
              ++ [revokeDatabaseStatement rolename database]) as ->.
  { eapply behaves_sent_accepts; [done|]. apply revokeAllPermissionsMulti_behaves. }
  assert (revokeTwice =
            (schemaRevokeObjects rolename s1
               ++ revokeDatabaseStatement rolename database :: schemaRevokeDefaults rolename s1)
              ++ (schemaRevokeObjects rolename s2
                    ++ revokeDatabaseStatement rolename database
                         :: schemaRevokeDefaults rolename s2)) as ->.
  { eapply behaves_sent_accepts; [done|].
    eapply behaves_bind; apply revokeAllPermissions_behaves. }
  unfold readPhase, writePhase. fold connect. cbn [map concat]. rewrite !app_nil_r.
  assert (∀ s, count_occ Query_eq_dec (schemaReadStatements rolename s) connect = 0) as Cr.
  { intros s. by apply count_occ_absent. }
  assert (∀ s, count_occ Query_eq_dec (schemaWriteStatements rolename s) connect = 0) as Cw.
  { intros s. by apply count_occ_absent. }
  split_and!;
    try (intros q;
         repeat first [ rewrite elem_of_app | rewrite elem_of_cons | rewrite elem_of_nil ];
         tauto);
    repeat first [ rewrite count_occ_app
                 | rewrite count_occ_cons_eq by done
                 | rewrite Cr
                 | rewrite Cw ].
  all: done.
Qed.

Lemma accepts_all_acceptAll : accepts_all acceptAll.
Proof. intros log q. by exists []. Defined.

Lemma multi_schema_same_statements_witness :
  accepts_all acceptAll
  ∧ count_occ Query_eq_dec
      (sent (grantReadPermissionsMulti acceptAll "app_read_only" "mydb" ["public"; "sales"])
            emptyWorld)
      (connectStatement "app_read_only" "mydb") = 1.
Proof.
  split; [exact accepts_all_acceptAll|].
  apply (multi_schema_same_statements acceptAll "app_read_only" "mydb" "public" "sales"
           emptyWorld accepts_all_acceptAll).
Defined.

Lemma revokeDatabase_not_objects rolename database schema :
  revokeDatabaseStatement rolename database ∉ schemaRevokeObjects rolename schema.
Proof.
  unfold revokeDatabaseStatement, schemaRevokeObjects, stmt. rewrite !not_elem_of_cons.
  split_and!; try apply not_elem_of_nil; intros H; simpl in H; discriminate H.
Qed.

Lemma revokeDatabase_not_defaults rolename database schema :
  revokeDatabaseStatement rolename database ∉ schemaRevokeDefaults rolename schema.
Proof.
  unfold revokeDatabaseStatement, schemaRevokeDefaults, stmt. rewrite !not_elem_of_cons.
  split_and!; try apply not_elem_of_nil; intros H; simpl in H; discriminate H.
Qed.

(** The revoke counterpart of the shared CONNECT: the multi-schema
    revoke sends the database-level REVOKE once, at the end, where the
    two single-schema calls send it once each. *)
Remark revokeMulti_database_once driver rolename database s1 s2 w :
  accepts_all driver →
  let revokeDatabase := revokeDatabaseStatement rolename database in
  count_occ Query_eq_dec
    (sent (revokeAllPermissionsMulti driver rolename database [s1; s2]) w) revokeDatabase = 1
  ∧ count_occ Query_eq_dec
      (sent (await revokeAllPermissions driver rolename database s1 ;;
             revokeAllPermissions driver rolename database s2) w) revokeDatabase = 2.
Proof.
  intros Hok revokeDatabase.
  assert (∀ s, count_occ Query_eq_dec (schemaRevokeObjects rolename s) revokeDatabase = 0)
    as Co by (intros s; apply count_occ_absent, revokeDatabase_not_objects).
  assert (∀ s, count_occ Query_eq_dec (schemaRevokeDefaults rolename s) revokeDatabase = 0)
    as Cd by (intros s; apply count_occ_absent, revokeDatabase_not_defaults).
  split.
  - rewrite (proj1 (behaves_sent_accepts driver _ _ _ w Hok
                      (revokeAllPermissionsMulti_behaves driver rolename database [s1; s2]))).
    cbn [map concat]. fold revokeDatabase.
    repeat first [ rewrite count_occ_app | rewrite count_occ_cons_eq by done
                 | rewrite Co | rewrite Cd ].
    done.
  - rewrite (proj1 (behaves_sent_accepts driver _ _ _ w Hok
                      (behaves_bind driver _ _ _ _ _ _
                         (revokeAllPermissions_behaves driver rolename database s1)
                         (revokeAllPermissions_behaves driver rolename database s2)))).
    fold revokeDatabase.
    repeat first [ rewrite count_occ_app | rewrite count_occ_cons_eq by done
                 | rewrite Co | rewrite Cd ].
    done.
Qed.

(** C9.  In [grantWritePermissionsMulti] the statements sent split into
    a part of the read phase (GRANT CONNECT, then USAGE, SELECT and
    default SELECT per schema in list order) followed by a part of the
    write phase, and a write-phase statement is only sent once the whole
    read phase has been sent.  So when the read phase succeeds and the
    database rejects the first write statement, the operation throws
    that error having sent the read grants of every schema and that one
    write statement. *)
Theorem grantWriteMulti_read_phase_first driver rolename database schemas w :
  let run := grantWritePermissionsMulti driver rolename database schemas in
  (∃ reads writes,
      sent run w = reads ++ writes
      ∧ reads `prefix_of` readPhase rolename database schemas
      ∧ writes `prefix_of` writePhase rolename schemas
      ∧ (writes ≠ [] → reads = readPhase rolename database schemas))
  ∧ (∀ first e,
       head (writePhase rolename schemas) = Some first →
       (∃ result,
           (grantReadPermissionsMulti driver rolename database schemas w).2 = Ok result) →
       driver (issued w ++ readPhase rolename database schemas) first = Throw e →
       (run w).2 = Throw e
       ∧ sent run w = readPhase rolename database schemas ++ [first]).
Proof.
  intros run. split.
  - destruct (behaves_sent driver run _ _ w
                (grantWritePermissionsMulti_behaves driver rolename database schemas))
      as (d & -> & Hp & _).
    by apply prefix_of_app_split.
  - intros first e Hfirst [result Hread] Hfail.
    destruct (grantWritePermissionsMulti_behaves driver rolename database schemas w)
      as [Hlog Hres].
    fold run in Hlog, Hres. unfold sent.
    rewrite Hlog, Hres, run_plan_app.
    rewrite (behaves_completed _ _ _ _ _ _
               (grantReadPermissionsMulti_behaves driver rolename database schemas) Hread).
    destruct (writePhase rolename schemas) as [|q plan]; [done|].
    injection Hfirst as ->. cbn [run_plan]. rewrite Hfail. cbn [fst snd].
    by rewrite <- app_assoc, drop_app_length.
Qed.

Lemma grantWriteMulti_read_phase_first_witness :
  let run := grantWritePermissionsMulti rejectInsert "app_rw" "mydb" ["public"; "sales"] in
  let first := stmt "GRANT INSERT, UPDATE, DELETE ON ALL TABLES IN SCHEMA public TO app_rw;" in
  let e := {| err_message := "permission denied" |} in
  head (writePhase "app_rw" ["public"; "sales"]) = Some first
  ∧ (∃ result,
        (grantReadPermissionsMulti rejectInsert "app_rw" "mydb" ["public"; "sales"]
           emptyWorld).2 = Ok result)
  ∧ rejectInsert (issued emptyWorld ++ readPhase "app_rw" "mydb" ["public"; "sales"]) first
    = Throw e
  ∧ (run emptyWorld).2 = Throw e
  ∧ sent run emptyWorld = readPhase "app_rw" "mydb" ["public"; "sales"] ++ [first].
Proof.
  intros run first e.
  assert (head (writePhase "app_rw" ["public"; "sales"]) = Some first) as H1 by reflexivity.
  assert (∃ result,
             (grantReadPermissionsMulti rejectInsert "app_rw" "mydb" ["public"; "sales"]
                emptyWorld).2 = Ok result) as H2 by (eexists; reflexivity).
  assert (rejectInsert (issued emptyWorld ++ readPhase "app_rw" "mydb" ["public"; "sales"])
            first = Throw e) as H3 by reflexivity.
  split_and!; [exact H1 | exact H2 | exact H3 | |];
    apply (proj2 (grantWriteMulti_read_phase_first rejectInsert "app_rw" "mydb"
                    ["public"; "sales"] emptyWorld) first e H1 H2 H3).
Defined.

(** * The reserved-prefix guard *)

Lemma run_plan_first driver q plan log :
  ∃ d, (run_plan driver (q :: plan) log).1 = log ++ q :: d.
Proof.
  simpl. destruct (driver log q) as [rows|e]; simpl.
  - destruct (run_plan_log driver plan (log ++ [q])) as (d & -> & _).
    exists d. by rewrite <- app_assoc.
  - by exists [].
Qed.

Lemma behaves_sends {A} driver (m : M A) plan v w :
  behaves driver m plan v → plan ≠ [] → sent m w ≠ [].
Proof.
  intros Hm Hne. destruct plan as [|q plan]; [done|].
  destruct (Hm w) as [Hlog _]. unfold sent. rewrite Hlog.
  destruct (run_plan_first driver q plan (issued w)) as [d ->].
  by rewrite drop_app_length.
Qed.

Lemma assignUserToRole_behaves driver username rolename :
  behaves driver (assignUserToRole driver username rolename)
    [stmt ("GRANT " +:+ rolename +:+ " TO " +:+ username +:+ ";")]
    {| success := true;
       message := "User " +:+ username +:+ " assigned to role " +:+ rolename
                  +:+ " successfully" |}.
Proof. unfold assignUserToRole. step_queries. Qed.

Lemma removeUserFromRole_behaves driver username rolename :
  behaves driver (removeUserFromRole driver username rolename)
    [stmt ("REVOKE " +:+ rolename +:+ " FROM " +:+ username +:+ ";")]
    {| success := true;
       message := "User " +:+ username +:+ " removed from role " +:+ rolename
                  +:+ " successfully" |}.
Proof. unfold removeUserFromRole. step_queries. Qed.

(** The five guarded functions, one lemma each. *)
Lemma createUser_reserved driver username password w :
  reserved username = true →
  ∃ result, createUser driver username password w = (w, Ok result) ∧ success result = false.
Proof. unfold reserved, createUser, try_catch. intros ->. by eexists. Qed.

Lemma updateUserPassword_reserved driver username newPassword w :
  reserved username = true →
  ∃ result, updateUserPassword driver username newPassword w = (w, Ok result)
            ∧ success result = false.
Proof. unfold reserved, updateUserPassword, try_catch. intros ->. by eexists. Qed.

Lemma deleteUser_reserved driver username w :
  reserved username = true →
  ∃ result, deleteUser driver username w = (w, Ok result) ∧ success result = false.
Proof. unfold reserved, deleteUser, try_catch. intros ->. by eexists. Qed.

Lemma createRole_reserved driver rolename w :
  reserved rolename = true →
  ∃ result, createRole driver rolename w = (w, Ok result) ∧ success result = false.
Proof. unfold reserved, createRole, try_catch. intros ->. by eexists. Qed.

Lemma deleteRole_reserved driver rolename w :
  reserved rolename = true →
  ∃ result, deleteRole driver rolename w = (w, Ok result) ∧ success result = false.
Proof. unfold reserved, deleteRole, try_catch. intros ->. by eexists. Qed.

(** C4.  For a user or role name that starts with [pg_] or [rds_],
    [createUser], [updateUserPassword], [deleteUser], [createRole] and
    [deleteRole] return a result with [success = false] and leave the
    world as it was: no statement is sent (the database is not
    consulted) and nothing is printed. *)
Theorem reserved_names_fail_fast driver name secret w :
  reserved name = true →
  (∃ result, createUser driver name secret w = (w, Ok result) ∧ success result = false)
  ∧ (∃ result, updateUserPassword driver name secret w = (w, Ok result)
               ∧ success result = false)
  ∧ (∃ result, deleteUser driver name w = (w, Ok result) ∧ success result = false)
  ∧ (∃ result, createRole driver name w = (w, Ok result) ∧ success result = false)
  ∧ (∃ result, deleteRole driver name w = (w, Ok result) ∧ success result = false).
Proof.
  intros H. split_and!.
  - by apply createUser_reserved.
  - by apply updateUserPassword_reserved.
  - by apply deleteUser_reserved.
  - by apply createRole_reserved.
  - by apply deleteRole_reserved.
Qed.

(** C1, as stated, fails: [grantReadPermissions] on the reserved role
    [pg_monitor] is not turned down; it sends its four statements and
    reports success. *)
Lemma reserved_grant_is_performed :
  ¬ (∀ driver op w,
       (∃ name, name ∈ targets op ∧ reserved name = true) → rejected driver op w).
Proof.
  intros H.
  destruct (H acceptAll (GrantRead "pg_monitor" "mydb" "public") emptyWorld)
    as (result & Hrun & _).
  - exists "pg_monitor". split; [apply list_elem_of_here | reflexivity].
  - vm_compute in Hrun. discriminate Hrun.
Qed.

(** C1, amended.  The operations that start with the reserved-prefix
    test ([createUser], [updateUserPassword], [deleteUser],
    [createRole], [deleteRole]) turn down a reserved target with a
    failure result and without sending a statement; every other
    mutating operation (role membership, grants and revokes, single- or
    multi-schema) has no such test and sends at least one statement
    whatever the names are. *)
Theorem reserved_guard_scope driver op w :
  (guarded op = true →
   (∃ name, name ∈ targets op ∧ reserved name = true) → rejected driver op w)
  ∧ (guarded op = false → sent (perform driver op) w ≠ []).
Proof.
  split.
  - intros Hg (name & Hin & Hres). unfold rejected.
    destruct op; try discriminate Hg; simpl in *;
      apply list_elem_of_singleton in Hin; subst name.
    + by apply createUser_reserved.
    + by apply updateUserPassword_reserved.
    + by apply deleteUser_reserved.
    + by apply createRole_reserved.
    + by apply deleteRole_reserved.
  - intros Hg. destruct op; try discriminate Hg; cbn [perform].
    + eapply behaves_sends; [apply assignUserToRole_behaves|done].
    + eapply behaves_sends; [apply removeUserFromRole_behaves|done].
    + eapply behaves_sends; [apply grantReadPermissions_behaves|done].
    + eapply behaves_sends; [apply grantWritePermissions_behaves|done].
    + eapply behaves_sends; [apply revokeAllPermissions_behaves|done].
    + eapply behaves_sends; [apply grantReadPermissionsMulti_behaves|done].
    + eapply behaves_sends; [apply grantWritePermissionsMulti_behaves|done].
    + eapply behaves_sends; [apply revokeAllPermissionsMulti_behaves|].
      by destruct (concat _).
Qed.

Lemma reserved_names_fail_fast_witness :
  reserved "pg_monitor" = true
  ∧ ∃ result, deleteRole acceptAll "pg_monitor" emptyWorld = (emptyWorld, Ok result)
              ∧ success result = false.
Proof.
  split; [reflexivity|].
  apply (reserved_names_fail_fast acceptAll "pg_monitor" "secret" emptyWorld eq_refl).
Defined.

Lemma reserved_guard_scope_witness :
  guarded (CreateRole "rds_admin") = true
  ∧ (∃ name, name ∈ targets (CreateRole "rds_admin") ∧ reserved name = true)
  ∧ rejected acceptAll (CreateRole "rds_admin") emptyWorld
  ∧ guarded (GrantRead "pg_monitor" "mydb" "public") = false
  ∧ sent (perform acceptAll (GrantRead "pg_monitor" "mydb" "public")) emptyWorld ≠ [].
Proof.
  assert (∃ name, name ∈ targets (CreateRole "rds_admin") ∧ reserved name = true) as H.
  { exists "rds_admin". split; [apply list_elem_of_here | reflexivity]. }
  split_and!; [reflexivity | exact H | | reflexivity |].
  - exact (proj1 (reserved_guard_scope acceptAll (CreateRole "rds_admin") emptyWorld)
             eq_refl H).
  - exact (proj2 (reserved_guard_scope acceptAll (GrantRead "pg_monitor" "mydb" "public")
                    emptyWorld) eq_refl).
Defined.


(** * The permission report of [listPermissions] *)

Section Report.

Variable driver : Driver.

(** A statement of the log that the driver rejects ends the plan with
    that error. *)
Lemma run_plan_rejection plan log d i q e :
  (run_plan driver plan log).1 = log ++ d →
  d !! i = Some q →
  driver (log ++ take i d) q = Throw e →
  (run_plan driver plan log).2 = Some e.
Proof.
  revert log d i. induction plan as [|q0 plan IH]; intros log d i; simpl.
  - intros Hd. rewrite <- (app_nil_r log) in Hd at 1. apply app_inv_head in Hd.
    subst d. done.
  - destruct (driver log q0) as [rows|e0] eqn:H0; simpl.
    + destruct (run_plan_log driver plan (log ++ [q0])) as (d' & Hd' & _).
      intros Hd. rewrite Hd', <- app_assoc in Hd. apply app_inv_head in Hd. subst d.
      destruct i as [|i]; simpl.
      * intros [= <-]. rewrite app_nil_r. congruence.
      * intros Hq Hfail. apply (IH (log ++ [q0]) d' i); [done..|].
        by rewrite <- app_assoc.
    + intros Hd. apply app_inv_head in Hd. subst d.
      destruct i as [|i]; simpl; [|done].
      intros [= <-]. rewrite app_nil_r. congruence.
Qed.

(** If no statement of the log is rejected, the plan ran to its end. *)
Lemma run_plan_answered plan log d :
  (run_plan driver plan log).1 = log ++ d →
  (∀ i q, d !! i = Some q → ∃ rows, driver (log ++ take i d) q = Ok rows) →
  (run_plan driver plan log).2 = None.
Proof.
  revert log d. induction plan as [|q0 plan IH]; intros log d; simpl; [done|].
  destruct (driver log q0) as [rows|e0] eqn:H0; simpl.
  - destruct (run_plan_log driver plan (log ++ [q0])) as (d' & Hd' & _).
    intros Hd. rewrite Hd', <- app_assoc in Hd. apply app_inv_head in Hd. subst d.
    intros Hall. apply (IH (log ++ [q0]) d'); [done|].
    intros i q Hq. rewrite <- app_assoc. apply (Hall (S i) q Hq).
  - intros Hd. apply app_inv_head in Hd. subst d.
    intros Hall. destruct (Hall 0%nat q0 eq_refl) as [rows Hrows].
    simpl in Hrows. rewrite app_nil_r in Hrows. congruence.
Qed.

(** [listPermissions] follows the plan of its six queries; when the
    plan runs to its end the report is returned. *)
Lemma listPermissions_run rolename w :
  issued (listPermissions driver rolename w).1
    = (run_plan driver (reportQueries rolename) (issued w)).1
  ∧ match (run_plan driver (reportQueries rolename) (issued w)).2 with
    | Some e => (listPermissions driver rolename w).2 = Throw e
    | None =>
        ∃ report, (listPermissions driver rolename w).2 = Ok report
                  ∧ functionPermissions report = []
                  ∧ defaultPrivileges report = []
                  ∧ description report = VNull
    end.
Proof.
  unfold listPermissions, try_catch, bind, db_query, reportQueries, ret.
  cbn [map run_plan issued console].
  repeat match goal with
         | |- context [driver ?log ?q] =>
             destruct (driver log q) as [?rows|?e]; cbn [issued console fst snd];
             [|done]
         end.
  split; [done|]. eexists. done.
Qed.

End Report.

(** C5.  [listPermissions] sends its six catalog queries in order and
    stops at the first one the database rejects.  If any query it sent
    was rejected with an error [e], it returns no report and throws
    that same [e]; if none was rejected, all six were sent and a report
    is returned. *)
Theorem listPermissions_all_or_nothing driver rolename w :
  let log := sent (listPermissions driver rolename) w in
  let result := (listPermissions driver rolename w).2 in
  log `prefix_of` reportQueries rolename
  ∧ (∀ i q e,
       log !! i = Some q → driver (issued w ++ take i log) q = Throw e →
       result = Throw e)
  ∧ ((∀ i q, log !! i = Some q → ∃ rows, driver (issued w ++ take i log) q = Ok rows) →
     log = reportQueries rolename ∧ ∃ report, result = Ok report).
Proof.
  intros log result. subst log result. unfold sent.
  destruct (listPermissions_run driver rolename w) as [Hlog Hres]. rewrite Hlog.
  destruct (run_plan_log driver (reportQueries rolename) (issued w)) as (d & Hd & Hp & Hn).
  rewrite Hd, drop_app_length. split_and!.
  - done.
  - intros i q e Hq Hfail.
    by rewrite (run_plan_rejection driver _ _ _ _ _ _ Hd Hq Hfail) in Hres.
  - intros Hall.
    pose proof (run_plan_answered driver _ _ _ Hd Hall) as Hnone.
    rewrite Hnone in Hres. destruct Hres as (report & Hr & _).
    split; [by apply Hn | by exists report].
Qed.

Lemma listPermissions_all_or_nothing_witness :
  let run := listPermissions rejectColumns "app_read_only" in
  let q := {| text := columnPermsSql; values := [VStr "app_read_only"] |} in
  let e := {| err_message := "permission denied for column_privileges" |} in
  sent run emptyWorld !! 3%nat = Some q
  ∧ rejectColumns (issued emptyWorld ++ take 3 (sent run emptyWorld)) q = Throw e
  ∧ (run emptyWorld).2 = Throw e.
Proof.
  intros run q e.
  assert (sent run emptyWorld !! 3%nat = Some q) as H1 by (vm_compute; reflexivity).
  assert (rejectColumns (issued emptyWorld ++ take 3 (sent run emptyWorld)) q = Throw e)
    as H2 by (vm_compute; reflexivity).
  split_and!; [exact H1 | exact H2 |].
  exact (proj1 (proj2 (listPermissions_all_or_nothing rejectColumns "app_read_only" emptyWorld))
           3%nat q e H1 H2).
Defined.

(** C10.  Whenever [listPermissions] returns a report, its
    [functionPermissions] and [defaultPrivileges] are empty and its
    [description] is [null]; yet the help text of the command lists
    function permissions among what is displayed. *)
Theorem listPermissions_function_fields_empty driver rolename w report :
  (listPermissions driver rolename w).2 = Ok report →
  functionPermissions report = []
  ∧ defaultPrivileges report = []
  ∧ description report = VNull
  ∧ "  - Function permissions (for system roles)" ∈ listPermissionsHelp.
Proof.
  intros Hok. destruct (listPermissions_run driver rolename w) as [_ Hres].
  destruct ((run_plan driver (reportQueries rolename) (issued w)).2) as [e|].
  - congruence.
  - destruct Hres as (report' & Hr & Hf & Hd & Hn).
    assert (report' = report) as -> by congruence.
    split_and!; [done..|].
    unfold listPermissionsHelp. do 6 apply list_elem_of_further. apply list_elem_of_here.
Qed.

Lemma listPermissions_function_fields_empty_witness :
  ∃ report,
    (listPermissions acceptAll "app_read_only" emptyWorld).2 = Ok report
    ∧ functionPermissions report = []
    ∧ defaultPrivileges report = []
    ∧ description report = VNull.
Proof.
  eexists. split; [reflexivity|].
  pose proof (listPermissions_function_fields_empty acceptAll "app_read_only" emptyWorld _
                eq_refl) as H.
  split_and!; apply H.
Defined.


(** * Report shaping *)

(** C6, as stated, fails on the deduplication: two rows with the same
    table and privilege give a group that holds the privilege twice. *)
Lemma table_privileges_not_deduplicated :
  ¬ (∀ tables byTable k privileges,
       tablePermsByTable tables = Ok byTable →
       byTable !! k = Some privileges →
       NoDup privileges).
Proof.
  intros H.
  assert (∃ byTable, tablePermsByTable duplicateGrant = Ok byTable
                     ∧ byTable !! "public.orders" = Some [VStr "SELECT"; VStr "SELECT"])
    as (byTable & Hrun & Hk).
  { eexists. split; [reflexivity|]. vm_compute. reflexivity. }
  specialize (H _ _ _ _ Hrun Hk).
  apply NoDup_cons_1_1 in H. apply H, list_elem_of_here.
Qed.


Lemma hasDot_app a b : hasDot (a +:+ "." +:+ b) = true.
Proof. unfold hasDot. induction a as [|c a IH]; simpl; [done|]. by rewrite IH, orb_true_r. Qed.

Lemma tableKey_not_inherited p : tableKey p ∉ objectPrototype.
Proof.
  intros Hin.
  assert (Forall (λ s, hasDot s = false) objectPrototype) as Hall.
  { unfold objectPrototype. repeat constructor. }
  rewrite Forall_forall in Hall. specialize (Hall _ Hin).
  unfold tableKey in Hall. by rewrite hasDot_app in Hall.
Qed.

Lemma privilegesOf_snoc select rows p :
  privilegesOf select (rows ++ [p])
  = privilegesOf select rows ++ (if select p then [privilege p] else []).
Proof.
  unfold privilegesOf. rewrite List.filter_app, map_app. simpl. by destruct (select p).
Qed.

Lemma group_snoc {A} (l : list A) x : group (l ++ [x]) = Some (l ++ [x]).
Proof. by destruct l. Qed.

Lemma group_None {A} (l : list A) : group l = None → l = [].
Proof. by destruct l. Qed.

Lemma group_Some {A} (l l' : list A) : group l = Some l' → l = l'.
Proof. destruct l; [done|]. by intros [= <-]. Qed.

Lemma forEach_invariant {A S} (P : A → Prop) (I : list A → S → Prop)
    (step : S → A → outcome S) (rows : list A) :
  (∀ pre acc p, P p → I pre acc → ∃ acc', step acc p = Ok acc' ∧ I (pre ++ [p]) acc') →
  Forall P rows →
  ∀ pre acc, I pre acc → ∃ acc', forEach rows step acc = Ok acc' ∧ I (pre ++ rows) acc'.
Proof.
  intros Hstep Hrows. induction Hrows as [|p rows Hp _ IH]; intros pre acc Hacc.
  - exists acc. by rewrite app_nil_r.
  - cbn [forEach]. destruct (Hstep pre acc p Hp Hacc) as (acc' & -> & Hacc').
    destruct (IH _ _ Hacc') as (acc'' & Hrun & Hinv).
    exists acc''. split; [done|]. by rewrite <- app_assoc in Hinv.
Qed.

Lemma tablePermsByTable_groups rows :
  ∃ byTable, tablePermsByTable rows = Ok byTable
             ∧ ∀ k, byTable !! k = group (privilegesOf (onTable k) rows).
Proof.
  unfold tablePermsByTable.
  apply (forEach_invariant (λ _, True)
           (λ pre (acc : gmap string (list Val)),
              ∀ k, acc !! k = group (privilegesOf (onTable k) pre)) _ rows)
    with (pre := []); [| by apply Forall_true | done].
  intros pre acc p _ Hacc. cbv beta zeta. fold (tableKey p). fold (privilege p).
  set (tk := tableKey p). pose proof (Hacc tk) as Htk.
  destruct (acc !! tk) as [privs|] eqn:E.
  - assert (slot acc tk = Own privs) as Hslot by (unfold slot; by rewrite E).
    rewrite !Hslot. eexists. split; [done|].
    intros k. rewrite privilegesOf_snoc. unfold onTable at 2. fold tk.
    destruct (String.eqb_spec tk k) as [<-|Hne].
    + rewrite lookup_insert_eq, group_snoc. by rewrite (group_Some _ _ (eq_sym Htk)).
    + rewrite lookup_insert_ne, app_nil_r by done. apply Hacc.
  - assert (slot acc tk = Absent) as Hslot.
    { unfold slot. rewrite E. by rewrite bool_decide_eq_false_2 by apply tableKey_not_inherited. }
    rewrite !Hslot. unfold slot. rewrite lookup_insert_eq. eexists. split; [done|].
    intros k. rewrite privilegesOf_snoc. unfold onTable at 2. fold tk.
    destruct (String.eqb_spec tk k) as [<-|Hne].
    + rewrite lookup_insert_eq. by rewrite (group_None _ (eq_sym Htk)).
    + rewrite !lookup_insert_ne, app_nil_r by done. apply Hacc.
Qed.

Lemma permsByTable_groups rows :
  (∀ p, p ∈ rows → toStr (prop p "column_name") ∉ objectPrototype) →
  ∃ byTable, permsByTable rows = Ok byTable
             ∧ ∀ k c, (byTable !! k ≫= (.!! c)) = group (privilegesOf (onColumn k c) rows).
Proof.
  intros Hcols. unfold permsByTable.
  apply (forEach_invariant (λ p, toStr (prop p "column_name") ∉ objectPrototype)
           (λ pre (acc : gmap string (gmap string (list Val))),
              ∀ k c, (acc !! k ≫= (.!! c)) = group (privilegesOf (onColumn k c) pre)) _ rows)
    with (pre := []); [| by apply Forall_forall | done].
  intros pre acc p Hp Hacc. cbv beta zeta. fold (tableKey p). fold (privilege p).
  set (tk := tableKey p). set (cn := toStr (prop p "column_name")) in *.
  assert (∃ cols, slot (match slot acc tk with
                        | Absent => <[tk := ∅]> acc
                        | _ => acc
                        end) tk = Own cols
                  ∧ (∀ k, k ≠ tk →
                       match slot acc tk with
                       | Absent => <[tk := ∅]> acc
                       | _ => acc
                       end !! k = acc !! k)
                  ∧ ∀ c, cols !! c = (acc !! tk ≫= (.!! c))) as (cols & -> & Hother & Hcols').
  { destruct (acc !! tk) as [cols|] eqn:E.
    - assert (slot acc tk = Own cols) as Hslot by (unfold slot; by rewrite E).
      rewrite !Hslot. exists cols. done.
    - assert (slot acc tk = Absent) as Hslot.
      { unfold slot. rewrite E.
        by rewrite bool_decide_eq_false_2 by apply tableKey_not_inherited. }
      rewrite !Hslot. exists ∅. unfold slot. rewrite lookup_insert_eq.
      split; [done|]. split; [|done]. intros k Hk. by rewrite lookup_insert_ne. }
  set (acc1 := match slot acc tk with Absent => <[tk := ∅]> acc | _ => acc end) in *.
  pose proof (Hacc tk cn) as Hcn. rewrite <- Hcols' in Hcn.
  assert (∃ privs, slot (match slot cols cn with
                         | Absent => <[cn := []]> cols
                         | _ => cols
                         end) cn = Own privs
                   ∧ (∀ c, c ≠ cn →
                        match slot cols cn with
                        | Absent => <[cn := []]> cols
                        | _ => cols
                        end !! c = cols !! c)
                   ∧ privs = privilegesOf (onColumn tk cn) pre) as (privs & -> & Hc & ->).
  { destruct (cols !! cn) as [privs|] eqn:E.
    - assert (slot cols cn = Own privs) as Hslot by (unfold slot; by rewrite E).
      rewrite !Hslot. exists privs. split; [done|]. split; [done|].
      by rewrite (group_Some _ _ (eq_sym Hcn)).
    - assert (slot cols cn = Absent) as Hslot.
      { unfold slot. rewrite E. by rewrite bool_decide_eq_false_2. }
      rewrite !Hslot. exists []. unfold slot. rewrite lookup_insert_eq.
      split; [done|]. split; [intros c Hne; by rewrite lookup_insert_ne|].
      by rewrite (group_None _ (eq_sym Hcn)). }
  set (cols1 := match slot cols cn with Absent => <[cn := []]> cols | _ => cols end) in *.
  eexists. split; [done|].
  intros k c. rewrite privilegesOf_snoc.
  assert (onColumn k c p = String.eqb tk k && String.eqb cn c) as -> by reflexivity.
  destruct (String.eqb_spec tk k) as [<-|Hk].
  - rewrite lookup_insert_eq. cbn [mbind option_bind andb].
    destruct (String.eqb_spec cn c) as [<-|Hc'].
    + by rewrite lookup_insert_eq, group_snoc.
    + rewrite lookup_insert_ne, Hc, app_nil_r, Hcols' by done. apply Hacc.
  - rewrite lookup_insert_ne, Hother, app_nil_r by done. apply Hacc.
Qed.

Lemma truthy_js_or a b : truthy (js_or a b) = truthy a || truthy b.
Proof. unfold js_or. by destruct (truthy a) eqn:E; simpl. Qed.

Lemma distinct_keys (keys : list string) :
  ∃ distinct, NoDup distinct ∧ (∀ k, k ∈ distinct ↔ k ∈ keys)
              ∧ size (list_to_set keys : gset string) = length distinct.
Proof.
  exists (elements (list_to_set keys : gset string)).
  split; [apply NoDup_elements|]. split; [|done].
  intros k. by rewrite elem_of_elements, elem_of_list_to_set.
Qed.


(** C6, amended.  The report shaping computes: [hasRead] iff some table
    grant has privilege SELECT; [hasWrite] iff some table grant has
    privilege INSERT, UPDATE or DELETE; [hasAdmin] truthy iff superuser
    or create-db or create-role is; the numbers of distinct
    [schema.table] keys among the table grants and of distinct
    [schema.table.column] keys among the column grants; the table
    grants grouped by [schema.table] key, each group holding the
    privilege kinds of its rows in row order, repetitions kept; and,
    when no column is named like an inherited object property, the
    column grants grouped the same way by [schema.table] key and then
    column name. *)
Theorem report_shaping permissions :
  let summary := displayQuickSummary permissions in
  let tables := tablePermissions permissions in
  let columns := columnPermissions permissions in
  let details := roleDetails permissions in
  (hasReadPermissions summary = true ↔ ∃ p, p ∈ tables ∧ privilege p = VStr "SELECT")
  ∧ (hasWritePermissions summary = true
     ↔ ∃ p, p ∈ tables ∧ privilege p ∈ [VStr "INSERT"; VStr "UPDATE"; VStr "DELETE"])
  ∧ truthy (hasAdminPermissions summary)
    = truthy (prop details "rolsuper") || truthy (prop details "rolcreatedb")
      || truthy (prop details "rolcreaterole")
  ∧ (∃ keys, NoDup keys ∧ (∀ k, k ∈ keys ↔ ∃ p, p ∈ tables ∧ tableKey p = k)
             ∧ totalTables summary = length keys)
  ∧ (∃ keys, NoDup keys ∧ (∀ k, k ∈ keys ↔ ∃ p, p ∈ columns ∧ columnKey p = k)
             ∧ totalColumns summary = length keys)
  ∧ (∃ byTable, tablePermsByTable tables = Ok byTable
                ∧ ∀ k, byTable !! k = group (privilegesOf (onTable k) tables))
  ∧ ((∀ p, p ∈ columns → toStr (prop p "column_name") ∉ objectPrototype) →
     ∃ byTable, permsByTable columns = Ok byTable
                ∧ ∀ k c, (byTable !! k ≫= (.!! c))
                         = group (privilegesOf (onColumn k c) columns)).
Proof.
  intros summary tables columns details. subst summary tables columns details.
  unfold displayQuickSummary. cbn [hasReadPermissions hasWritePermissions
    hasAdminPermissions totalTables totalColumns].
  split_and!.
  - rewrite existsb_exists. split.
    + intros (p & Hin & Hp). exists p. rewrite list_elem_of_In.
      split; [done|]. by apply bool_decide_eq_true in Hp.
    + intros (p & Hin & Hp). exists p. rewrite <- list_elem_of_In.
      split; [done|]. by apply bool_decide_eq_true.
  - rewrite existsb_exists. split.
    + intros (p & Hin & Hp). exists p. rewrite list_elem_of_In.
      split; [done|]. by apply bool_decide_eq_true in Hp.
    + intros (p & Hin & Hp). exists p. rewrite <- list_elem_of_In.
      split; [done|]. by apply bool_decide_eq_true.
  - by rewrite !truthy_js_or.
  - destruct (distinct_keys (map tableKey (tablePermissions permissions)))
      as (keys & Hnd & Hin & Hsize).
    exists keys. split; [done|]. split; [|done].
    intros k. rewrite Hin, list_elem_of_fmap.
    split; [intros (p & -> & Hp); by exists p | intros (p & Hp & <-); by exists p].
  - destruct (distinct_keys (map columnKey (columnPermissions permissions)))
      as (keys & Hnd & Hin & Hsize).
    exists keys. split; [done|]. split; [|exact Hsize].
    intros k. rewrite Hin, list_elem_of_fmap.
    split; [intros (p & -> & Hp); by exists p | intros (p & Hp & <-); by exists p].
  - apply tablePermsByTable_groups.
  - apply permsByTable_groups.
Qed.

Lemma report_shaping_witness :
  (∀ p, p ∈ columnPermissions sampleReport → toStr (prop p "column_name") ∉ objectPrototype)
  ∧ ∃ byTable, permsByTable (columnPermissions sampleReport) = Ok byTable
               ∧ ∀ k c, (byTable !! k ≫= (.!! c))
                        = group (privilegesOf (onColumn k c) (columnPermissions sampleReport)).
Proof.
  assert (∀ p, p ∈ columnPermissions sampleReport
               → toStr (prop p "column_name") ∉ objectPrototype) as H.
  { intros p Hp. apply list_elem_of_singleton in Hp. subst p.
    intros Hin. pose proof (bool_decide_pack _ Hin) as Hb. vm_compute in Hb. exact Hb. }
  split; [exact H|].
  apply (report_shaping sampleReport), H.
Defined.

(** The side condition on column names is needed: on a column called
    [constructor] the lookup finds the inherited property, no array is
    created, and [.push] throws. *)
Example permsByTable_inherited_column :
  permsByTable inheritedColumnGrant = Throw notAFunction.
Proof. vm_compute. reflexivity. Qed.

(** * The password generator *)

Lemma list_ascii_app (a b : string) :
  String.list_ascii_of_string (a +:+ b)
  = String.list_ascii_of_string a ++ String.list_ascii_of_string b.
Proof. induction a as [|c a IH]; simpl; [done|]. by rewrite IH. Qed.

Lemma string_of_list_length (l : list ascii) :
  String.length (String.string_of_list_ascii l) = length l.
Proof. induction l as [|c l IH]; simpl; [done|]. by rewrite IH. Qed.

Lemma list_ascii_length (s : string) :
  length (String.list_ascii_of_string s) = String.length s.
Proof. induction s as [|c s IH]; simpl; [done|]. by rewrite IH. Qed.

Lemma charAt_in_range (s : string) (i : nat) :
  (i < String.length s)%nat →
  ∃ c, charAt s i = String c EmptyString ∧ c ∈ String.list_ascii_of_string s.
Proof.
  revert i. induction s as [|c s IH]; intros i Hi; simpl in Hi; [lia|].
  destruct i as [|i].
  - exists c. split; [done|]. apply list_elem_of_here.
  - destruct (IH i ltac:(lia)) as (c' & Hc & Hin).
    exists c'. split; [exact Hc|]. by apply list_elem_of_further.
Qed.

Lemma insert_swap_head {A} (l : list A) (j : nat) (x y : A) :
  l !! j = Some y → y :: <[j := x]> l ≡ₚ x :: l.
Proof.
  intros Hj. rewrite <- (take_drop_middle l j y Hj) at 2.
  rewrite (insert_take_drop l j x) by by eapply lookup_lt_Some.
  rewrite <- !Permutation_middle. apply perm_swap.
Qed.

Lemma swap_Permutation (a : list ascii) (i j : nat) : swap a i j ≡ₚ a.
Proof.
  unfold swap. destruct (a !! j) as [aj|] eqn:Hj; [|done].
  destruct (a !! i) as [ai|] eqn:Hi; [|done].
  revert i j Hi Hj. induction a as [|x a IH]; intros i j Hi Hj; [done|].
  destruct i as [|i], j as [|j]; simpl in *; simplify_eq.
  - done.
  - by apply insert_swap_head.
  - by apply insert_swap_head.
  - apply Permutation_skip. by apply IH.
Qed.

Section Generator.

Variable random : nat → Q.
Hypothesis random_range : ∀ k, (0 <= random k)%Q ∧ (random k < 1)%Q.

Lemma randomIndex_lt (k n : nat) : (0 < n)%nat → (randomIndex random k n < n)%nat.
Proof.
  intros Hn. unfold randomIndex. destruct (random_range k) as [H0 H1].
  set (x := (random k * inject_Z (Z.of_nat n))%Q).
  assert (0 <= x)%Q as Hx0.
  { unfold x. apply Qmult_le_0_compat; [done|]. unfold Qle; simpl. lia. }
  assert (x < inject_Z (Z.of_nat n))%Q as Hx1.
  { unfold x. rewrite <- (Qmult_1_l (inject_Z (Z.of_nat n))) at 2.
    apply Qmult_lt_compat_r; [|done]. unfold Qlt; simpl. lia. }
  assert (0 <= Qfloor x)%Z as Hf0.
  { change 0%Z with (Qfloor 0). by apply Qfloor_resp_le. }
  assert (Qfloor x < Z.of_nat n)%Z as Hf1.
  { rewrite Zlt_Qlt. eapply Qle_lt_trans; [apply Qfloor_le | done]. }
  lia.
Qed.

Lemma fill_spec chars remaining password k :
  (0 < String.length chars)%nat →
  ∃ more,
    String.list_ascii_of_string (fill random chars remaining password k).1
    = String.list_ascii_of_string password ++ more
    ∧ length more = remaining.
Proof.
  intros Hchars. revert password k.
  induction remaining as [|n IH]; intros password k; simpl.
  - exists []. by rewrite app_nil_r.
  - destruct (charAt_in_range chars (randomIndex random k (String.length chars)))
      as (c & Hc & _); [by apply randomIndex_lt|].
    destruct (IH (password +:+ charAt chars (randomIndex random k (String.length chars)))
                (S k)) as (more & Hmore & Hlen).
    rewrite Hmore, list_ascii_app, Hc, <- app_assoc. simpl.
    exists (c :: more). split; [done|]. simpl. by rewrite Hlen.
Qed.

Lemma shuffle_Permutation i passwordArray k :
  (shuffle random i passwordArray k).1 ≡ₚ passwordArray.
Proof.
  revert passwordArray k. induction i as [|i IH]; intros passwordArray k; simpl; [done|].
  rewrite IH. apply swap_Permutation.
Qed.

Lemma uppercase_chars c : c ∈ String.list_ascii_of_string uppercase → isUppercase c = true.
Proof.
  intros Hc.
  assert (Forall (λ c, isUppercase c = true) (String.list_ascii_of_string uppercase)) as H
    by (vm_compute; repeat constructor).
  rewrite Forall_forall in H. by apply H.
Qed.

Lemma numbers_chars c : c ∈ String.list_ascii_of_string numbers → isDigit c = true.
Proof.
  intros Hc.
  assert (Forall (λ c, isDigit c = true) (String.list_ascii_of_string numbers)) as H
    by (vm_compute; repeat constructor).
  rewrite Forall_forall in H. by apply H.
Qed.

(** C7.  With uppercase letters, numbers and special characters
    enabled and a requested length of at least 3,
    [generateSecurePassword] returns a string of exactly that length
    that holds an uppercase letter, a digit and a special character,
    whatever the random numbers drawn from the interval [0, 1). *)
Theorem generateSecurePassword_shape (length : Z) (k : nat) :
  (3 ≤ length)%Z →
  let password := (generateSecurePassword random length true true true k).1 in
  Z.of_nat (String.length password) = length
  ∧ (∃ c, c ∈ String.list_ascii_of_string password ∧ isUppercase c = true)
  ∧ (∃ c, c ∈ String.list_ascii_of_string password ∧ isDigit c = true)
  ∧ (∃ c, c ∈ String.list_ascii_of_string password ∧ isSpecial c = true).
Proof.
  intros Hlen password. subst password. unfold generateSecurePassword.
  destruct (charAt_in_range uppercase (randomIndex random k (String.length uppercase)))
    as (u & Hu & Huin); [by apply randomIndex_lt; vm_compute; lia|].
  destruct (charAt_in_range numbers (randomIndex random (S k) (String.length numbers)))
    as (d & Hd & Hdin); [by apply randomIndex_lt; vm_compute; lia|].
  destruct (charAt_in_range special (randomIndex random (S (S k)) (String.length special)))
    as (s & Hs & Hsin); [by apply randomIndex_lt; vm_compute; lia|].
  rewrite Hu, Hd, Hs. cbn [String.append String.length].
  set (chars := lowercase +:+ uppercase +:+ numbers +:+ special).
  change (((lowercase +:+ uppercase) +:+ numbers) +:+ special) with chars.
  destruct (fill_spec chars (Z.to_nat (length - Z.of_nat 3))
              (String u (String d (String s EmptyString))) (S (S (S k))))
    as (more & Hfill & Hmore); [vm_compute; lia|].
  destruct (fill random chars _ _ _) as [filled k'] eqn:Efill. cbn [fst] in Hfill.
  destruct (shuffle random _ _ _) as [shuffled k''] eqn:Eshuffle.
  assert (shuffled ≡ₚ String.list_ascii_of_string filled) as Hperm.
  { pose proof (shuffle_Permutation
                  (List.length (String.list_ascii_of_string filled) - 1)
                  (String.list_ascii_of_string filled) k') as H.
    by rewrite Eshuffle in H. }
  cbn [fst]. rewrite String.list_ascii_of_string_of_list_ascii, string_of_list_length.
  assert (∀ c, c ∈ [u; d; s] → c ∈ shuffled) as Hin.
  { intros c Hc. rewrite Hperm, Hfill. apply elem_of_app. by left. }
  split_and!.
  - rewrite Hperm, Hfill, length_app, Hmore. simpl. lia.
  - exists u. split; [apply Hin, list_elem_of_here | by apply uppercase_chars].
  - exists d. split; [apply Hin, list_elem_of_further, list_elem_of_here
                     | by apply numbers_chars].
  - exists s. split; [apply Hin; do 2 apply list_elem_of_further; apply list_elem_of_here
                     | by apply bool_decide_eq_true].
Qed.

End Generator.

Lemma generateSecurePassword_shape_witness :
  (∀ k : nat, (0 <= halfRandom k)%Q ∧ (halfRandom k < 1)%Q)
  ∧ (3 ≤ 16)%Z
  ∧ Z.of_nat (String.length (generateSecurePassword halfRandom 16 true true true 0).1)
    = 16%Z.
Proof.
  assert (∀ k : nat, (0 <= halfRandom k)%Q ∧ (halfRandom k < 1)%Q) as Hr.
  { intros k. unfold halfRandom, Qle, Qlt. simpl. lia. }
  assert (3 ≤ 16)%Z as Hlen by lia.
  split; [exact Hr|]. split; [exact Hlen|].
  apply (generateSecurePassword_shape halfRandom Hr 16 0 Hlen).
Defined.

(** * [listUsers] against the role catalog *)

Lemma like_rest (s : list ascii) :
  (fix any (s : list ascii) : bool :=
     Pg.like [] s || match s with [] => false | _ :: s' => any s' end) s = true.
Proof. induction s as [|c s IH]; simpl; [done|]. exact IH. Qed.

Lemma prefix_cons_eqb (a b : ascii) (p s : string) :
  String.prefix (String a p) (String b s) = Ascii.eqb b a && String.prefix p s.
Proof.
  cbn [String.prefix].
  destruct (ascii_dec a b) as [->|Hne].
  - by rewrite Ascii.eqb_refl.
  - destruct (Ascii.eqb_spec b a); [congruence | done].
Qed.

Lemma prefix_nil_r (a : ascii) (p : string) : String.prefix (String a p) EmptyString = false.
Proof. done. Qed.

Lemma prefix_nil_l (s : string) : String.prefix EmptyString s = true.
Proof. by destruct s. Qed.

Lemma like_pg (s : string) :
  Pg.like (String.list_ascii_of_string "pg\_%") (String.list_ascii_of_string s)
  = String.prefix "pg_" s.
Proof.
  destruct s as [|c1 [|c2 [|c3 s]]];
    rewrite ?prefix_cons_eqb, ?prefix_nil_r, ?prefix_nil_l; simpl;
    rewrite ?andb_false_r, ?andb_true_r; try done.
  by rewrite like_rest, !andb_true_r.
Qed.

Lemma like_rds (s : string) :
  Pg.like (String.list_ascii_of_string "rds\_%") (String.list_ascii_of_string s)
  = String.prefix "rds_" s.
Proof.
  destruct s as [|c1 [|c2 [|c3 [|c4 s]]]];
    rewrite ?prefix_cons_eqb, ?prefix_nil_r, ?prefix_nil_l; simpl;
    rewrite ?andb_false_r, ?andb_true_r; try done.
  by rewrite like_rest, !andb_true_r.
Qed.

Global Instance byName_total : Total Pg.byName.
Proof. intros a b. unfold Pg.byName. apply total, _. Qed.

Global Instance inOrder_total column descending : Total (Pg.inOrder column descending).
Proof. intros a b. unfold Pg.inOrder. destruct descending; apply total, _. Qed.

Lemma filter_tuples {A} (f : A → Row) (P : Row → bool) (l : list A) :
  List.filter P (map f l) = map f (List.filter (λ a, P (f a)) l).
Proof.
  induction l as [|a l IH]; [done|]. cbn [map List.filter].
  destruct (P (f a)); cbn [map]; by rewrite IH.
Qed.

Lemma Sorted_tuples {A} (f : A → Row) (R : relation Row) (l : list A) :
  Sorted R (map f l) → Sorted (λ a b, R (f a) (f b)) l.
Proof.
  induction l as [|a l IH]; [constructor|].
  cbn [map]. intros [Hs Hh]%Sorted_inv. constructor; [by apply IH|].
  destruct l; [constructor|]. cbn [map] in Hh. apply HdRel_inv in Hh. by constructor.
Qed.

(** The answer to a statement that orders by [column], over a table
    whose tuples are the [f a] for [a] in [l]: the selected entries of
    the tuples that satisfy every condition, in the order of
    [column]. *)
Lemma run_answer {A} db s table (f : A → Row) (l : list A) column :
  Pg.relation db (Pg.from s) = Some table →
  Pg.tuples table = map f l →
  forallb (λ c, bool_decide (c ∈ Pg.columns table)) (Pg.mentioned s) = true →
  Pg.order_by s = Some (column, false) →
  ∃ l',
    Pg.run db s = Ok (map (λ a, Pg.project (Pg.select_list s) (f a)) l')
    ∧ Sorted (λ a b, String.le (toStr (prop (f a) column)) (toStr (prop (f b) column))) l'
    ∧ ∀ a, a ∈ l' ↔ a ∈ l ∧ forallb (λ c, Pg.holds c (f a)) (Pg.where_clause s) = true.
Proof.
  intros Hrel Htuples Hcolumns Horder. unfold Pg.run.
  rewrite Hrel, Hcolumns, Horder, Htuples, filter_tuples.
  pose proof (merge_sort_Permutation (Pg.inOrder column false)
                (map f (List.filter
                          (λ a, forallb (λ c, Pg.holds c (f a)) (Pg.where_clause s)) l)))
    as Hsort.
  apply Permutation_map_inv in Hsort as (l' & Hl' & Hperm).
  exists l'. split; [|split].
  - by rewrite Hl', map_map.
  - apply (Sorted_tuples f (Pg.inOrder column false)). rewrite <- Hl'.
    apply Sorted_merge_sort, _.
  - intros a. by rewrite <- Hperm, list_elem_of_In, filter_In, <- list_elem_of_In.
Qed.

Lemma holds_login r b :
  Pg.holds (Pg.Compare "rolcanlogin" false (VBool b)) (Pg.roleTuple r)
  = Bool.eqb (Pg.rolcanlogin r) b.
Proof. by destruct r as [? ? ? []], b. Qed.

Lemma holds_name_not_like r pattern :
  Pg.holds (Pg.Matches "rolname" true pattern) (Pg.roleTuple r)
  = negb (Pg.like (String.list_ascii_of_string pattern)
                  (String.list_ascii_of_string (Pg.rolname r))).
Proof. reflexivity. Qed.

(** What the server reads in the two statements of [listUsers]. *)
Lemma listUsers_statement_read :
  Pg.read ((listUsersSelect
              +:+ " AND rolname NOT LIKE 'pg\_%' AND rolname NOT LIKE 'rds\_%'")
             +:+ " ORDER BY rolname;")
  = Some {| Pg.select_list :=
              [ ("rolname", "username"); ("rolsuper", "is_superuser");
                ("rolcreaterole", "can_create_role"); ("rolcanlogin", "can_login") ];
            Pg.from := "pg_roles";
            Pg.where_clause :=
              [ Pg.Compare "rolcanlogin" false (VBool true);
                Pg.Matches "rolname" true "pg\_%";
                Pg.Matches "rolname" true "rds\_%" ];
            Pg.order_by := Some ("rolname", false) |}.
Proof. vm_compute. reflexivity. Qed.

Lemma listUsers_system_statement_read :
  Pg.read (listUsersSelect +:+ " ORDER BY rolname;")
  = Some {| Pg.select_list :=
              [ ("rolname", "username"); ("rolsuper", "is_superuser");
                ("rolcreaterole", "can_create_role"); ("rolcanlogin", "can_login") ];
            Pg.from := "pg_roles";
            Pg.where_clause := [ Pg.Compare "rolcanlogin" false (VBool true) ];
            Pg.order_by := Some ("rolname", false) |}.
Proof. vm_compute. reflexivity. Qed.

(** [listUsers] returns what the server answers. *)
Lemma listUsers_answer driver includeSystemUsers w rows sql :
  sql = (if negb includeSystemUsers
         then listUsersSelect
              +:+ " AND rolname NOT LIKE 'pg\_%' AND rolname NOT LIKE 'rds\_%'"
         else listUsersSelect) +:+ " ORDER BY rolname;" →
  driver (issued w) (stmt sql) = Ok rows →
  (listUsers driver includeSystemUsers w).2 = Ok rows.
Proof.
  intros -> Hrun. unfold listUsers, try_catch, bind, db_query. unfold stmt in Hrun.
  by rewrite Hrun.
Qed.

(** The answer to [listUsers()]. *)
Lemma listUsers_default_answer db w :
  ∃ roles,
    (listUsers (Pg.driver db) false w).2 = Ok (map Pg.userRow roles)
    ∧ Sorted Pg.byName roles
    ∧ ∀ r, r ∈ roles
           ↔ r ∈ Pg.pg_roles db ∧ Pg.rolcanlogin r = true
             ∧ reserved (Pg.rolname r) = false.
Proof.
  destruct (run_answer db _ _ Pg.roleTuple (Pg.pg_roles db) "rolname"
              (eq_refl : Pg.relation db (Pg.from
                 {| Pg.select_list :=
                      [ ("rolname", "username"); ("rolsuper", "is_superuser");
                        ("rolcreaterole", "can_create_role");
                        ("rolcanlogin", "can_login") ];
                    Pg.from := "pg_roles";
                    Pg.where_clause :=
                      [ Pg.Compare "rolcanlogin" false (VBool true);
                        Pg.Matches "rolname" true "pg\_%";
                        Pg.Matches "rolname" true "rds\_%" ];
                    Pg.order_by := Some ("rolname", false) |}) = Some _)
              eq_refl eq_refl eq_refl) as (roles & Hrun & Hsorted & Hin).
  exists roles. split; [|split; [exact Hsorted|]].
  - eapply listUsers_answer; [reflexivity|].
    unfold Pg.driver, stmt. cbn [text negb]. by rewrite listUsers_statement_read, Hrun.
  - intros r. rewrite Hin. cbn [Pg.where_clause forallb].
    rewrite holds_login, !holds_name_not_like, like_pg, like_rds, andb_true_r.
    unfold reserved. rewrite !andb_true_iff, !negb_true_iff, orb_false_iff.
    destruct (Pg.rolcanlogin r); cbn [Bool.eqb]; intuition congruence.
Qed.

(** The answer to [listUsers(true)]. *)
Lemma listUsers_system_answer db w :
  ∃ roles,
    (listUsers (Pg.driver db) true w).2 = Ok (map Pg.userRow roles)
    ∧ Sorted Pg.byName roles
    ∧ ∀ r, r ∈ roles ↔ r ∈ Pg.pg_roles db ∧ Pg.rolcanlogin r = true.
Proof.
  destruct (run_answer db _ _ Pg.roleTuple (Pg.pg_roles db) "rolname"
              (eq_refl : Pg.relation db (Pg.from
                 {| Pg.select_list :=
                      [ ("rolname", "username"); ("rolsuper", "is_superuser");
                        ("rolcreaterole", "can_create_role");
                        ("rolcanlogin", "can_login") ];
                    Pg.from := "pg_roles";
                    Pg.where_clause := [ Pg.Compare "rolcanlogin" false (VBool true) ];
                    Pg.order_by := Some ("rolname", false) |}) = Some _)
              eq_refl eq_refl eq_refl) as (roles & Hrun & Hsorted & Hin).
  exists roles. split; [|split; [exact Hsorted|]].
  - eapply listUsers_answer; [reflexivity|].
    unfold Pg.driver, stmt. cbn [text negb].
    by rewrite listUsers_system_statement_read, Hrun.
  - intros r. rewrite Hin. cbn [Pg.where_clause forallb].
    rewrite holds_login, andb_true_r.
    destruct (Pg.rolcanlogin r); cbn [Bool.eqb]; intuition congruence.
Qed.

(** C8.  Over any state of the database, [listUsers(false)] returns
    exactly the roles that can log in and whose name starts with
    neither [pg_] nor [rds_], ordered by name; [listUsers(true)]
    returns every role that can log in, reserved names included,
    ordered by name.  The database reads the statement that
    [listUsers] sends: the condition on [rolcanlogin], the two
    patterns, the order and the names of the columns of the rows are
    those of its text. *)
Theorem listUsers_reserved_filter db w :
  (∃ roles,
      (listUsers (Pg.driver db) false w).2 = Ok (map Pg.userRow roles)
      ∧ Sorted Pg.byName roles
      ∧ ∀ r, r ∈ roles
             ↔ r ∈ Pg.pg_roles db ∧ Pg.rolcanlogin r = true
               ∧ reserved (Pg.rolname r) = false)
  ∧ (∃ roles,
      (listUsers (Pg.driver db) true w).2 = Ok (map Pg.userRow roles)
      ∧ Sorted Pg.byName roles
      ∧ ∀ r, r ∈ roles ↔ r ∈ Pg.pg_roles db ∧ Pg.rolcanlogin r = true).
Proof. split; [apply listUsers_default_answer | apply listUsers_system_answer]. Qed.

Example listUsers_sample_default :
  usernames (listUsers (Pg.driver sampleDatabase) false emptyWorld).2
  = [VStr "bob"; VStr "pgx"; VStr "zed"].
Proof. vm_compute. reflexivity. Qed.

Example listUsers_sample_system :
  usernames (listUsers (Pg.driver sampleDatabase) true emptyWorld).2
  = [VStr "bob"; VStr "pg_monitor"; VStr "pgx"; VStr "rds_admin"; VStr "zed"].
Proof. vm_compute. reflexivity. Qed.

(** * Further properties of the grant/revoke engine *)

Lemma run_plan_stops driver plan log d i q e :
  (run_plan driver plan log).1 = log ++ d →
  d !! i = Some q →
  driver (log ++ take i d) q = Throw e →
  length d = S i.
Proof.
  revert log d i. induction plan as [|q0 plan IH]; intros log d i; simpl.
  - intros Hd. rewrite <- (app_nil_r log) in Hd at 1. apply app_inv_head in Hd.
    subst d. done.
  - destruct (driver log q0) as [rows|e0] eqn:H0; simpl.
    + destruct (run_plan_log driver plan (log ++ [q0])) as (d' & Hd' & _).
      intros Hd. rewrite Hd', <- app_assoc in Hd. apply app_inv_head in Hd. subst d.
      destruct i as [|i]; simpl.
      * intros [= <-]. rewrite app_nil_r. congruence.
      * intros Hq Hfail. f_equal. apply (IH (log ++ [q0]) d' i); [done..|].
        by rewrite <- app_assoc.
    + intros Hd. apply app_inv_head in Hd. subst d.
      destruct i as [|i]; simpl; done.
Qed.

Lemma run_plan_accepted driver plan log :
  (run_plan driver plan log).2 = None →
  ∀ i q, plan !! i = Some q → ∃ rows, driver (log ++ take i plan) q = Ok rows.
Proof.
  revert log. induction plan as [|q0 plan IH]; intros log Hnone i q Hq; [done|].
  simpl in Hnone. destruct (driver log q0) as [rows|e0] eqn:H0; [|done].
  destruct i as [|i]; simpl in *.
  - injection Hq as <-. rewrite app_nil_r. by exists rows.
  - destruct (IH _ Hnone i q Hq) as [rows' Hrows]. exists rows'.
    by rewrite <- app_assoc in Hrows.
Qed.

(** Every operation follows its statements. *)
Lemma perform_behaves driver op :
  ∃ result, behaves driver (perform driver op) (statements op) result
            ∧ success result = negb (turnedDown op).
Proof.
  destruct op; cbn [perform statements]; unfold turnedDown; cbn [guarded targets existsb andb].
  1-5: rewrite orb_false_r;
       match goal with |- context [reserved ?n] => destruct (reserved n) eqn:E end;
       unfold reserved in E;
       unfold createUser, updateUserPassword, deleteUser, createRole, deleteRole;
       rewrite E; eexists; (split; [step_queries | done]).
  - eexists. split; [apply assignUserToRole_behaves | done].
  - eexists. split; [apply removeUserFromRole_behaves | done].
  - eexists. split; [apply grantReadPermissions_behaves | done].
  - eexists. split; [apply grantWritePermissions_behaves | done].
  - eexists. split; [apply revokeAllPermissions_behaves | done].
  - eexists. split; [apply grantReadPermissionsMulti_behaves | done].
  - eexists. split; [apply grantWritePermissionsMulti_behaves | done].
  - eexists. split; [apply revokeAllPermissionsMulti_behaves | done].
Qed.

(** X1.  Every mutating operation stops at the first statement the
    database rejects: if the database rejects the [i]-th statement the
    operation sends, the operation throws that same error and that
    statement is the last one sent; nothing is sent after a rejection
    and nothing is rolled back. *)
Theorem operations_stop_at_first_rejection driver op w i q e :
  sent (perform driver op) w !! i = Some q →
  driver (issued w ++ take i (sent (perform driver op) w)) q = Throw e →
  (perform driver op w).2 = Throw e
  ∧ length (sent (perform driver op) w) = S i.
Proof.
  destruct (perform_behaves driver op) as (result & Hb & _).
  destruct (Hb w) as [Hlog Hres]. unfold sent. rewrite Hlog.
  destruct (run_plan_log driver (statements op) (issued w)) as (d & Hd & _).
  rewrite Hd, drop_app_length. intros Hq Hfail. split.
  - by rewrite Hres, (run_plan_rejection driver _ _ _ _ _ _ Hd Hq Hfail).
  - by apply (run_plan_stops driver _ _ _ _ _ _ Hd Hq Hfail).
Qed.

Lemma operations_stop_at_first_rejection_witness :
  let op := GrantWrite "app_rw" "mydb" "public" in
  let q := stmt "ALTER DEFAULT PRIVILEGES IN SCHEMA public GRANT SELECT ON TABLES TO app_rw;" in
  let e := {| err_message := "must be owner" |} in
  sent (perform rejectDefaults op) emptyWorld !! 3%nat = Some q
  ∧ rejectDefaults (issued emptyWorld ++ take 3 (sent (perform rejectDefaults op) emptyWorld)) q
    = Throw e
  ∧ (perform rejectDefaults op emptyWorld).2 = Throw e
  ∧ length (sent (perform rejectDefaults op) emptyWorld) = 4%nat.
Proof.
  intros op q e.
  assert (sent (perform rejectDefaults op) emptyWorld !! 3%nat = Some q) as H1
    by (vm_compute; reflexivity).
  assert (rejectDefaults
            (issued emptyWorld ++ take 3 (sent (perform rejectDefaults op) emptyWorld)) q
          = Throw e) as H2 by (vm_compute; reflexivity).
  split_and!; [exact H1 | exact H2 | |];
    apply (operations_stop_at_first_rejection rejectDefaults op emptyWorld 3 q e H1 H2).
Defined.

(** X2.  What the result object of a mutating operation tells.  A
    result with [success = true] means that the operation sent all its
    statements, at least one, in order, and that the database accepted
    each of them.  A result with [success = false] means that nothing
    was sent, and only comes from an operation with the reserved-prefix
    test on a reserved name. *)
Theorem result_tells_what_happened driver op w result :
  (perform driver op w).2 = Ok result →
  if success result
  then sent (perform driver op) w = statements op
       ∧ statements op ≠ []
       ∧ (∀ i q, statements op !! i = Some q →
            ∃ rows, driver (issued w ++ take i (statements op)) q = Ok rows)
  else sent (perform driver op) w = []
       ∧ guarded op = true
       ∧ ∃ name, name ∈ targets op ∧ reserved name = true.
Proof.
  intros Hok. destruct (perform_behaves driver op) as (v & Hb & Hv).
  destruct (Hb w) as [Hlog Hres]. rewrite Hok in Hres.
  destruct (run_plan_log driver (statements op) (issued w)) as (d & Hd & _ & Hn).
  destruct ((run_plan driver (statements op) (issued w)).2) as [e|] eqn:E; [done|].
  injection Hres as ->. specialize (Hn eq_refl). subst d.
  assert (sent (perform driver op) w = statements op) as Hsent.
  { unfold sent. by rewrite Hlog, Hd, drop_app_length. }
  rewrite Hv. unfold turnedDown. destruct (guarded op) eqn:Hg; cbn [andb negb].
  - destruct op; try discriminate Hg; cbn [targets existsb statements] in *;
      rewrite orb_false_r;
      match goal with |- context [reserved ?n] => destruct (reserved n) eqn:R end;
      cbn [negb];
      try (split_and!; [done | done | eexists; split; [apply list_elem_of_here | done]]);
      (split_and!; [done | done | by apply run_plan_accepted]).
  - split_and!; [done | | by apply run_plan_accepted].
    destruct op; try discriminate Hg; cbn [statements]; try done.
    by destruct (concat _).
Qed.

Lemma result_tells_what_happened_witness :
  let op := DeleteRole "pg_monitor" in
  ∃ result,
    (perform acceptAll op emptyWorld).2 = Ok result
    ∧ success result = false
    ∧ sent (perform acceptAll op) emptyWorld = []
    ∧ guarded op = true.
Proof.
  intros op. eexists. split; [reflexivity|].
  pose proof (result_tells_what_happened acceptAll op emptyWorld _ eq_refl) as H.
  cbn [success] in H. split; [reflexivity|]. split; apply H.
Defined.

(** ** What the catch blocks print *)

Lemma reports_ret {A} (v : A) : reports (ret v).
Proof. intros w. done. Qed.

Lemma reports_query driver sql values : reports (db_query driver sql values).
Proof.
  intros w. unfold db_query. cbn [fst snd].
  destruct (driver _ _); cbn [console]; [done|]. exists []. by rewrite app_nil_r.
Qed.

Lemma reports_bind {A B} (m : M A) (k : A → M B) :
  reports m → (∀ a, reports (k a)) → reports (bind m k).
Proof.
  intros Hm Hk w. specialize (Hm w). unfold bind.
  destruct (m w) as [w' [a|e]]; cbn [fst snd] in *.
  - specialize (Hk a w'). destruct ((k a w').2) as [b|e]; [congruence|].
    destruct Hk as (lines & -> & Hl). exists lines. by rewrite Hm.
  - done.
Qed.

Lemma reports_try_catch {A} (m : M A) label :
  reports m →
  ∀ w, match (try_catch m (log_and_rethrow label) w).2 with
       | Ok _ => console (try_catch m (log_and_rethrow label) w).1 = console w
       | Throw e =>
           ∃ lines, console (try_catch m (log_and_rethrow label) w).1
                    = console w ++ lines ++ [label +:+ " " +:+ err_message e]
                    ∧ Forall (logLine e) lines
       end.
Proof.
  intros Hm w. specialize (Hm w). unfold try_catch.
  destruct (m w) as [w' [a|e]]; cbn [fst snd] in *; [done|].
  destruct Hm as (lines & Hc & Hl). exists lines.
  unfold log_and_rethrow, bind, console_error, throw. cbn [fst snd console].
  by rewrite Hc, <- app_assoc.
Qed.

Lemma reports_caught {A} (m : M A) label :
  reports m → reports (try_catch m (log_and_rethrow label)).
Proof.
  intros Hm w. pose proof (reports_try_catch m label Hm w) as H.
  destruct ((try_catch m (log_and_rethrow label) w).2) as [a|e]; [done|].
  destruct H as (lines & -> & Hl). eexists. split; [done|].
  apply Forall_app. split; [done|]. apply Forall_singleton. by exists label.
Qed.

Lemma reports_for_of {A S} (xs : list A) (body : S → A → M S) acc :
  (∀ acc x, reports (body acc x)) → reports (for_of xs body acc).
Proof.
  intros Hbody. revert acc. induction xs as [|x xs IH]; intros acc; simpl.
  - apply reports_ret.
  - apply reports_bind; [apply Hbody | apply IH].
Qed.

Ltac step_reports :=
  repeat first [ apply reports_caught
               | apply reports_ret
               | apply reports_query
               | apply reports_for_of; intros
               | apply reports_bind; [|intros] ].

Lemma grantReadPermissions_reports driver rolename database schema :
  reports (grantReadPermissions driver rolename database schema).
Proof. unfold grantReadPermissions. step_reports. Qed.

Lemma grantReadPermissionsMulti_reports driver rolename database schemas :
  reports (grantReadPermissionsMulti driver rolename database schemas).
Proof. unfold grantReadPermissionsMulti. step_reports. Qed.

(** Every operation is a body inside one catch block. *)
Lemma perform_caught driver op :
  ∃ (m : M Result) label,
    perform driver op = try_catch m (log_and_rethrow label) ∧ reports m.
Proof.
  destruct op; cbn [perform]; eexists _, _; (split; [reflexivity|]).
  1-5: match goal with |- context [if ?c then _ else _] => destruct c end; step_reports.
  1-2: step_reports.
  - step_reports.
  - apply reports_bind; [apply grantReadPermissions_reports | intros; step_reports].
  - step_reports.
  - step_reports.
  - apply reports_bind; [apply grantReadPermissionsMulti_reports | intros; step_reports].
  - step_reports.
Qed.

(** X3.  The catch blocks of the mutating operations.  An operation
    that returns has printed nothing with [console.error]; one that
    throws [e] has printed at least one line, and every line it printed
    is a label followed by the message of [e]: the error thrown is the
    database's own, logged and thrown again. *)
Theorem errors_are_logged_then_rethrown driver op w :
  match (perform driver op w).2 with
  | Ok _ => console (perform driver op w).1 = console w
  | Throw e =>
      ∃ lines, console (perform driver op w).1 = console w ++ lines
               ∧ lines ≠ []
               ∧ Forall (logLine e) lines
  end.
Proof.
  destruct (perform_caught driver op) as (m & label & -> & Hm).
  pose proof (reports_try_catch m label Hm w) as H.
  destruct ((try_catch m (log_and_rethrow label) w).2) as [a|e]; [done|].
  destruct H as (lines & -> & Hl). eexists. split; [done|]. split.
  - by destruct lines.
  - apply Forall_app. split; [done|]. apply Forall_singleton. by exists label.
Qed.

Lemma silent_ret {A} (v : A) : silent (ret v).
Proof. intros w. done. Qed.

Lemma silent_query driver sql values : silent (db_query driver sql values).
Proof. intros w. done. Qed.

Lemma silent_bind {A B} (m : M A) (k : A → M B) :
  silent m → (∀ a, silent (k a)) → silent (bind m k).
Proof.
  intros Hm Hk w. specialize (Hm w). unfold bind.
  destruct (m w) as [w' [a|e]]; cbn [fst snd] in *; [|done].
  by rewrite Hk.
Qed.

Lemma silent_for_of {A S} (xs : list A) (body : S → A → M S) acc :
  (∀ acc x, silent (body acc x)) → silent (for_of xs body acc).
Proof.
  intros Hbody. revert acc. induction xs as [|x xs IH]; intros acc; simpl.
  - apply silent_ret.
  - apply silent_bind; [apply Hbody | apply IH].
Qed.

Ltac step_silent :=
  repeat first [ apply silent_ret
               | apply silent_query
               | apply silent_for_of; intros
               | apply silent_bind; [|intros] ].

(** A catch block around a silent body prints exactly one line, and
    only when the body throws. *)
Lemma try_catch_silent {A} (m : M A) label w :
  silent m →
  (try_catch m (log_and_rethrow label) w).2 = (m w).2
  ∧ console (try_catch m (log_and_rethrow label) w).1
    = match (m w).2 with
      | Ok _ => console w
      | Throw e => console w ++ [label +:+ " " +:+ err_message e]
      end.
Proof.
  intros Hm. specialize (Hm w). unfold try_catch.
  destruct (m w) as [w' [a|e]]; cbn [fst snd] in *; [done|].
  unfold log_and_rethrow, bind, console_error, throw. cbn [fst snd console].
  by rewrite Hm.
Qed.

(** A catch block around [inner] followed by a silent tail: a failure
    of [inner] is printed once more, a failure of the tail once. *)
Lemma try_catch_after {A B} (inner : M A) (tail : M B) label w :
  silent tail →
  let outer := try_catch (bind inner (λ _, tail)) (log_and_rethrow label) w in
  match (inner w).2 with
  | Throw e =>
      outer.2 = Throw e
      ∧ console outer.1 = console (inner w).1 ++ [label +:+ " " +:+ err_message e]
  | Ok _ =>
      match outer.2 with
      | Throw e => console outer.1 = console (inner w).1 ++ [label +:+ " " +:+ err_message e]
      | Ok _ => console outer.1 = console (inner w).1
      end
  end.
Proof.
  intros Htail outer. subst outer. unfold try_catch, bind.
  destruct (inner w) as [w' [a|e]]; cbn [fst snd]; [|done].
  specialize (Htail w'). destruct (tail w') as [w'' [b|e]]; cbn [fst snd] in *; [done|].
  unfold log_and_rethrow, bind, console_error, throw. cbn [fst snd console].
  by rewrite Htail.
Qed.

(** X4.  [grantWritePermissions] calls [grantReadPermissions] inside its
    own try block, so a failure of the read grants is logged twice:
    when the read grant throws [e], the write grant throws [e] too,
    having printed the read label and then the write label with the
    same message.  A failure of one of its own statements is logged
    once, and a success prints nothing. *)
Theorem grantWrite_logs_read_failures_twice driver rolename database schema w :
  let read := grantReadPermissions driver rolename database schema w in
  let write := grantWritePermissions driver rolename database schema w in
  match read.2 with
  | Throw e =>
      write.2 = Throw e
      ∧ console write.1
        = console w ++ [ "Error granting read permissions: " +:+ err_message e;
                         "Error granting write permissions: " +:+ err_message e ]
  | Ok _ =>
      match write.2 with
      | Throw e =>
          console write.1
          = console w ++ ["Error granting write permissions: " +:+ err_message e]
      | Ok _ => console write.1 = console w
      end
  end.
Proof.
  intros read write. subst read write.
  assert (match (grantReadPermissions driver rolename database schema w).2 with
          | Ok _ => console (grantReadPermissions driver rolename database schema w).1
                    = console w
          | Throw e => console (grantReadPermissions driver rolename database schema w).1
                       = console w ++ ["Error granting read permissions: "
                                       +:+ err_message e]
          end) as Hinner.
  { unfold grantReadPermissions.
    match goal with |- context [try_catch ?m (log_and_rethrow ?l) w] =>
      destruct (try_catch_silent m l w) as [-> ->]; [step_silent|];
      by destruct ((m w).2) end. }
  unfold grantWritePermissions.
  match goal with
  | |- context [try_catch (bind ?inner (λ _, ?tail)) (log_and_rethrow ?label) w] =>
      pose proof (try_catch_after inner tail label w ltac:(step_silent)) as H
  end.
  cbv zeta in H.
  destruct ((grantReadPermissions driver rolename database schema w).2) as [a|e].
  - match type of H with match ?o with _ => _ end => destruct o end; by rewrite H, Hinner.
  - destruct H as [-> ->]. split; [done|]. by rewrite Hinner, <- app_assoc.
Qed.

(** ** Single-schema calls and multi-schema calls *)

(** Two computations that follow the same plan send the same statements
    and end the same way. *)
Lemma behaves_same_plan {A B} driver (m1 : M A) (m2 : M B) plan v1 v2 w :
  behaves driver m1 plan v1 → behaves driver m2 plan v2 →
  sent m1 w = sent m2 w
  ∧ match (m1 w).2, (m2 w).2 with
    | Ok a, Ok b => a = v1 ∧ b = v2
    | Throw e1, Throw e2 => e1 = e2
    | _, _ => False
    end.
Proof.
  intros H1 H2. destruct (H1 w) as [L1 R1], (H2 w) as [L2 R2].
  unfold sent. rewrite L1, L2, R1, R2. split; [done|].
  by destruct ((run_plan driver plan (issued w)).2).
Qed.

(** X5.  On a list of one schema the multi-schema grants do what the
    single-schema grants do: the same statements in the same order,
    whatever the database answers, and the same end (success, or the
    same error thrown). *)
Theorem grant_multi_on_one_schema driver rolename database schema w :
  sent (grantReadPermissionsMulti driver rolename database [schema]) w
    = sent (grantReadPermissions driver rolename database schema) w
  ∧ sent (grantWritePermissionsMulti driver rolename database [schema]) w
    = sent (grantWritePermissions driver rolename database schema) w
  ∧ match (grantReadPermissionsMulti driver rolename database [schema] w).2,
          (grantReadPermissions driver rolename database schema w).2 with
    | Ok a, Ok b => success a = true ∧ success b = true
    | Throw e1, Throw e2 => e1 = e2
    | _, _ => False
    end
  ∧ match (grantWritePermissionsMulti driver rolename database [schema] w).2,
          (grantWritePermissions driver rolename database schema w).2 with
    | Ok a, Ok b => success a = true ∧ success b = true
    | Throw e1, Throw e2 => e1 = e2
    | _, _ => False
    end.
Proof.
  pose proof (grantReadPermissionsMulti_behaves driver rolename database [schema]) as Hrm.
  pose proof (grantWritePermissionsMulti_behaves driver rolename database [schema]) as Hwm.
  unfold readPhase, writePhase in Hrm, Hwm. cbn [map concat] in Hrm, Hwm.
  rewrite !app_nil_r in Hrm, Hwm.
  destruct (behaves_same_plan driver _ _ _ _ _ w Hrm
              (grantReadPermissions_behaves driver rolename database schema)) as [R1 R2].
  destruct (behaves_same_plan driver _ _ _ _ _ w Hwm
              (grantWritePermissions_behaves driver rolename database schema)) as [W1 W2].
  split_and!; [done | done | |].
  - destruct ((grantReadPermissionsMulti driver rolename database [schema] w).2) as [a|e1],
      ((grantReadPermissions driver rolename database schema w).2) as [b|e2]; try done.
    by destruct R2 as [-> ->].
  - destruct ((grantWritePermissionsMulti driver rolename database [schema] w).2) as [a|e1],
      ((grantWritePermissions driver rolename database schema w).2) as [b|e2]; try done.
    by destruct W2 as [-> ->].
Qed.

(** X6.  The revoke differs: on one schema and a database that accepts
    every statement, [revokeAllPermissionsMulti] and
    [revokeAllPermissions] send the same six statements but not in the
    same order.  The single-schema revoke sends the database-level
    REVOKE fourth, before the two ALTER DEFAULT PRIVILEGES; the
    multi-schema one sends it last. *)
Theorem revoke_multi_on_one_schema driver rolename database schema w :
  accepts_all driver →
  let multi := sent (revokeAllPermissionsMulti driver rolename database [schema]) w in
  let single := sent (revokeAllPermissions driver rolename database schema) w in
  multi ≡ₚ single
  ∧ length single = 6%nat
  ∧ single !! 3%nat = Some (revokeDatabaseStatement rolename database)
  ∧ multi !! 5%nat = Some (revokeDatabaseStatement rolename database).
Proof.
  intros Hok multi single. subst multi single.
  rewrite (proj1 (behaves_sent_accepts driver _ _ _ w Hok
                    (revokeAllPermissionsMulti_behaves driver rolename database [schema]))).
  rewrite (proj1 (behaves_sent_accepts driver _ _ _ w Hok
                    (revokeAllPermissions_behaves driver rolename database schema))).
  cbn [map concat]. rewrite app_nil_r. split_and!; [|done..].
  rewrite <- app_assoc. apply Permutation_app_head.
  symmetry. apply Permutation_cons_append.
Qed.

Lemma revoke_multi_on_one_schema_witness :
  accepts_all acceptAll
  ∧ sent (revokeAllPermissionsMulti acceptAll "app_rw" "mydb" ["public"]) emptyWorld
    ≡ₚ sent (revokeAllPermissions acceptAll "app_rw" "mydb" "public") emptyWorld.
Proof.
  split; [exact accepts_all_acceptAll|].
  apply (revoke_multi_on_one_schema acceptAll "app_rw" "mydb" "public" emptyWorld
           accepts_all_acceptAll).
Defined.

(** X7.  On an empty list of schemas the multi-schema operations still
    act on the database: the grants send GRANT CONNECT and the revoke
    sends the database-level REVOKE, and nothing else. *)
Theorem multi_on_no_schema driver rolename database w :
  sent (grantReadPermissionsMulti driver rolename database []) w
    = [connectStatement rolename database]
  ∧ sent (grantWritePermissionsMulti driver rolename database []) w
    = [connectStatement rolename database]
  ∧ sent (revokeAllPermissionsMulti driver rolename database []) w
    = [revokeDatabaseStatement rolename database].
Proof.
  assert (∀ {A} (m : M A) q v, behaves driver m [q] v → sent m w = [q]) as Hone.
  { intros A m q v Hm. destruct (Hm w) as [Hlog _]. unfold sent. rewrite Hlog.
    simpl. destruct (driver (issued w) q); simpl; by rewrite drop_app_length. }
  split_and!.
  - eapply Hone. apply (grantReadPermissionsMulti_behaves driver rolename database []).
  - eapply Hone. apply (grantWritePermissionsMulti_behaves driver rolename database []).
  - eapply Hone. apply (revokeAllPermissionsMulti_behaves driver rolename database []).
Qed.

Lemma elem_of_concat_map {A B} (f : A → list B) (l : list A) (y : B) :
  y ∈ concat (map f l) ↔ ∃ x, x ∈ l ∧ y ∈ f x.
Proof.
  induction l as [|a l IH]; simpl.
  - split; [by intros ?%elem_of_nil | by intros (x & ?%elem_of_nil & _)].
  - rewrite elem_of_app, IH. split.
    + intros [H|(x & Hx & Hy)].
      * exists a. split; [apply list_elem_of_here | done].
      * exists x. split; [by apply list_elem_of_further | done].
    + intros (x & Hx & Hy). apply elem_of_cons in Hx as [->|Hx]; [by left|].
      right. by exists x.
Qed.

Lemma count_occ_concat_once {A} (f : A → list Query) (xs : list A) q :
  (∀ x, count_occ Query_eq_dec (f x) q = 1%nat) →
  count_occ Query_eq_dec (concat (map f xs)) q = length xs.
Proof.
  intros H. induction xs as [|x xs IH]; simpl; [done|].
  by rewrite count_occ_app, H, IH.
Qed.

Lemma eachSchema_behaves driver (single : string → M Result) planOf resultOf schemas :
  (∀ s, behaves driver (single s) (planOf s) (resultOf s)) →
  behaves driver (eachSchema single schemas) (concat (map planOf schemas)) tt.
Proof.
  intros Hs. induction schemas as [|s schemas IH]; simpl.
  - apply behaves_ret.
  - eapply behaves_bind; [apply Hs | apply IH].
Qed.

(** X8.  For any non-empty list of schemas and a database that accepts
    every statement, a multi-schema operation sends the same set of
    statements as the single-schema operation called once per schema,
    in list order; the database-level statement (GRANT CONNECT, or
    REVOKE ... ON DATABASE) is sent once by the multi-schema operation
    and once per schema by the repeated calls. *)
Theorem multi_schema_shares_database_statement driver rolename database schemas w :
  accepts_all driver →
  schemas ≠ [] →
  let connect := connectStatement rolename database in
  let revokeDatabase := revokeDatabaseStatement rolename database in
  let readMulti := sent (grantReadPermissionsMulti driver rolename database schemas) w in
  let readEach := sent (eachSchema (grantReadPermissions driver rolename database) schemas) w in
  let writeMulti := sent (grantWritePermissionsMulti driver rolename database schemas) w in
  let writeEach :=
    sent (eachSchema (grantWritePermissions driver rolename database) schemas) w in
  let revokeMulti := sent (revokeAllPermissionsMulti driver rolename database schemas) w in
  let revokeEach :=
    sent (eachSchema (revokeAllPermissions driver rolename database) schemas) w in
  (∀ q, q ∈ readMulti ↔ q ∈ readEach)
  ∧ count_occ Query_eq_dec readMulti connect = 1%nat
  ∧ count_occ Query_eq_dec readEach connect = length schemas
  ∧ (∀ q, q ∈ writeMulti ↔ q ∈ writeEach)
  ∧ count_occ Query_eq_dec writeMulti connect = 1%nat
  ∧ count_occ Query_eq_dec writeEach connect = length schemas
  ∧ (∀ q, q ∈ revokeMulti ↔ q ∈ revokeEach)
  ∧ count_occ Query_eq_dec revokeMulti revokeDatabase = 1%nat
  ∧ count_occ Query_eq_dec revokeEach revokeDatabase = length schemas.
Proof.
  intros Hok Hne connect revokeDatabase readMulti readEach writeMulti writeEach
    revokeMulti revokeEach.
  assert (∀ s, count_occ Query_eq_dec (schemaReadStatements rolename s) connect = 0%nat)
    as Cr by (intros s; apply count_occ_absent, connect_not_read).
  assert (∀ s, count_occ Query_eq_dec (schemaWriteStatements rolename s) connect = 0%nat)
    as Cw by (intros s; apply count_occ_absent, connect_not_write).
  assert (∀ s, count_occ Query_eq_dec (schemaRevokeObjects rolename s) revokeDatabase = 0%nat)
    as Co by (intros s; apply count_occ_absent, revokeDatabase_not_objects).
  assert (∀ s, count_occ Query_eq_dec (schemaRevokeDefaults rolename s) revokeDatabase = 0%nat)
    as Cd by (intros s; apply count_occ_absent, revokeDatabase_not_defaults).
  destruct schemas as [|s0 rest]; [done|]. clear Hne.
  set (schemas := s0 :: rest) in *.
  assert (s0 ∈ schemas) as Hs0 by apply list_elem_of_here.
  subst readMulti readEach writeMulti writeEach revokeMulti revokeEach.
  rewrite (proj1 (behaves_sent_accepts driver _ _ _ w Hok
                    (grantReadPermissionsMulti_behaves driver rolename database schemas))).
  rewrite (proj1 (behaves_sent_accepts driver _ _ _ w Hok
                    (eachSchema_behaves driver _ _ _ schemas
                       (grantReadPermissions_behaves driver rolename database)))).
  rewrite (proj1 (behaves_sent_accepts driver _ _ _ w Hok
                    (grantWritePermissionsMulti_behaves driver rolename database schemas))).
  rewrite (proj1 (behaves_sent_accepts driver _ _ _ w Hok
                    (eachSchema_behaves driver _ _ _ schemas
                       (grantWritePermissions_behaves driver rolename database)))).
  rewrite (proj1 (behaves_sent_accepts driver _ _ _ w Hok
                    (revokeAllPermissionsMulti_behaves driver rolename database schemas))).
  rewrite (proj1 (behaves_sent_accepts driver _ _ _ w Hok
                    (eachSchema_behaves driver _ _ _ schemas
                       (revokeAllPermissions_behaves driver rolename database)))).
  unfold readPhase, writePhase. fold connect revokeDatabase.
  split_and!.
  - intros q. rewrite elem_of_cons, !elem_of_concat_map. split.
    + intros [->|(s & Hs & Hq)].
      * exists s0. split; [done|]. apply list_elem_of_here.
      * exists s. split; [done|]. by apply list_elem_of_further.
    + intros (s & Hs & Hq). apply elem_of_cons in Hq as [->|Hq]; [by left|].
      right. by exists s.
  - rewrite count_occ_cons_eq by done.
    by rewrite count_occ_concat_absent by (intros; apply connect_not_read).
  - apply count_occ_concat_once. intros s. rewrite count_occ_cons_eq by done. by rewrite Cr.
  - intros q. rewrite elem_of_app, elem_of_cons, !elem_of_concat_map. split.
    + intros [[->|(s & Hs & Hq)]|(s & Hs & Hq)].
      * exists s0. split; [done|]. apply elem_of_app. left. apply list_elem_of_here.
      * exists s. split; [done|]. apply elem_of_app. left. by apply list_elem_of_further.
      * exists s. split; [done|]. apply elem_of_app. by right.
    + intros (s & Hs & Hq). apply elem_of_app in Hq as [Hq|Hq].
      * apply elem_of_cons in Hq as [->|Hq]; [by left; left|]. left. right. by exists s.
      * right. by exists s.
  - rewrite count_occ_app, count_occ_cons_eq by done.
    rewrite count_occ_concat_absent by (intros; apply connect_not_read).
    by rewrite count_occ_concat_absent by (intros; apply connect_not_write).
  - apply count_occ_concat_once. intros s.
    rewrite count_occ_app, count_occ_cons_eq by done. by rewrite Cr, Cw.
  - intros q. rewrite elem_of_app, !elem_of_concat_map, list_elem_of_singleton. split.
    + intros [(s & Hs & Hq)| ->].
      * exists s. split; [done|]. apply elem_of_app in Hq as [Hq|Hq]; apply elem_of_app.
        -- by left.
        -- right. by apply list_elem_of_further.
      * exists s0. split; [done|]. apply elem_of_app. right. apply list_elem_of_here.
    + intros (s & Hs & Hq). apply elem_of_app in Hq as [Hq|Hq].
      * left. exists s. split; [done|]. apply elem_of_app. by left.
      * apply elem_of_cons in Hq as [->|Hq]; [by right|].
        left. exists s. split; [done|]. apply elem_of_app. by right.
  - rewrite count_occ_app, count_occ_cons_eq by done.
    rewrite count_occ_concat_absent; [done|].
    intros s Hin. apply elem_of_app in Hin as [Hin|Hin].
    + by apply (revokeDatabase_not_objects rolename database s).
    + by apply (revokeDatabase_not_defaults rolename database s).
  - apply count_occ_concat_once. intros s.
    rewrite count_occ_app, count_occ_cons_eq by done. by rewrite Co, Cd.
Qed.

Lemma multi_schema_shares_database_statement_witness :
  accepts_all acceptAll
  ∧ ["public"; "sales"; "audit"] ≠ []
  ∧ count_occ Query_eq_dec
      (sent (grantWritePermissionsMulti acceptAll "app_rw" "mydb" ["public"; "sales"; "audit"])
            emptyWorld)
      (connectStatement "app_rw" "mydb") = 1%nat.
Proof.
  assert (["public"; "sales"; "audit"] ≠ []) as Hne by discriminate.
  split; [exact accepts_all_acceptAll|]. split; [exact Hne|].
  apply (multi_schema_shares_database_statement acceptAll "app_rw" "mydb"
           ["public"; "sales"; "audit"] emptyWorld accepts_all_acceptAll Hne).
Defined.
(** * The catalog readers against the database *)

(** What the server reads in the two statements of [listRoles]. *)
Lemma listRoles_statement_read :
  Pg.read ((listRolesSelect
              +:+ " AND rolname NOT LIKE 'pg\_%' AND rolname NOT LIKE 'rds\_%'")
             +:+ " ORDER BY rolname;")
  = Some {| Pg.select_list :=
              [ ("rolname", "rolename"); ("rolsuper", "is_superuser");
                ("rolcreaterole", "can_create_role"); ("rolcanlogin", "can_login") ];
            Pg.from := "pg_roles";
            Pg.where_clause :=
              [ Pg.Compare "rolcanlogin" false (VBool false);
                Pg.Matches "rolname" true "pg\_%";
                Pg.Matches "rolname" true "rds\_%" ];
            Pg.order_by := Some ("rolname", false) |}.
Proof. vm_compute. reflexivity. Qed.

Lemma listRoles_system_statement_read :
  Pg.read (listRolesSelect +:+ " ORDER BY rolname;")
  = Some {| Pg.select_list :=
              [ ("rolname", "rolename"); ("rolsuper", "is_superuser");
                ("rolcreaterole", "can_create_role"); ("rolcanlogin", "can_login") ];
            Pg.from := "pg_roles";
            Pg.where_clause := [ Pg.Compare "rolcanlogin" false (VBool false) ];
            Pg.order_by := Some ("rolname", false) |}.
Proof. vm_compute. reflexivity. Qed.

(** [listRoles] returns what the server answers. *)
Lemma listRoles_answer driver includeSystemRoles w rows sql :
  sql = (if negb includeSystemRoles
         then listRolesSelect
              +:+ " AND rolname NOT LIKE 'pg\_%' AND rolname NOT LIKE 'rds\_%'"
         else listRolesSelect) +:+ " ORDER BY rolname;" →
  driver (issued w) (stmt sql) = Ok rows →
  (listRoles driver includeSystemRoles w).2 = Ok rows.
Proof.
  intros -> Hrun. unfold listRoles, try_catch, bind, db_query. unfold stmt in Hrun.
  by rewrite Hrun.
Qed.

(** The answer to [listRoles()]. *)
Lemma listRoles_default_answer db w :
  ∃ roles,
    (listRoles (Pg.driver db) false w).2 = Ok (map Pg.roleRow roles)
    ∧ Sorted Pg.byName roles
    ∧ ∀ r, r ∈ roles
           ↔ r ∈ Pg.pg_roles db ∧ Pg.rolcanlogin r = false
             ∧ reserved (Pg.rolname r) = false.
Proof.
  destruct (run_answer db _ _ Pg.roleTuple (Pg.pg_roles db) "rolname"
              (eq_refl : Pg.relation db (Pg.from
                 {| Pg.select_list :=
                      [ ("rolname", "rolename"); ("rolsuper", "is_superuser");
                        ("rolcreaterole", "can_create_role");
                        ("rolcanlogin", "can_login") ];
                    Pg.from := "pg_roles";
                    Pg.where_clause :=
                      [ Pg.Compare "rolcanlogin" false (VBool false);
                        Pg.Matches "rolname" true "pg\_%";
                        Pg.Matches "rolname" true "rds\_%" ];
                    Pg.order_by := Some ("rolname", false) |}) = Some _)
              eq_refl eq_refl eq_refl) as (roles & Hrun & Hsorted & Hin).
  exists roles. split; [|split; [exact Hsorted|]].
  - eapply listRoles_answer; [reflexivity|].
    unfold Pg.driver, stmt. cbn [text negb]. by rewrite listRoles_statement_read, Hrun.
  - intros r. rewrite Hin. cbn [Pg.where_clause forallb].
    rewrite holds_login, !holds_name_not_like, like_pg, like_rds, andb_true_r.
    unfold reserved. rewrite !andb_true_iff, !negb_true_iff, orb_false_iff.
    destruct (Pg.rolcanlogin r); cbn [Bool.eqb]; intuition congruence.
Qed.

(** X9.  [listRoles] against the role catalog, the database reading
    the statement it is sent: by default [listRoles] returns, sorted
    by name, exactly the roles that cannot log in and whose name
    starts with neither [pg_] nor [rds_]; with [includeSystemRoles]
    it returns every role that cannot log in. *)
Theorem listRoles_reserved_filter db w :
  (∃ roles,
      (listRoles (Pg.driver db) false w).2 = Ok (map Pg.roleRow roles)
      ∧ Sorted Pg.byName roles
      ∧ ∀ r, r ∈ roles
             ↔ r ∈ Pg.pg_roles db ∧ Pg.rolcanlogin r = false
               ∧ reserved (Pg.rolname r) = false)
  ∧ (∃ roles,
      (listRoles (Pg.driver db) true w).2 = Ok (map Pg.roleRow roles)
      ∧ Sorted Pg.byName roles
      ∧ ∀ r, r ∈ roles ↔ r ∈ Pg.pg_roles db ∧ Pg.rolcanlogin r = false).
Proof.
  split; [apply listRoles_default_answer|].
  destruct (run_answer db _ _ Pg.roleTuple (Pg.pg_roles db) "rolname"
              (eq_refl : Pg.relation db (Pg.from
                 {| Pg.select_list :=
                      [ ("rolname", "rolename"); ("rolsuper", "is_superuser");
                        ("rolcreaterole", "can_create_role");
                        ("rolcanlogin", "can_login") ];
                    Pg.from := "pg_roles";
                    Pg.where_clause := [ Pg.Compare "rolcanlogin" false (VBool false) ];
                    Pg.order_by := Some ("rolname", false) |}) = Some _)
              eq_refl eq_refl eq_refl) as (roles & Hrun & Hsorted & Hin).
  exists roles. split; [|split; [exact Hsorted|]].
  - eapply listRoles_answer; [reflexivity|].
    unfold Pg.driver, stmt. cbn [text negb].
    by rewrite listRoles_system_statement_read, Hrun.
  - intros r. rewrite Hin. cbn [Pg.where_clause forallb].
    rewrite holds_login, andb_true_r.
    destruct (Pg.rolcanlogin r); cbn [Bool.eqb]; intuition congruence.
Qed.

(** X10.  [listUsers] and [listRoles] split the catalog: a role of the
    catalog is listed by one of them exactly when its name is not
    reserved, and never by both.  The two statements differ in the
    value [rolcanlogin] is compared with, and the database reads it. *)
Theorem users_and_roles_split_the_catalog db w :
  ∃ users roles,
    (listUsers (Pg.driver db) false w).2 = Ok (map Pg.userRow users)
    ∧ (listRoles (Pg.driver db) false w).2 = Ok (map Pg.roleRow roles)
    ∧ ∀ r, r ∈ Pg.pg_roles db →
           (reserved (Pg.rolname r) = false ↔ r ∈ users ∨ r ∈ roles)
           ∧ ¬ (r ∈ users ∧ r ∈ roles).
Proof.
  destruct (listUsers_default_answer db w) as (users & Hu & _ & Hus).
  destruct (listRoles_default_answer db w) as (roles & Hr & _ & Hrs).
  exists users, roles. split; [done|]. split; [done|].
  intros r Hin. rewrite Hus, Hrs. split.
  - split.
    + intros Hres. destruct (Pg.rolcanlogin r); [by left | by right].
    + intros [(_ & _ & H)|(_ & _ & H)]; done.
  - intros [(_ & H1 & _) (_ & H2 & _)]. congruence.
Qed.

(** What the server reads in the two statements of [listSchemas]. *)
Lemma listSchemas_statement_read :
  Pg.read listSchemasSql
  = Some {| Pg.select_list := [ ("nspname", "schema_name") ];
            Pg.from := "pg_namespace";
            Pg.where_clause :=
              [ Pg.Matches "nspname" true "pg\_%";
                Pg.Compare "nspname" true (VStr "information_schema") ];
            Pg.order_by := Some ("nspname", false) |}.
Proof. vm_compute. reflexivity. Qed.

Lemma listSchemas_system_statement_read :
  Pg.read listAllSchemasSql
  = Some {| Pg.select_list := [ ("nspname", "schema_name") ];
            Pg.from := "pg_namespace";
            Pg.where_clause := [];
            Pg.order_by := Some ("nspname", false) |}.
Proof. vm_compute. reflexivity. Qed.

(** [listSchemas] returns the [schema_name] of each row the server
    answers. *)
Lemma listSchemas_answer (driver : Driver) (includeSystemSchemas : bool) w rows :
  driver (issued w) (stmt (if includeSystemSchemas then listAllSchemasSql else listSchemasSql))
    = Ok rows →
  (listSchemas driver includeSystemSchemas w).2
    = Ok (map (λ row, prop row "schema_name") rows).
Proof.
  intros Hrun. unfold listSchemas, try_catch, bind, db_query. unfold stmt in Hrun.
  by rewrite Hrun.
Qed.

Lemma holds_schema_not_like n pattern :
  Pg.holds (Pg.Matches "nspname" true pattern) (Pg.namespaceTuple n)
  = negb (Pg.like (String.list_ascii_of_string pattern) (String.list_ascii_of_string n)).
Proof. reflexivity. Qed.

Lemma holds_schema_differs n other :
  Pg.holds (Pg.Compare "nspname" true (VStr other)) (Pg.namespaceTuple n)
  = negb (String.eqb n other).
Proof.
  change (Pg.holds (Pg.Compare "nspname" true (VStr other)) (Pg.namespaceTuple n))
    with (negb (bool_decide (VStr n = VStr other))).
  f_equal. destruct (String.eqb n other) eqn:E.
  - apply String.eqb_eq in E as ->. by apply bool_decide_eq_true.
  - apply String.eqb_neq in E. apply bool_decide_eq_false. congruence.
Qed.

(** X11.  [listSchemas] against the schema catalog, the database
    reading the statement it is sent: by default [listSchemas]
    returns, sorted, exactly the schema names that do not start with
    [pg_] and are not [information_schema]; with
    [includeSystemSchemas] it returns every schema name. *)
Theorem listSchemas_system_filter db w :
  (∃ names,
      (listSchemas (Pg.driver db) false w).2 = Ok (map VStr names)
      ∧ Sorted String.le names
      ∧ ∀ n, n ∈ names
             ↔ n ∈ Pg.pg_namespace db ∧ String.prefix "pg_" n = false
               ∧ n ≠ "information_schema")
  ∧ (∃ names,
      (listSchemas (Pg.driver db) true w).2 = Ok (map VStr names)
      ∧ Sorted String.le names
      ∧ ∀ n, n ∈ names ↔ n ∈ Pg.pg_namespace db).
Proof.
  split.
  - destruct (run_answer db _ _ Pg.namespaceTuple (Pg.pg_namespace db) "nspname"
                (eq_refl : Pg.relation db (Pg.from
                   {| Pg.select_list := [ ("nspname", "schema_name") ];
                      Pg.from := "pg_namespace";
                      Pg.where_clause :=
                        [ Pg.Matches "nspname" true "pg\_%";
                          Pg.Compare "nspname" true (VStr "information_schema") ];
                      Pg.order_by := Some ("nspname", false) |}) = Some _)
                eq_refl eq_refl eq_refl) as (names & Hrun & Hsorted & Hin).
    exists names. split; [|split; [exact Hsorted|]].
    + erewrite (listSchemas_answer _ false w); cycle 1.
      { unfold Pg.driver, stmt. cbn [text]. rewrite listSchemas_statement_read.
        exact Hrun. }
      by rewrite map_map.
    + intros n. rewrite Hin. cbn [Pg.where_clause forallb].
      rewrite holds_schema_not_like, holds_schema_differs, like_pg, andb_true_r.
      rewrite andb_true_iff, !negb_true_iff.
      destruct (String.eqb_spec n "information_schema") as [->|Hne]; intuition congruence.
  - destruct (run_answer db _ _ Pg.namespaceTuple (Pg.pg_namespace db) "nspname"
                (eq_refl : Pg.relation db (Pg.from
                   {| Pg.select_list := [ ("nspname", "schema_name") ];
                      Pg.from := "pg_namespace";
                      Pg.where_clause := [];
                      Pg.order_by := Some ("nspname", false) |}) = Some _)
                eq_refl eq_refl eq_refl) as (names & Hrun & Hsorted & Hin).
    exists names. split; [|split; [exact Hsorted|]].
    + erewrite (listSchemas_answer _ true w); cycle 1.
      { unfold Pg.driver, stmt. cbn [text]. rewrite listSchemas_system_statement_read.
        exact Hrun. }
      by rewrite map_map.
    + intros n. rewrite Hin. cbn [Pg.where_clause forallb]. tauto.
Qed.

(** * More on the permission report *)

(** The report holds the rows of each query in the field meant for them. *)
Lemma listPermissions_fields driver rolename w report :
  (listPermissions driver rolename w).2 = Ok report →
  let answer := answerAt driver (issued w) (reportQueries rolename) in
  (∃ roleInfo, answer 0%nat = Some (Ok roleInfo)
               ∧ roleDetails report = match roleInfo with r :: _ => r | [] => ∅ end)
  ∧ answer 1%nat = Some (Ok (tablePermissions report))
  ∧ answer 2%nat = Some (Ok (memberOf report))
  ∧ answer 3%nat = Some (Ok (columnPermissions report))
  ∧ answer 4%nat = Some (Ok (schemaPermissions report))
  ∧ answer 5%nat = Some (Ok (databasePermissions report)).
Proof.
  unfold listPermissions, try_catch, bind, db_query, answerAt, reportQueries, ret.
  cbn [map issued console lookup list_lookup take].
  rewrite app_nil_r.
  repeat match goal with
         | |- context [driver ?log ?q] =>
             lazymatch goal with
             | |- context [match driver log q with _ => _ end] =>
                 destruct (driver log q) as [?rows|?e] eqn:?;
                 cbn [issued console fst snd]; [|done]
             end
         end.
  intros [= <-]. cbn [roleDetails tablePermissions memberOf columnPermissions
    schemaPermissions databasePermissions set_tablePermissions set_memberOf
    set_columnPermissions set_schemaPermissions set_databasePermissions].
  rewrite <- ?app_assoc in *. cbn [app] in *.
  split_and!; [by eexists | congruence..].
Qed.

(** X12.  When [listPermissions] returns a report, each field of the
    report is the answer of the database to the query of that field:
    the first row of the first answer (or the empty object) for the
    role details, and the rows of the second to the sixth answer for
    the table grants, the memberships, the column grants, the schema
    grants and the database grants. *)
Theorem listPermissions_fills_each_field driver rolename w report :
  (listPermissions driver rolename w).2 = Ok report →
  let answer := answerAt driver (issued w) (reportQueries rolename) in
  (∃ roleInfo, answer 0%nat = Some (Ok roleInfo)
               ∧ roleDetails report = match roleInfo with r :: _ => r | [] => ∅ end)
  ∧ answer 1%nat = Some (Ok (tablePermissions report))
  ∧ answer 2%nat = Some (Ok (memberOf report))
  ∧ answer 3%nat = Some (Ok (columnPermissions report))
  ∧ answer 4%nat = Some (Ok (schemaPermissions report))
  ∧ answer 5%nat = Some (Ok (databasePermissions report)).
Proof. apply listPermissions_fields. Qed.

Lemma listPermissions_fills_each_field_witness :
  ∃ report,
    (listPermissions acceptAll "app_read_only" emptyWorld).2 = Ok report
    ∧ answerAt acceptAll (issued emptyWorld) (reportQueries "app_read_only") 1%nat
      = Some (Ok (tablePermissions report)).
Proof.
  eexists. split; [reflexivity|].
  apply (listPermissions_fills_each_field acceptAll "app_read_only" emptyWorld _ eq_refl).
Defined.

Lemma listUserRoles_run driver username w :
  sent (listUserRoles driver username) w
  = [{| text := listUserRolesSql; values := [VStr username] |}].
Proof.
  unfold sent, listUserRoles, try_catch, bind, db_query. cbn [issued fst snd].
  destruct (driver _ _);
    unfold log_and_rethrow, bind, console_error, throw, ret; cbn [fst snd issued];
    by rewrite drop_app_length.
Qed.

(** X13.  The catalog queries never put the role or user name into the
    statement text: every statement of [listPermissions] and of
    [listUserRoles] carries the name as its one bound value, and the
    texts sent are the fixed ones whatever the name is (the first of
    the six texts of the report, up to a rejection). *)
Theorem catalog_queries_take_the_name_as_parameter driver name other w :
  (∀ q, q ∈ sent (listPermissions driver name) w → values q = [VStr name])
  ∧ map text (sent (listPermissions driver name) w)
      `prefix_of` map text (reportQueries other)
  ∧ (∀ q, q ∈ sent (listUserRoles driver name) w → values q = [VStr name])
  ∧ map text (sent (listUserRoles driver name) w)
    = map text (sent (listUserRoles driver other) w).
Proof.
  assert (sent (listPermissions driver name) w `prefix_of` reportQueries name) as Hp.
  { unfold sent. destruct (listPermissions_run driver name w) as [-> _].
    destruct (run_plan_log driver (reportQueries name) (issued w)) as (d & -> & Hp & _).
    by rewrite drop_app_length. }
  split_and!.
  - intros q Hq. destruct Hp as [k Hk].
    assert (q ∈ reportQueries name) as Hin by (rewrite Hk; apply elem_of_app; by left).
    unfold reportQueries in Hin. apply list_elem_of_fmap in Hin as (sql & -> & _). done.
  - destruct Hp as [k Hk].
    assert (map text (reportQueries other) = map text (reportQueries name)) as -> by done.
    rewrite Hk, map_app. by eexists.
  - intros q. rewrite listUserRoles_run. by intros ->%list_elem_of_singleton.
  - by rewrite !listUserRoles_run.
Qed.

(** * More on the password generator *)

Section GeneratorOptions.

Variable random : nat → Q.
Hypothesis random_range : ∀ k, (0 <= random k)%Q ∧ (random k < 1)%Q.

Lemma fill_chars chars remaining password k :
  (0 < String.length chars)%nat →
  ∃ more,
    String.list_ascii_of_string (fill random chars remaining password k).1
    = String.list_ascii_of_string password ++ more
    ∧ length more = remaining
    ∧ Forall (λ c, c ∈ String.list_ascii_of_string chars) more.
Proof.
  intros Hchars. revert password k.
  induction remaining as [|n IH]; intros password k; simpl.
  - exists []. by rewrite app_nil_r.
  - destruct (charAt_in_range chars (randomIndex random k (String.length chars)))
      as (c & Hc & Hin); [by apply randomIndex_lt|].
    destruct (IH (password +:+ charAt chars (randomIndex random k (String.length chars)))
                (S k)) as (more & Hmore & Hlen & Hall).
    rewrite Hmore, list_ascii_app, Hc, <- app_assoc. simpl.
    exists (c :: more). split; [done|]. split; [simpl; by rewrite Hlen|].
    by apply Forall_cons.
Qed.

(** The characters of a generated password: the required ones, then
    the filling, shuffled. *)
Lemma generateSecurePassword_parts length includeSpecial includeNumbers includeUppercase k :
  ∃ required more,
    String.list_ascii_of_string
      (generateSecurePassword random length includeSpecial includeNumbers includeUppercase k).1
    ≡ₚ required ++ more
    ∧ List.length required
      = requiredCharacters includeSpecial includeNumbers includeUppercase
    ∧ List.length more = Z.to_nat (length - Z.of_nat (List.length required))
    ∧ Forall (λ c, (includeUppercase = true ∧ c ∈ String.list_ascii_of_string uppercase)
                   ∨ (includeNumbers = true ∧ c ∈ String.list_ascii_of_string numbers)
                   ∨ (includeSpecial = true ∧ c ∈ String.list_ascii_of_string special))
             required
    ∧ Forall (λ c, c ∈ String.list_ascii_of_string lowercase
                   ∨ (includeUppercase = true ∧ c ∈ String.list_ascii_of_string uppercase)
                   ∨ (includeNumbers = true ∧ c ∈ String.list_ascii_of_string numbers)
                   ∨ (includeSpecial = true ∧ c ∈ String.list_ascii_of_string special))
             more.
Proof.
  unfold generateSecurePassword.
  destruct includeUppercase, includeNumbers, includeSpecial; cbv iota beta;
    repeat match goal with
           | |- context [charAt ?s (randomIndex random ?j (String.length ?s))] =>
               let c := fresh "c" in
               let Hc := fresh "Hc" in
               let Hin := fresh "Hin" in
               destruct (charAt_in_range s (randomIndex random j (String.length s)))
                 as (c & Hc & Hin);
               [ apply randomIndex_lt; [exact random_range | vm_compute; lia] | ];
               rewrite Hc; clear Hc
           end;
    cbn [String.append String.length];
    match goal with
    | |- context [fill random ?chars ?n ?pw ?j] =>
        destruct (fill_chars chars n pw j) as (more & Hfill & Hmore & Hall);
        [ vm_compute; lia | ];
        destruct (fill random chars n pw j) as [filled k'] eqn:Efill;
        cbn [fst] in Hfill;
        exists (String.list_ascii_of_string pw), more
    end;
    match goal with
    | |- context [shuffle random ?i ?arr ?j] =>
        pose proof (shuffle_Permutation random i arr j) as Hperm;
        destruct (shuffle random i arr j) as [shuffled k'']; cbn [fst] in Hperm
    end;
    cbn [fst]; rewrite String.list_ascii_of_string_of_list_ascii;
    rewrite ?list_ascii_app in *; cbn [String.list_ascii_of_string app] in *;
    (split; [by rewrite Hperm, Hfill|]); (split; [reflexivity|]);
    (split; [exact Hmore|]);
    (split;
     [ rewrite ?Forall_cons, ?Forall_nil; intuition
     | eapply Forall_impl; [exact Hall|];
       intros x; cbv beta; rewrite ?list_ascii_app, ?elem_of_app; intuition ]).
Qed.

(** On an integer length: the larger of the length and the number of
    character classes asked for. *)
Lemma generateSecurePassword_length_integer length includeSpecial includeNumbers includeUppercase k :
  let password :=
    (generateSecurePassword random length includeSpecial includeNumbers includeUppercase k).1 in
  Z.of_nat (String.length password)
  = Z.max length
      (Z.of_nat (requiredCharacters includeSpecial includeNumbers includeUppercase)).
Proof.
  intros password. subst password.
  destruct (generateSecurePassword_parts length includeSpecial includeNumbers
              includeUppercase k) as (required & more & Hperm & Hreq & Hmore & _).
  rewrite <- list_ascii_length, Hperm, length_app, Hmore, Hreq. lia.
Qed.

Lemma generateSecurePassword_classes length includeSpecial includeNumbers includeUppercase k c :
  c ∈ String.list_ascii_of_string
        (generateSecurePassword random length includeSpecial includeNumbers
           includeUppercase k).1 →
  c ∈ String.list_ascii_of_string lowercase
  ∨ (includeUppercase = true ∧ c ∈ String.list_ascii_of_string uppercase)
  ∨ (includeNumbers = true ∧ c ∈ String.list_ascii_of_string numbers)
  ∨ (includeSpecial = true ∧ c ∈ String.list_ascii_of_string special).
Proof.
  intros Hc.
  destruct (generateSecurePassword_parts length includeSpecial includeNumbers
              includeUppercase k) as (required & more & Hperm & _ & _ & Hreq & Hmore).
  rewrite Hperm, elem_of_app in Hc. rewrite Forall_forall in Hreq, Hmore.
  destruct Hc as [Hc|Hc]; [right; by apply Hreq | by apply Hmore].
Qed.

Lemma alphabet_has_no_quote c :
  c ∈ String.list_ascii_of_string (lowercase +:+ uppercase +:+ numbers +:+ special) →
  c ∉ quoteCharacters.
Proof.
  intros Hc Hq.
  assert (forallb (λ x, negb (bool_decide (x ∈ quoteCharacters)))
            (String.list_ascii_of_string (lowercase +:+ uppercase +:+ numbers +:+ special))
          = true) as Hsafe by (vm_compute; reflexivity).
  rewrite forallb_forall in Hsafe.
  assert (negb (bool_decide (c ∈ quoteCharacters)) = true) as Hb
    by by apply Hsafe, list_elem_of_In.
  apply negb_true_iff, bool_decide_eq_false in Hb. done.
Qed.

Lemma generateSecurePassword_no_quote length includeSpecial includeNumbers includeUppercase k c :
  c ∈ String.list_ascii_of_string
        (generateSecurePassword random length includeSpecial includeNumbers
           includeUppercase k).1 →
  c ∉ quoteCharacters.
Proof.
  intros Hc. apply alphabet_has_no_quote.
  apply (generateSecurePassword_classes _ _ _ _ _ _) in Hc.
  rewrite !list_ascii_app, !elem_of_app. tauto.
Qed.

(** X15.  Every character of a generated password is a lowercase
    letter or belongs to one of the classes asked for; none is a single
    quote, a double quote or a backslash. *)
Theorem generateSecurePassword_alphabet length includeSpecial includeNumbers
    includeUppercase k c :
  c ∈ String.list_ascii_of_string
        (generateSecurePassword random length includeSpecial includeNumbers
           includeUppercase k).1 →
  (c ∈ String.list_ascii_of_string lowercase
   ∨ (includeUppercase = true ∧ c ∈ String.list_ascii_of_string uppercase)
   ∨ (includeNumbers = true ∧ c ∈ String.list_ascii_of_string numbers)
   ∨ (includeSpecial = true ∧ c ∈ String.list_ascii_of_string special))
  ∧ c ∉ quoteCharacters.
Proof.
  intros Hc. split.
  - by apply (generateSecurePassword_classes _ _ _ _ _ _ Hc).
  - by apply (generateSecurePassword_no_quote _ _ _ _ _ _ Hc).
Qed.

End GeneratorOptions.

(** The loop test [i < bound] holds of the first [rounds bound] values
    of [i] and of no other. *)
Lemma rounds_spec (bound : Q) (i : nat) :
  (i < rounds bound)%nat ↔ (inject_Z (Z.of_nat i) < bound)%Q.
Proof.
  unfold rounds. pose proof (Qle_ceiling bound) as Hle.
  pose proof (Qceiling_lt bound) as Hlt. split.
  - intros Hi. assert (Z.of_nat i ≤ Qceiling bound - 1)%Z as Hz by lia.
    rewrite Zle_Qle in Hz. eapply Qle_lt_trans; [exact Hz | exact Hlt].
  - intros Hi. assert (inject_Z (Z.of_nat i) < inject_Z (Qceiling bound))%Q as Hq
      by (eapply Qlt_le_trans; [exact Hi | exact Hle]).
    rewrite <- Zlt_Qlt in Hq. lia.
Qed.

Lemma Qceiling_minus_Z (x : Q) (n : Z) :
  Qceiling (x - inject_Z n) = (Qceiling x - n)%Z.
Proof.
  pose proof (Qle_ceiling x) as Hle. pose proof (Qceiling_lt x) as Hlt.
  pose proof (Qle_ceiling (x - inject_Z n)) as Hle'.
  pose proof (Qceiling_lt (x - inject_Z n)) as Hlt'.
  revert Hle Hlt Hle' Hlt'.
  generalize (Qceiling x) (Qceiling (x - inject_Z n)). intros c c'.
  destruct x as [a b]. unfold Qle, Qlt, Qminus, Qplus, Qopp, inject_Z.
  cbn [Qnum Qden]. intros. nia.
Qed.

(** A fractional length counts as the next integer. *)
Lemma generateSecurePassword_rounds_up random length includeSpecial includeNumbers
    includeUppercase k :
  JsNumber.generateSecurePassword random length includeSpecial includeNumbers
    includeUppercase k
  = generateSecurePassword random (Qceiling length) includeSpecial includeNumbers
      includeUppercase k.
Proof.
  unfold JsNumber.generateSecurePassword, generateSecurePassword, rounds.
  destruct includeUppercase, includeNumbers, includeSpecial; cbv zeta;
    by rewrite Qceiling_minus_Z.
Qed.

(** X14.  The length of a generated password, for every choice of
    options and every finite number given as length, fractions, zero
    and negative numbers included: the larger of the length rounded up
    to an integer and the number of character classes asked for.  A
    length of 8.5 gives 9 characters, and a length below the number of
    classes is not honoured: one character of each class is always
    there. *)
Theorem generateSecurePassword_length_of_any_number
    random length includeSpecial includeNumbers includeUppercase k :
  (∀ k, (0 <= random k)%Q ∧ (random k < 1)%Q) →
  let password :=
    (JsNumber.generateSecurePassword random length includeSpecial includeNumbers
       includeUppercase k).1 in
  Z.of_nat (String.length password)
  = Z.max (Qceiling length)
      (Z.of_nat (requiredCharacters includeSpecial includeNumbers includeUppercase)).
Proof.
  intros Hrandom password. subst password.
  rewrite generateSecurePassword_rounds_up.
  apply (generateSecurePassword_length_integer random Hrandom).
Qed.

Lemma generateSecurePassword_length_of_any_number_witness :
  (∀ k : nat, (0 <= halfRandom k)%Q ∧ (halfRandom k < 1)%Q)
  ∧ Z.of_nat (String.length
                (JsNumber.generateSecurePassword halfRandom (17 # 2) true true true 0).1)
    = 9%Z.
Proof.
  assert (∀ k : nat, (0 <= halfRandom k)%Q ∧ (halfRandom k < 1)%Q) as Hr.
  { intros k. unfold halfRandom, Qle, Qlt. simpl. lia. }
  split; [exact Hr|].
  apply (generateSecurePassword_length_of_any_number halfRandom (17 # 2) true true true 0 Hr).
Defined.

Lemma generateSecurePassword_alphabet_witness :
  (∀ k : nat, (0 <= halfRandom k)%Q ∧ (halfRandom k < 1)%Q)
  ∧ "N"%char ∈ String.list_ascii_of_string
                 (generateSecurePassword halfRandom 16 false true true 0).1
  ∧ "N"%char ∉ quoteCharacters.
Proof.
  assert (∀ k : nat, (0 <= halfRandom k)%Q ∧ (halfRandom k < 1)%Q) as Hr.
  { intros k. unfold halfRandom, Qle, Qlt. simpl. lia. }
  assert ("N"%char ∈ String.list_ascii_of_string
                       (generateSecurePassword halfRandom 16 false true true 0).1) as Hin.
  { vm_compute. apply list_elem_of_here. }
  split; [exact Hr|]. split; [exact Hin|].
  apply (generateSecurePassword_alphabet halfRandom Hr 16 false true true 0 "N"%char Hin).
Defined.

Lemma createUser_sends driver username password w :
  reserved username = false →
  sent (createUser driver username password) w
  = [stmt ("CREATE ROLE " +:+ username +:+ " WITH LOGIN PASSWORD '" +:+ password +:+ "';")].
Proof.
  intros Hres. unfold reserved in Hres.
  unfold sent, createUser, try_catch, bind, db_query. rewrite Hres. cbn [issued fst snd].
  destruct (driver _ _);
    unfold log_and_rethrow, bind, console_error, throw, ret; cbn [fst snd issued];
    by rewrite drop_app_length.
Qed.

(** X16.  [createUser] with a generated password: for a name that is
    not reserved and holds no single quote, the one statement sent
    holds exactly two single quotes, those that delimit the password
    literal.  The generated password cannot close the literal. *)
Theorem createUser_generated_password_keeps_quoting
    random driver username length includeSpecial k w :
  (∀ k, (0 <= random k)%Q ∧ (random k < 1)%Q) →
  reserved username = false →
  "'"%char ∉ String.list_ascii_of_string username →
  let password := (generateSecurePassword random length includeSpecial true true k).1 in
  ∃ q, sent (createUser driver username password) w = [q]
       ∧ count_occ ascii_dec (String.list_ascii_of_string (text q)) "'"%char = 2%nat.
Proof.
  intros Hrange Hres Huser password.
  eexists. split; [by apply createUser_sends|].
  unfold stmt. cbn [text]. rewrite !list_ascii_app, !count_occ_app.
  assert (count_occ ascii_dec (String.list_ascii_of_string username) "'"%char = 0%nat) as ->.
  { apply count_occ_not_In. by rewrite <- list_elem_of_In. }
  assert (count_occ ascii_dec (String.list_ascii_of_string password) "'"%char = 0%nat) as ->.
  { apply count_occ_not_In. rewrite <- list_elem_of_In. intros Hin.
    apply (generateSecurePassword_no_quote random Hrange _ _ _ _ _ _ Hin).
    apply list_elem_of_here. }
  reflexivity.
Qed.

Lemma createUser_generated_password_keeps_quoting_witness :
  (∀ k : nat, (0 <= halfRandom k)%Q ∧ (halfRandom k < 1)%Q)
  ∧ reserved "readonly_user" = false
  ∧ ("'"%char ∉ String.list_ascii_of_string "readonly_user")
  ∧ ∃ q, sent (createUser acceptAll "readonly_user"
                 ((generateSecurePassword halfRandom 16 true true true 0).1)) emptyWorld = [q]
         ∧ count_occ ascii_dec (String.list_ascii_of_string (text q)) "'"%char = 2%nat.
Proof.
  assert (∀ k : nat, (0 <= halfRandom k)%Q ∧ (halfRandom k < 1)%Q) as Hr.
  { intros k. unfold halfRandom, Qle, Qlt. simpl. lia. }
  assert ("'"%char ∉ String.list_ascii_of_string "readonly_user") as Hu.
  { intros Hin. pose proof (bool_decide_pack _ Hin) as Hb. vm_compute in Hb. exact Hb. }
  split; [exact Hr|]. split; [reflexivity|]. split; [exact Hu|].
  apply (createUser_generated_password_keeps_quoting halfRandom acceptAll "readonly_user"
           16 true 0 emptyWorld Hr eq_refl Hu).
Defined.

(** * The display of a report *)

Lemma displayRoleDetails_cases chalk roleDetails :
  match prop roleDetails "rolconnlimit" with
  | VUndefined | VNull =>
      displayRoleDetails chalk roleDetails
      = Throw (cannotRead (prop roleDetails "rolconnlimit"))
  | _ =>
      displayRoleDetails chalk roleDetails
      = Ok ([ [chalk ["white"] "Name";
               chalk ["green"; "bold"]
                 (toStr (js_or (prop roleDetails "rolname") (VStr "N/A")))];
              [chalk ["white"] "Superuser";
               formatBooleanValue chalk (prop roleDetails "rolsuper")];
              [chalk ["white"] "Create Roles";
               formatBooleanValue chalk (prop roleDetails "rolcreaterole")];
              [chalk ["white"] "Create Database";
               formatBooleanValue chalk (prop roleDetails "rolcreatedb")];
              [chalk ["white"] "Can Login";
               formatBooleanValue chalk (prop roleDetails "rolcanlogin")];
              [chalk ["white"] "Inherit";
               formatBooleanValue chalk (prop roleDetails "rolinherit")] ]
            ++ (if truthy (prop roleDetails "rolreplication")
                then [["Replication";
                       formatBooleanValue chalk (prop roleDetails "rolreplication")]]
                else [])
            ++ (if bool_decide (prop roleDetails "rolconnlimit" = VNum (-1))
                then []
                else [["Connection Limit";
                       chalk ["blue"] (toStr (prop roleDetails "rolconnlimit"))]])
            ++ (if truthy (prop roleDetails "rolvaliduntil")
                then [["Valid Until";
                       chalk ["blue"] (toStr (prop roleDetails "rolvaliduntil"))]]
                else []))
  end.
Proof.
  unfold displayRoleDetails.
  destruct (prop roleDetails "rolconnlimit") as [| |b|n|s|shown] eqn:E; cbn [toString];
    try (rewrite bool_decide_eq_true_2 by done; reflexivity).
  all: destruct (truthy (prop roleDetails "rolreplication")),
         (truthy (prop roleDetails "rolvaliduntil"));
       repeat case_bool_decide; try congruence; reflexivity.
Qed.

(** X17.  [displayRoleDetails] throws exactly when the role details
    have no connection limit ([rolconnlimit] is [undefined] or [null]):
    the limit is compared with [-1] and then read with [toString].
    When it does not throw, the table is made of six rows, Name (the
    role name, or N/A), Superuser, Create Roles, Create Database, Can
    Login and Inherit, each with the yes or no of its own attribute
    ([rolsuper], [rolcreaterole], [rolcreatedb], [rolcanlogin],
    [rolinherit]); then a Replication row when [rolreplication] is set,
    a Connection Limit row with the limit when it is not [-1], and a
    Valid Until row with the date when [rolvaliduntil] is set, in this
    order. *)
Theorem displayRoleDetails_needs_connection_limit chalk roleDetails :
  ((∃ e, displayRoleDetails chalk roleDetails = Throw e)
   ↔ prop roleDetails "rolconnlimit" = VUndefined ∨ prop roleDetails "rolconnlimit" = VNull)
  ∧ ∀ table,
      displayRoleDetails chalk roleDetails = Ok table →
      let yesNo := λ attribute, formatBooleanValue chalk (prop roleDetails attribute) in
      table
      = [ [chalk ["white"] "Name";
           chalk ["green"; "bold"]
             (toStr (js_or (prop roleDetails "rolname") (VStr "N/A")))];
          [chalk ["white"] "Superuser"; yesNo "rolsuper"];
          [chalk ["white"] "Create Roles"; yesNo "rolcreaterole"];
          [chalk ["white"] "Create Database"; yesNo "rolcreatedb"];
          [chalk ["white"] "Can Login"; yesNo "rolcanlogin"];
          [chalk ["white"] "Inherit"; yesNo "rolinherit"] ]
        ++ (if truthy (prop roleDetails "rolreplication")
            then [["Replication"; yesNo "rolreplication"]]
            else [])
        ++ (if bool_decide (prop roleDetails "rolconnlimit" = VNum (-1))
            then []
            else [["Connection Limit";
                   chalk ["blue"] (toStr (prop roleDetails "rolconnlimit"))]])
        ++ (if truthy (prop roleDetails "rolvaliduntil")
            then [["Valid Until";
                   chalk ["blue"] (toStr (prop roleDetails "rolvaliduntil"))]]
            else []).
Proof.
  pose proof (displayRoleDetails_cases chalk roleDetails) as H.
  destruct (prop roleDetails "rolconnlimit") as [| |b|n|s|shown] eqn:E.
  1-2: rewrite H; split; [split; [tauto | by eexists] | done].
  all: rewrite H;
       (split; [split; [by intros [e He] | by intros [H'|H']] | by intros ? [= <-]]).
Qed.

Lemma displayRoleDetails_needs_connection_limit_witness :
  ∃ table,
    displayRoleDetails plainChalk sampleRoleDetails = Ok table
    ∧ table = [ ["Name"; "app_read_only"]; ["Superuser"; "✗ No"];
                ["Create Roles"; "✗ No"]; ["Create Database"; "✗ No"];
                ["Can Login"; "✗ No"]; ["Inherit"; "✓ Yes"] ].
Proof.
  eexists. split; [reflexivity|].
  apply (displayRoleDetails_needs_connection_limit plainChalk sampleRoleDetails).
  reflexivity.
Defined.

(** X18.  The fallback [roleInfoResult.rows[0] || {}] of
    [listPermissions]: whenever [listPermissions] returns a report
    although the role query answered no row, the role details of the
    report are the empty object; on it the summary reports no admin
    rights, and [displayRoleDetails] throws a TypeError, the empty
    object having no connection limit. *)
Theorem empty_role_details_break_the_display chalk driver rolename w report :
  (listPermissions driver rolename w).2 = Ok report →
  answerAt driver (issued w) (reportQueries rolename) 0%nat = Some (Ok []) →
  roleDetails report = ∅
  ∧ displayRoleDetails chalk (roleDetails report) = Throw (cannotRead VUndefined)
  ∧ truthy (hasAdminPermissions (displayQuickSummary report)) = false.
Proof.
  intros Hok Hnone.
  destruct (listPermissions_fields driver rolename w report Hok) as [(info & Hi & Hd) _].
  rewrite Hnone in Hi. injection Hi as <-. split; [done|].
  rewrite Hd. split; [|unfold displayQuickSummary; cbn [hasAdminPermissions]; by rewrite Hd].
  pose proof (displayRoleDetails_cases chalk ∅) as H.
  unfold prop in H. rewrite lookup_empty in H. exact H.
Qed.

Lemma empty_role_details_break_the_display_witness :
  ∃ report,
    (listPermissions acceptAll "ghost" emptyWorld).2 = Ok report
    ∧ answerAt acceptAll (issued emptyWorld) (reportQueries "ghost") 0%nat = Some (Ok [])
    ∧ displayRoleDetails plainChalk (roleDetails report) = Throw (cannotRead VUndefined).
Proof.
  eexists. split; [reflexivity|]. split; [reflexivity|].
  apply (empty_role_details_break_the_display plainChalk acceptAll "ghost" emptyWorld _
           eq_refl eq_refl).
Defined.

Lemma privilegesOf_nonempty k rows :
  privilegesOf (onTable k) rows ≠ [] ↔ ∃ p, p ∈ rows ∧ tableKey p = k.
Proof.
  unfold privilegesOf. induction rows as [|r rows IH]; simpl.
  - split; [done | by intros (p & ?%elem_of_nil & _)].
  - unfold onTable at 1. destruct (String.eqb_spec (tableKey r) k) as [Heq|Hne]; simpl.
    + split; [|done]. intros _. exists r. split; [apply list_elem_of_here | done].
    + rewrite IH. split.
      * intros (p & Hp & Hk). exists p. split; [by apply list_elem_of_further | done].
      * intros (p & Hp & Hk). apply elem_of_cons in Hp as [->|Hp]; [done|]. by exists p.
Qed.

Lemma group_is_Some {A} (l : list A) : is_Some (group l) ↔ l ≠ [].
Proof. destruct l; simpl; split; try done; by intros [? ?]. Qed.

(** The keys of the grouping are the table keys of the grants. *)
Lemma tablePermsByTable_dom rows (byTable : gmap string (list Val)) :
  (∀ k, byTable !! k = group (privilegesOf (onTable k) rows)) →
  dom byTable = (list_to_set (map tableKey rows) : gset string).
Proof.
  intros Hk. apply set_eq. intros k.
  rewrite elem_of_dom, Hk, group_is_Some, privilegesOf_nonempty, elem_of_list_to_set,
    list_elem_of_fmap.
  split; intros (p & H1 & H2); exists p; done.
Qed.

(** X19.  [displayTablePermissions] on the table grants of a report
    never throws.  It makes one row per distinct table key, as many
    rows as the summary counts tables, in sorted key order and without
    repeating a key; each row belongs to a table of the grants, lists
    the privilege kinds of that table's grants in row order, and shows
    the read icon exactly when SELECT is among them. *)
Theorem displayTablePermissions_rows permissions :
  let tables := tablePermissions permissions in
  ∃ rows,
    displayTablePermissions tables = Ok rows
    ∧ length rows = totalTables (displayQuickSummary permissions)
    ∧ Sorted String.le (map row_key rows)
    ∧ NoDup (map row_key rows)
    ∧ ∀ row, row ∈ rows →
        (∃ p, p ∈ tables ∧ tableKey p = row_key row)
        ∧ row_privileges row = privilegesOf (onTable (row_key row)) tables
        ∧ ("🔍" ∈ row_icons row ↔ VStr "SELECT" ∈ row_privileges row).
Proof.
  intros tables. unfold displayTablePermissions, displayQuickSummary. cbn [totalTables].
  fold tables. change (λ p : Row, toStr (prop p "table_schema") +:+ "." +:+
                                    toStr (prop p "table_name")) with tableKey.
  destruct (tablePermsByTable_groups tables) as (byTable & -> & Hk).
  pose proof (tablePermsByTable_dom tables byTable Hk) as Hdom.
  destruct tables as [|t tables'] eqn:Et.
  { exists []. cbn. repeat split; try done; try constructor;
      by match goal with H : _ ∈ [] |- _ => apply elem_of_nil in H end. }
  rewrite <- Et in *. cbn [length Nat.eqb].
  assert ((length tables =? 0)%nat = false) as -> by by rewrite Et.
  eexists. split; [reflexivity|].
  assert (∀ f : string → TableRow, (∀ k, row_key (f k) = k) →
            map row_key (map f (sortedKeys byTable)) = sortedKeys byTable) as Hkeys.
  { intros f Hf. rewrite map_map. rewrite <- (map_id (sortedKeys byTable)) at 2.
    apply map_ext. intros k. apply Hf. }
  rewrite Hkeys by done. unfold sortedKeys. split_and!.
  - rewrite length_map, merge_sort_Permutation, <- Hdom. done.
  - apply Sorted_merge_sort, _.
  - rewrite merge_sort_Permutation. apply NoDup_elements.
  - intros row Hrow. apply list_elem_of_fmap in Hrow as (k & -> & Hin). cbn [row_key
      row_icons row_privileges].
    rewrite merge_sort_Permutation, elem_of_elements, Hdom, elem_of_list_to_set,
      list_elem_of_fmap in Hin.
    destruct Hin as (p & -> & Hp).
    assert (byTable !! tableKey p = Some (privilegesOf (onTable (tableKey p)) tables)) as Hl.
    { rewrite Hk. assert (privilegesOf (onTable (tableKey p)) tables ≠ []) as Hne.
      { apply privilegesOf_nonempty. by exists p. }
      by destruct (privilegesOf (onTable (tableKey p)) tables). }
    rewrite Hl. cbn [default from_option]. split_and!; [by exists p | done |].
    rewrite !elem_of_app.
    repeat case_bool_decide;
      rewrite ?elem_of_nil, ?list_elem_of_singleton;
      split; intros; try done; try tauto;
      repeat match goal with H : _ ∨ _ |- _ => destruct H end;
      try done; try discriminate.
Qed.

(** ** The delete commands *)

Lemma listUsers_issued driver w :
  issued (listUsers driver false w).1 = issued w ++ [listUsersStatement].
Proof.
  unfold listUsers, try_catch, bind, db_query, ret, log_and_rethrow, console_error, throw.
  cbn [negb]. by destruct (driver _ _).
Qed.

Lemma listRoles_issued driver w :
  issued (listRoles driver false w).1 = issued w ++ [listRolesStatement].
Proof.
  unfold listRoles, try_catch, bind, db_query, ret, log_and_rethrow, console_error, throw.
  cbn [negb]. by destruct (driver _ _).
Qed.


Lemma deleteRole_issued driver name w :
  issued (deleteRole driver name w).1
    = issued w ++ (if reserved name then [] else [stmt ("DROP ROLE " +:+ name +:+ ";")]).
Proof.
  unfold deleteRole, reserved, try_catch, bind, db_query, ret, log_and_rethrow,
    console_error, throw.
  destruct (String.prefix "pg_" name || String.prefix "rds_" name); cbn.
  - by rewrite app_nil_r.
  - by destruct (driver _ _).
Qed.

Section CommandProperties.

Variable driver : Driver.
Variable pool_connect : outcome unit.
Variable inspect : Error → string.
Variable inquirer_prompt : Terminal → list Val → outcome DeleteAnswers.

(** X20.  The actions of [delete-user] and [delete-role] never reject:
    whatever the connection, the database and the prompt do, the action
    ends normally (a failure is caught and printed). *)
Theorem delete_commands_never_throw t :
  (deleteUserAction driver pool_connect inspect inquirer_prompt t).2 = Ok tt
  ∧ (deleteRoleAction driver pool_connect inspect inquirer_prompt t).2 = Ok tt.
Proof.
  split.
  - unfold deleteUserAction, act_try_catch.
    destruct (act_bind _ _ t) as [t' [[]|e]]; reflexivity.
  - unfold deleteRoleAction, act_try_catch.
    destruct (act_bind _ _ t) as [t' [[]|e]]; reflexivity.
Qed.


(** X22.  The same for [delete-role]: each statement it adds is either
    the listing of the roles or a DROP ROLE of a name that is not
    reserved and that the prompt answered together with a
    confirmation. *)
Theorem delete_role_needs_confirmation t :
  ∃ more,
    issued (world (deleteRoleAction driver pool_connect inspect inquirer_prompt t).1)
      = issued (world t) ++ more
    ∧ ∀ q, q ∈ more →
        q = listRolesStatement
        ∨ ∃ asked choices name,
            inquirer_prompt asked choices
              = Ok {| answer_name := name; answer_confirm := true |}
            ∧ reserved name = false
            ∧ q = stmt ("DROP ROLE " +:+ name +:+ ";").
Proof.
  unfold deleteRoleAction, testConnection, act_try_catch, act_bind, act_ret, call,
    console_log, console_error.
  destruct pool_connect as [[]|e0]; cbn.
  2:{ exists []. rewrite app_nil_r. split; [done | by intros q ?%elem_of_nil]. }
  rewrite (surjective_pairing (listRoles driver false (world t))).
  pose proof (listRoles_issued driver (world t)) as HL.
  destruct ((listRoles driver false (world t)).2) as [roles|e1]; cbn.
  2:{ exists [listRolesStatement]. split; [done|].
      intros q ->%list_elem_of_singleton. by left. }
  match goal with |- context [inquirer_prompt ?a ?c] =>
    destruct (inquirer_prompt a c) as [[name [|]]|e2] eqn:Hask end; cbn.
  - match goal with |- context [deleteRole driver name ?w] =>
      pose proof (deleteRole_issued driver name w) as HD;
      rewrite (surjective_pairing (deleteRole driver name w));
      destruct ((deleteRole driver name w).2) as [result|e3] end; cbn;
      cbn in HD;
      exists ([listRolesStatement]
                ++ (if reserved name then [] else [stmt ("DROP ROLE " +:+ name +:+ ";")]));
      (split; [by rewrite HD, HL, <- app_assoc|]);
      intros q [->%list_elem_of_singleton|Hq]%elem_of_app; try (by left);
      destruct (reserved name) eqn:Hres; try (by apply elem_of_nil in Hq);
      apply list_elem_of_singleton in Hq as ->; right; eauto 10.
  - exists [listRolesStatement]. split; [done|].
    intros q ->%list_elem_of_singleton. by left.
  - exists [listRolesStatement]. split; [done|].
    intros q ->%list_elem_of_singleton. by left.
Qed.

(** X23.  A confirmed [delete-user] from end to end.  With a
    connection, a listing the database answers and a user who confirms
    a name that is not reserved, the command sends the listing and then
    DROP ROLE.  If the database accepts it, the success message is
    printed and nothing goes to [console.error]; if it rejects it with
    [e], the message of [e] is printed twice with [console.error], once
    by [deleteUser] and once by the command, and no result is
    printed. *)
Theorem confirmed_delete_user_runs t users name :
  pool_connect = Ok tt →
  driver (issued (world t)) listUsersStatement = Ok users →
  (∀ asked, inquirer_prompt asked (map (λ user, prop user "username") users)
            = Ok {| answer_name := name; answer_confirm := true |}) →
  reserved name = false →
  let drop := stmt ("DROP ROLE " +:+ name +:+ ";") in
  let t' := (deleteUserAction driver pool_connect inspect inquirer_prompt t).1 in
  issued (world t') = issued (world t) ++ [listUsersStatement; drop]
  ∧ match driver (issued (world t) ++ [listUsersStatement]) drop with
    | Ok _ =>
        console (world t') = console (world t)
        ∧ printed t' = printed t ++ [ "Successfully connected to PostgreSQL";
                                      "User " +:+ name +:+ " deleted successfully" ]
    | Throw e =>
        console (world t') = console (world t)
                               ++ [ "Error deleting user: " +:+ err_message e;
                                    "Error: " +:+ err_message e ]
        ∧ printed t' = printed t ++ [ "Successfully connected to PostgreSQL" ]
    end.
Proof.
  intros Hconn Hlist Hask Hres.
  unfold deleteUserAction, testConnection, act_try_catch, act_bind, act_ret, call,
    console_log. rewrite Hconn. cbn.
  assert (listUsers driver false (world t)
          = ({| issued := issued (world t) ++ [listUsersStatement];
                console := console (world t) |}, Ok users)) as HL.
  { unfold listUsers, try_catch, bind, db_query, ret. cbn [negb].
    fold listUsersStatement. unfold listUsersStatement, stmt in Hlist |- *.
    by rewrite Hlist. }
  rewrite HL. cbn. rewrite Hask. cbn.
  unfold deleteUser, try_catch, bind, db_query, ret, log_and_rethrow, console_error, throw.
  unfold reserved in Hres. rewrite Hres. cbn.
  unfold stmt. destruct (driver (issued (world t) ++ [listUsersStatement]) _) as [rows|e]; cbn.
  - by rewrite <- !app_assoc.
  - by rewrite <- !app_assoc.
Qed.

End CommandProperties.

Lemma confirmed_delete_user_runs_witness :
  let t' := (deleteUserAction rejectDrop (Ok tt) err_message (confirms "alice")
               freshTerminal).1 in
  issued (world t') = [listUsersStatement; stmt "DROP ROLE alice;"]
  ∧ console (world t') = [ "Error deleting user: role is in use"; "Error: role is in use" ]
  ∧ printed t' = [ "Successfully connected to PostgreSQL" ].
Proof.
  pose proof (confirmed_delete_user_runs rejectDrop (Ok tt) err_message (confirms "alice")
                freshTerminal [] "alice" eq_refl eq_refl (λ _, eq_refl) eq_refl) as H.
  exact H.
Defined.
